(** * Grid path-finding kernel of the ai-games demos

    A shallow embedding of the path-finding code of [wumpus3.py],
    [snake3.py] and [wumpus4.py]: the breadth-first searches, the A*
    search, the level generator, the teleport pairing and the replay
    driver, together with the properties the specification states about
    them. *)

From Stdlib Require Import ZArith Lia.
From stdpp Require Import gmap list sorting.

Open Scope Z_scope.

(** ** Common data model *)

(** The entity markers stored in grid cells ([AGENT = "A"], ... in the
    sources).  [wumpus3.py] only uses the first five. *)
Inductive Entity : Type :=
  | AGENT | WUMPUS | GOLD | PIT | EMPTY
  | TRAIL | OBSTACLE | TRAP | TELEPORT.

#[global] Instance Entity_eq_dec : EqDecision Entity.
Proof. solve_decision. Defined.

(** A cell is a pair of Python integers. *)
Abbreviation Pos := (Z * Z)%type.

(** A grid is a list of rows. *)
Abbreviation Grid := (list (list Entity)).

(** Outcome of a Python call whose loops are run with fuel. *)
Inductive outcome (A : Type) : Type :=
  | Return (a : A)
  | Raise
  | Timeout.
Arguments Return {A} a.
Arguments Raise {A}.
Arguments Timeout {A}.

(** Python list indexing [l[i]]: negative indices count from the end,
    anything out of range raises [IndexError] (here [None]). *)
Definition py_index {A : Type} (l : list A) (i : Z) : option A :=
  if decide (0 <= i) then l !! Z.to_nat i
  else if decide (0 <= Z.of_nat (length l) + i)
       then l !! Z.to_nat (Z.of_nat (length l) + i)
       else None.

(** [grid[r][c]] *)
Definition grid_at (grid : Grid) (r c : Z) : option Entity :=
  row ← py_index grid r; py_index row c.

(** Python list assignment [l[i] = x]. *)
Definition py_set {A : Type} (l : list A) (i : Z) (x : A) : option (list A) :=
  if decide (0 <= i) then
    if decide (i < Z.of_nat (length l)) then Some (<[Z.to_nat i := x]> l) else None
  else if decide (0 <= Z.of_nat (length l) + i)
       then Some (<[Z.to_nat (Z.of_nat (length l) + i) := x]> l)
       else None.

(** [grid[r][c] = e] *)
Definition grid_set (grid : Grid) (r c : Z) (e : Entity) : option Grid :=
  row ← py_index grid r; row' ← py_set row c e; py_set grid r row'.

(** [[[EMPTY for _ in range(n)] for _ in range(n)]] *)
Definition empty_grid (n : Z) : Grid :=
  replicate (Z.to_nat n) (replicate (Z.to_nat n) EMPTY).

(** The cells in the order of [for r in range(n): for c in range(n)]. *)
Definition row_major (n : Z) : list Pos :=
  r ← seqZ 0 n; c ← seqZ 0 n; [(r, c)].

(** [random.randint(a, b)], drawing the [i]-th number of the generator
    [rand]; the result lies in [[a, b]], and [b < a] raises. *)
Definition randint (rand : nat → Z) (a b : Z) (i : nat) : option (Z * nat) :=
  if decide (a <= b) then Some (a + rand i `mod` (b - a + 1), S i) else None.

(** A grid is well formed for size [n] when it has [n] rows of [n] cells. *)
Definition grid_wf (n : Z) (grid : Grid) : Prop :=
  Z.of_nat (length grid) = n ∧ Forall (λ row, Z.of_nat (length row) = n) grid.

Definition in_bounds (n : Z) (p : Pos) : Prop :=
  0 <= p.1 < n ∧ 0 <= p.2 < n.

#[global] Instance in_bounds_dec n p : Decision (in_bounds n p).
Proof. unfold in_bounds. apply _. Defined.

(** ** [wumpus3.py]: breadth-first search over cells *)

Module Wumpus3.

Section Bfs.
Variable GRID_SIZE : Z.
Variable grid : Grid.
Variable goal : Pos.

(** [[(-1, 0), (1, 0), (0, -1), (0, 1)]] *)
Definition DIRS : list (Z * Z) := [(-1, 0); (1, 0); (0, -1); (0, 1)].

(** The guard of the inner [if]:
    [0 <= nx < GRID_SIZE and 0 <= ny < GRID_SIZE and
     grid[nx][ny] != PIT and grid[nx][ny] != WUMPUS]. *)
Definition may_enter (n : Pos) : option bool :=
  if decide (in_bounds GRID_SIZE n) then
    e ← grid_at grid n.1 n.2;
    Some (bool_decide (e ≠ PIT) && bool_decide (e ≠ WUMPUS))
  else Some false.

(** The [for dx, dy in ...] loop, appending to the queue. *)
Fixpoint push_neighbours (ds : list (Z * Z)) (x y : Z) (path : list Pos)
    (queue : list (Pos * list Pos)) : option (list (Pos * list Pos)) :=
  match ds with
  | [] => Some queue
  | (dx, dy) :: ds' =>
      let n := (x + dx, y + dy) in
      b ← may_enter n;
      push_neighbours ds' x y path
        (if b : bool then queue ++ [(n, path ++ [(x, y)])] else queue)
  end.

(** The [while queue] loop. *)
Fixpoint bfs_loop (fuel : nat) (queue : list (Pos * list Pos))
    (visited : gset Pos) : outcome (list Pos) :=
  match fuel with
  | O => Timeout
  | S fuel' =>
      match queue with
      | [] => Return []
      | ((x, y), path) :: rest =>
          if decide ((x, y) = goal) then Return (path ++ [(x, y)])
          else if decide ((x, y) ∈ visited) then bfs_loop fuel' rest visited
          else match push_neighbours DIRS x y path rest with
               | None => Raise
               | Some queue' => bfs_loop fuel' queue' ({[ (x, y) ]} ∪ visited)
               end
      end
  end.

(** Number of loop iterations that always suffices: every cell of the
    grid and the start are expanded at most once, and every expansion
    enqueues at most four entries. *)
Definition bfs_fuel : nat := Z.to_nat (4 * (GRID_SIZE * GRID_SIZE + 1) + 2).

Definition bfs_search (start : Pos) : outcome (list Pos) :=
  bfs_loop bfs_fuel [(start, [])] ∅.

(** *** Paths through enterable cells *)

(** The four cells the loop looks at from [p]. *)
Definition neighbours_of (p : Pos) : list Pos :=
  (λ d : Z * Z, (p.1 + d.1, p.2 + d.2)) <$> DIRS.

(** One move: to an adjacent cell that the guard lets through. *)
Definition step (p q : Pos) : Prop :=
  q ∈ neighbours_of p ∧ may_enter q = Some true.

#[global] Instance step_dec p q : Decision (step p q).
Proof. unfold step. apply _. Defined.

Fixpoint chain (l : list Pos) : Prop :=
  match l with
  | p :: l' => match l' with q :: _ => step p q ∧ chain l' | [] => True end
  | [] => True
  end.

(** [l] is a path from [start] to [target]: it starts and ends there and
    each move is a [step]. *)
Definition is_path (start target : Pos) (l : list Pos) : Prop :=
  head l = Some start ∧ last l = Some target ∧ chain l.

(** [walk start n p]: [p] is reached from [start] in exactly [n] moves. *)
Inductive walk (start : Pos) : nat → Pos → Prop :=
  | walk_O : walk start 0 start
  | walk_S n p q : walk start n p → step p q → walk start (S n) q.

#[global] Instance chain_dec l : Decision (chain l).
Proof. induction l as [|p [|q l'] IH]; simpl; apply _. Defined.

#[global] Instance is_path_dec start target l : Decision (is_path start target l).
Proof. unfold is_path. apply _. Defined.

(** The cells the loop expands, in the order it expands them (the
    iterations of [bfs_loop] that reach [visited.add]). *)
Fixpoint expansions (fuel : nat) (queue : list (Pos * list Pos))
    (visited : gset Pos) : list Pos :=
  match fuel with
  | O => []
  | S fuel' =>
      match queue with
      | [] => []
      | ((x, y), path) :: rest =>
          if decide ((x, y) = goal) then []
          else if decide ((x, y) ∈ visited) then expansions fuel' rest visited
          else match push_neighbours DIRS x y path rest with
               | None => [(x, y)]
               | Some queue' =>
                   (x, y) :: expansions fuel' queue' ({[ (x, y) ]} ∪ visited)
               end
      end
  end.

End Bfs.

(** *** [generate_custom_grid]

    The two position strings are taken as already parsed pairs. *)

Section Generate.
Variable GRID_SIZE : Z.
Variable rand : nat → Z.

(** Result of [generate_custom_grid], with the local list of pits. *)
Record Custom : Type := mkCustom {
  c_grid : Grid;
  c_agent : Pos;
  c_gold : Pos;
  c_wumpus : list Pos;
  c_pits : list Pos;
  c_rng : nat
}.

(** The [while True] loop that draws one wumpus position. *)
Fixpoint draw_wumpus (fuel : nat) (agent_pos gold_pos : Pos)
    (wumpus_positions : list Pos) (i : nat) : outcome (Pos * nat) :=
  match fuel with
  | O => Timeout
  | S fuel' =>
      match randint rand 0 (GRID_SIZE - 1) i with
      | None => Raise
      | Some (x, i1) =>
          match randint rand 0 (GRID_SIZE - 1) i1 with
          | None => Raise
          | Some (y, i2) =>
              if decide ((x, y) ≠ agent_pos ∧ (x, y) ≠ gold_pos ∧
                         ((x, y) ∉ wumpus_positions))
              then Return ((x, y), i2)
              else draw_wumpus fuel' agent_pos gold_pos wumpus_positions i2
          end
      end
  end.

Fixpoint place_wumpuses (fuel : nat) (num : nat) (agent_pos gold_pos : Pos)
    (wumpus_positions : list Pos) (i : nat) : outcome (list Pos * nat) :=
  match num with
  | O => Return (wumpus_positions, i)
  | S num' =>
      match draw_wumpus fuel agent_pos gold_pos wumpus_positions i with
      | Return (pos, i') =>
          place_wumpuses fuel num' agent_pos gold_pos (wumpus_positions ++ [pos]) i'
      | Raise => Raise
      | Timeout => Timeout
      end
  end.

(** The [while attempts < 100] loop that draws one pit position. *)
Fixpoint draw_pit (attempts : nat) (agent_pos gold_pos : Pos)
    (wumpus_positions pit_positions : list Pos) (i : nat) :
    option (option Pos * nat) :=
  match attempts with
  | O => Some (None, i)
  | S attempts' =>
      '(x, i1) ← randint rand 0 (GRID_SIZE - 1) i;
      '(y, i2) ← randint rand 0 (GRID_SIZE - 1) i1;
      if decide ((x, y) ≠ agent_pos ∧ (x, y) ≠ gold_pos ∧
                 ((x, y) ∉ wumpus_positions) ∧ ((x, y) ∉ pit_positions))
      then Some (Some (x, y), i2)
      else draw_pit attempts' agent_pos gold_pos wumpus_positions pit_positions i2
  end.

Fixpoint place_pits (num : nat) (agent_pos gold_pos : Pos)
    (wumpus_positions pit_positions : list Pos) (i : nat) :
    option (list Pos * nat) :=
  match num with
  | O => Some (pit_positions, i)
  | S num' =>
      '(r, i') ← draw_pit 100 agent_pos gold_pos wumpus_positions pit_positions i;
      place_pits num' agent_pos gold_pos wumpus_positions
        (match r with Some pos => pit_positions ++ [pos] | None => pit_positions end) i'
  end.

(** [for pos in positions: grid[pos[0]][pos[1]] = kind] *)
Fixpoint mark (positions : list Pos) (kind : Entity) (grid : Grid) : option Grid :=
  match positions with
  | [] => Some grid
  | pos :: rest => grid' ← grid_set grid pos.1 pos.2 kind; mark rest kind grid'
  end.

Definition generate_custom_grid (fuel : nat) (agent_in gold_in : Pos)
    (num_wumpus num_pits : nat) (i : nat) : outcome Custom :=
  let agent_pos := if decide (in_bounds GRID_SIZE agent_in) then agent_in else (0, 0) in
  let gold_pos :=
    if decide (in_bounds GRID_SIZE gold_in) then gold_in
    else (GRID_SIZE - 1, GRID_SIZE - 1) in
  match place_wumpuses fuel num_wumpus agent_pos gold_pos [] i with
  | Return (wumpus_positions, i1) =>
      match
        '(pit_positions, i2) ← place_pits num_pits agent_pos gold_pos wumpus_positions [] i1;
        g1 ← grid_set (empty_grid GRID_SIZE) agent_pos.1 agent_pos.2 AGENT;
        g2 ← grid_set g1 gold_pos.1 gold_pos.2 GOLD;
        g3 ← mark wumpus_positions WUMPUS g2;
        g4 ← mark pit_positions PIT g3;
        Some (mkCustom g4 agent_pos gold_pos wumpus_positions pit_positions i2)
      with
      | Some c => Return c
      | None => Raise
      end
  | Raise => Raise
  | Timeout => Timeout
  end.

End Generate.

(** *** [generate_random_grid] *)

(** Result of [generate_random_grid], with the local set of pits. *)
Record Random : Type := mkRandom {
  r_grid : Grid;
  r_agent : Pos;
  r_gold : Pos;
  r_wumpus : Pos;
  r_pits : gset Pos;
  r_rng : nat
}.

Section RandomGrid.
Variable GRID_SIZE : Z.
Variable rand : nat → Z.

(** The [while True] loop that draws the wumpus. *)
Fixpoint random_wumpus (fuel : nat) (agent_pos gold_pos : Pos) (i : nat) :
    outcome (Pos * nat) :=
  match fuel with
  | O => Timeout
  | S fuel' =>
      match randint rand 0 (GRID_SIZE - 1) i with
      | None => Raise
      | Some (x, i1) =>
          match randint rand 0 (GRID_SIZE - 1) i1 with
          | None => Raise
          | Some (y, i2) =>
              if decide ((x, y) ≠ agent_pos ∧ (x, y) ≠ gold_pos)
              then Return ((x, y), i2)
              else random_wumpus fuel' agent_pos gold_pos i2
          end
      end
  end.

(** The [while len(pits) < 9] loop. *)
Fixpoint random_pits (fuel : nat) (agent_pos gold_pos wumpus_pos : Pos)
    (pits : gset Pos) (i : nat) : outcome (gset Pos * nat) :=
  match fuel with
  | O => Timeout
  | S fuel' =>
      if decide (size pits < 9)%nat then
        match randint rand 0 (GRID_SIZE - 1) i with
        | None => Raise
        | Some (x, i1) =>
            match randint rand 0 (GRID_SIZE - 1) i1 with
            | None => Raise
            | Some (y, i2) =>
                random_pits fuel' agent_pos gold_pos wumpus_pos
                  (if decide ((x, y) ≠ agent_pos ∧ (x, y) ≠ gold_pos ∧
                              (x, y) ≠ wumpus_pos)
                   then {[ (x, y) ]} ∪ pits else pits) i2
            end
        end
      else Return (pits, i)
  end.

(** [generate_random_grid]; [for pit in pits] visits the set in the
    order of [elements]. *)
Definition generate_random_grid (fuel : nat) (i : nat) : outcome Random :=
  let agent_pos := (0, 0) in
  let gold_pos := (GRID_SIZE - 1, GRID_SIZE - 1) in
  match random_wumpus fuel agent_pos gold_pos i with
  | Return (wumpus_pos, i1) =>
      match random_pits fuel agent_pos gold_pos wumpus_pos ∅ i1 with
      | Return (pits, i2) =>
          match
            g1 ← grid_set (empty_grid GRID_SIZE) agent_pos.1 agent_pos.2 AGENT;
            g2 ← grid_set g1 gold_pos.1 gold_pos.2 GOLD;
            g3 ← grid_set g2 wumpus_pos.1 wumpus_pos.2 WUMPUS;
            g4 ← mark (elements pits) PIT g3;
            Some (mkRandom g4 agent_pos gold_pos wumpus_pos pits i2)
          with
          | Some r => Return r
          | None => Raise
          end
      | Raise => Raise
      | Timeout => Timeout
      end
  | Raise => Raise
  | Timeout => Timeout
  end.

End RandomGrid.

(** *** [move_agent]

    The grids drawn, one for every cell of the path; the events of the
    window are left out. *)

Fixpoint move_agent_loop (temp_grid : Grid) (prev : option Pos) (path : list Pos) :
    option (list Grid) :=
  match path with
  | [] => Some []
  | pos :: rest =>
      g1 ← match prev with
           | Some prev_pos => grid_set temp_grid prev_pos.1 prev_pos.2 EMPTY
           | None => Some temp_grid
           end;
      g2 ← grid_set g1 pos.1 pos.2 AGENT;
      frames ← move_agent_loop g2 (Some pos) rest;
      Some (g2 :: frames)
  end.

Definition move_agent (grid : Grid) (path : list Pos) : option (list Grid) :=
  move_agent_loop grid None path.

(** The game of [main] once the start button is pressed: the path is
    searched and, when there is one, the agent is moved along it. *)
Definition play (GRID_SIZE : Z) (grid : Grid) (agent_pos gold_pos : Pos) :
    outcome (list Pos * list Grid) :=
  match bfs_search GRID_SIZE grid gold_pos agent_pos with
  | Return [] => Return ([], [])
  | Return path =>
      match move_agent grid path with
      | Some frames => Return (path, frames)
      | None => Raise
      end
  | Raise => Raise
  | Timeout => Timeout
  end.

End Wumpus3.


(** ** [snake3.py]: breadth-first search over pixel positions *)

Module Snake3.

(** The keys of [DIRECTIONS], in the order the dictionary lists them. *)
Inductive Direction : Type := UP | DOWN | LEFT | RIGHT.

#[global] Instance Direction_eq_dec : EqDecision Direction.
Proof. solve_decision. Defined.

(** [DIRECTIONS[d]] *)
Definition DIRECTIONS (d : Direction) : Z * Z :=
  match d with
  | UP => (0, -1)
  | DOWN => (0, 1)
  | LEFT => (-1, 0)
  | RIGHT => (1, 0)
  end.

Definition KEYS : list Direction := [UP; DOWN; LEFT; RIGHT].

Section Bfs.
Variables WIDTH HEIGHT GRID_SIZE : Z.
Variable snake : list Pos.
Variable food : Pos.

(** [(x + DIRECTIONS[d][0] * GRID_SIZE, y + DIRECTIONS[d][1] * GRID_SIZE)] *)
Definition target (p : Pos) (d : Direction) : Pos :=
  (p.1 + (DIRECTIONS d).1 * GRID_SIZE, p.2 + (DIRECTIONS d).2 * GRID_SIZE).

(** [0 <= nx < WIDTH and 0 <= ny < HEIGHT and (nx, ny) not in self.snake] *)
Definition free (n : Pos) : Prop :=
  0 <= n.1 < WIDTH ∧ 0 <= n.2 < HEIGHT ∧ n ∉ snake.

#[global] Instance free_dec n : Decision (free n).
Proof. unfold free. apply _. Defined.

(** The [for d in DIRECTIONS] loop: it appends to the queue and marks
    the appended cell at once. *)
Fixpoint scan (ds : list Direction) (p : Pos) (path : list Direction)
    (queue : list (Pos * list Direction)) (visited : gset Pos) :
    list (Pos * list Direction) * gset Pos :=
  match ds with
  | [] => (queue, visited)
  | d :: ds' =>
      let n := target p d in
      if decide ((n ∉ visited) ∧ free n)
      then scan ds' p path (queue ++ [(n, path ++ [d])]) ({[ n ]} ∪ visited)
      else scan ds' p path queue visited
  end.

(** The [while queue] loop. *)
Fixpoint bfs_loop (fuel : nat) (queue : list (Pos * list Direction))
    (visited : gset Pos) : outcome (list Direction) :=
  match fuel with
  | O => Timeout
  | S fuel' =>
      match queue with
      | [] => Return []
      | (p, path) :: rest =>
          if decide (p = food) then Return path
          else (let '(queue', visited') := scan KEYS p path rest visited in
                bfs_loop fuel' queue' visited')
      end
  end.

(** Every position of the window is enqueued at most once, after the
    head of the snake. *)
Definition bfs_fuel : nat := (Z.to_nat (WIDTH * HEIGHT) + 2)%nat.

(** [self.snake[0]] raises on an empty snake. *)
Definition bfs_search : outcome (list Direction) :=
  match snake with
  | [] => Raise
  | start :: _ => bfs_loop bfs_fuel [(start, [])] ∅
  end.

(** *** Routes over free positions *)

(** Where the moves of [path] lead from [p], provided every position
    entered on the way is free. *)
Fixpoint route (p : Pos) (path : list Direction) : option Pos :=
  match path with
  | [] => Some p
  | d :: path' => if decide (free (target p d)) then route (target p d) path' else None
  end.

Definition step (p q : Pos) : Prop := ∃ d, q = target p d ∧ free q.

Inductive walk (start : Pos) : nat → Pos → Prop :=
  | walk_O : walk start 0 start
  | walk_S n p q : walk start n p → step p q → walk start (S n) q.

(** The positions the loop takes from the queue and scans, in order. *)
Fixpoint expansions (fuel : nat) (queue : list (Pos * list Direction))
    (visited : gset Pos) : list Pos :=
  match fuel with
  | O => []
  | S fuel' =>
      match queue with
      | [] => []
      | (p, path) :: rest =>
          if decide (p = food) then []
          else (let '(queue', visited') := scan KEYS p path rest visited in
                p :: expansions fuel' queue' visited')
      end
  end.

End Bfs.

(** *** [move_snake] and the update of the game loop *)

(** The fields of [SnakeGame] that the game loop updates; [frames] is
    the number of pictures kept in [self.moves]. *)
Record Game : Type := mkGame {
  snake : list Pos;
  food : Pos;
  direction : Direction;
  running : bool;
  paused : bool;
  frames : nat;
  rng : nat
}.

Section Move.
Variables WIDTH HEIGHT GRID_SIZE : Z.
Variable rand : nat → Z.

(** Python's [a // b]; a zero divisor raises. *)
Definition floordiv (a b : Z) : option Z :=
  if decide (b = 0) then None else Some (a `div` b).

(** [0 <= p[0] < WIDTH and 0 <= p[1] < HEIGHT] *)
Definition in_window (p : Pos) : Prop := 0 <= p.1 < WIDTH ∧ 0 <= p.2 < HEIGHT.

#[global] Instance in_window_dec p : Decision (in_window p).
Proof. unfold in_window. apply _. Defined.

(** [(random.randint(0, WIDTH // GRID_SIZE - 1) * GRID_SIZE,
      random.randint(0, HEIGHT // GRID_SIZE - 1) * GRID_SIZE)] *)
Definition random_food (i : nat) : option (Pos * nat) :=
  w ← floordiv WIDTH GRID_SIZE;
  '(x, i1) ← randint rand 0 (w - 1) i;
  h ← floordiv HEIGHT GRID_SIZE;
  '(y, i2) ← randint rand 0 (h - 1) i1;
  Some ((x * GRID_SIZE, y * GRID_SIZE), i2).

(** [move_snake]: the direction is one of the four keys, so of the guard
    only [self.snake] is kept. *)
Definition move_snake (g : Game) : option Game :=
  match snake g with
  | [] => Some g
  | head :: _ =>
      let new_head := target GRID_SIZE head (direction g) in
      if decide (new_head ∈ snake g ∨ ¬ in_window new_head) then
        Some (mkGame (snake g) (food g) (direction g) false (paused g) (frames g) (rng g))
      else if decide (new_head = food g) then
        '(f, i) ← random_food (rng g);
        Some (mkGame (new_head :: snake g) f (direction g) (running g) (paused g)
                (S (frames g)) i)
      else
        Some (mkGame (removelast (new_head :: snake g)) (food g) (direction g)
                (running g) (paused g) (S (frames g)) (rng g))
  end.

(** The update of [run]: [if self.running and not self.paused:
    path = self.bfs_search(); if path: self.direction = path[0];
    self.move_snake()]. *)
Definition tick (g : Game) : outcome Game :=
  if running g && negb (paused g) then
    match bfs_search WIDTH HEIGHT GRID_SIZE (snake g) (food g) with
    | Return path =>
        let g1 := match path with
                  | d :: _ => mkGame (snake g) (food g) d (running g) (paused g)
                                (frames g) (rng g)
                  | [] => g
                  end in
        match move_snake g1 with
        | Some g2 => Return g2
        | None => Raise
        end
    | Raise => Raise
    | Timeout => Timeout
    end
  else Return g.

(** [n] rounds of the game loop. *)
Fixpoint ticks (n : nat) (g : Game) : outcome Game :=
  match n with
  | O => Return g
  | S n' =>
      match tick g with
      | Return g' => ticks n' g'
      | Raise => Raise
      | Timeout => Timeout
      end
  end.

End Move.

End Snake3.

(** ** [wumpus4.py]: A* search ([GameManager.calculate_path]) *)

Module Wumpus4.

(** The search state: the four local variables of [calculate_path]. *)
Record AStar : Type := mkAStar {
  open_set : list (Z * Pos);
  came_from : gmap Pos Pos;
  g_score : gmap Pos Z;
  f_score : gmap Pos Z
}.

Section CalculatePath.
Variable GRID_SIZE : Z.
Variable grid : Grid.
Variables agent_pos gold_pos : Pos.

(** [abs(a[0] - b[0]) + abs(a[1] - b[1])] *)
Definition heuristic (a b : Pos) : Z := Z.abs (a.1 - b.1) + Z.abs (a.2 - b.2).

(** [[(0, 1), (1, 0), (0, -1), (-1, 0)]] *)
Definition DIRS : list (Z * Z) := [(0, 1); (1, 0); (0, -1); (-1, 0)].

(** [self.grid[r][c] not in [OBSTACLE, WUMPUS]] *)
Definition valid_move (e : Entity) : bool := bool_decide (e ∉ [OBSTACLE; WUMPUS]).

(** The loop of [get_neighbors]. *)
Fixpoint scan_neighbors (ds : list (Z * Z)) (row col : Z) (neighbors : list Pos) :
    option (list Pos) :=
  match ds with
  | [] => Some neighbors
  | (dr, dc) :: ds' =>
      let n := (row + dr, col + dc) in
      if decide (in_bounds GRID_SIZE n) then
        e ← grid_at grid n.1 n.2;
        scan_neighbors ds' row col
          (if valid_move e then neighbors ++ [n] else neighbors)
      else scan_neighbors ds' row col neighbors
  end.

Definition get_neighbors (pos : Pos) : option (list Pos) :=
  scan_neighbors DIRS pos.1 pos.2 [].

(** [min(open_set, key=lambda x: x[0])]: the first entry of least key. *)
Fixpoint min_by_key (best : Z * Pos) (l : list (Z * Pos)) : Z * Pos :=
  match l with
  | [] => best
  | x :: l' => min_by_key (if decide (x.1 < best.1) then x else best) l'
  end.

(** [teleport_penalty]: 1 when the neighbour holds a teleport, else 0. *)
Definition teleport_penalty (neighbor : Pos) : option Z :=
  e ← grid_at grid neighbor.1 neighbor.2;
  Some (if decide (e = TELEPORT) then 1 else 0).

(** [tentative_g = g_score[current] + 1 + teleport_penalty] *)
Definition tentative_g (st : AStar) (current neighbor : Pos) : option Z :=
  pen ← teleport_penalty neighbor;
  gc ← g_score st !! current;
  Some (gc + 1 + pen).

(** [neighbor not in g_score or tentative_g < g_score[neighbor]] *)
Definition improves (st : AStar) (neighbor : Pos) (t : Z) : bool :=
  match g_score st !! neighbor with
  | None => true
  | Some g => bool_decide (t < g)
  end.

(** The body of [for neighbor in get_neighbors(current)]. *)
Definition relax_one (current neighbor : Pos) (st : AStar) : option AStar :=
  t ← tentative_g st current neighbor;
  if improves st neighbor t then
    let f := t + heuristic neighbor gold_pos in
    Some {| came_from := <[neighbor := current]> (came_from st);
            g_score := <[neighbor := t]> (g_score st);
            f_score := <[neighbor := f]> (f_score st);
            open_set :=
              if existsb (λ x : Z * Pos, bool_decide (neighbor = x.2)) (open_set st)
              then open_set st
              else open_set st ++ [(f, neighbor)] |}
  else Some st.

Fixpoint relax (neighbors : list Pos) (current : Pos) (st : AStar) : option AStar :=
  match neighbors with
  | [] => Some st
  | neighbor :: rest => st' ← relax_one current neighbor st; relax rest current st'
  end.

(** [while current in came_from: path.append(current); current = came_from[current]] *)
Fixpoint reconstruct (fuel : nat) (cf : gmap Pos Pos) (current : Pos)
    (path : list Pos) : outcome (list Pos) :=
  match fuel with
  | O => Timeout
  | S fuel' =>
      match cf !! current with
      | Some prev => reconstruct fuel' cf prev (path ++ [current])
      | None => Return path
      end
  end.

(** A chain of [came_from] links has at most this many cells. *)
Definition reconstruct_fuel : nat := Z.to_nat (2 * (GRID_SIZE * GRID_SIZE + 1) + 1).

(** The [while open_set] loop. *)
Fixpoint astar_loop (fuel : nat) (st : AStar) : outcome (list Pos) :=
  match fuel with
  | O => Timeout
  | S fuel' =>
      match open_set st with
      | [] => Return []
      | x :: xs =>
          let current := (min_by_key x xs).2 in
          let st1 := {| open_set := filter (λ y : Z * Pos, y.2 ≠ current) (open_set st);
                        came_from := came_from st;
                        g_score := g_score st;
                        f_score := f_score st |} in
          if decide (current = gold_pos) then
            match reconstruct reconstruct_fuel (came_from st) current [] with
            | Return path => Return (reverse (path ++ [agent_pos]))
            | Raise => Raise
            | Timeout => Timeout
            end
          else
            match get_neighbors current with
            | None => Raise
            | Some neighbors =>
                match relax neighbors current st1 with
                | None => Raise
                | Some st2 => astar_loop fuel' st2
                end
            end
      end
  end.

(** Every iteration removes an entry of the open set or lowers a score,
    and scores stay below [2 * (GRID_SIZE * GRID_SIZE + 1)]. *)
Definition astar_fuel : nat :=
  Z.to_nat (2 * (GRID_SIZE * GRID_SIZE + 1) * (2 * (GRID_SIZE * GRID_SIZE + 1) + 1) + 2).

Definition astar_init : AStar :=
  {| open_set := [(0, agent_pos)];
     came_from := ∅;
     g_score := {[ agent_pos := 0 ]};
     f_score := {[ agent_pos := heuristic agent_pos gold_pos ]} |}.

(** [calculate_path]; the positions are set whenever a game runs, so
    of the guard only [not self.grid] is kept. *)
Definition calculate_path : outcome (list Pos) :=
  match grid with
  | [] => Return []
  | _ => astar_loop astar_fuel astar_init
  end.

(** *** Paths A* may take and their score *)

Definition neighbours_of (p : Pos) : list Pos :=
  (λ d : Z * Z, (p.1 + d.1, p.2 + d.2)) <$> DIRS.

(** A cell [get_neighbors] lets through: inside the grid and holding
    neither an obstacle nor a wumpus. *)
Definition enterable (q : Pos) : Prop :=
  in_bounds GRID_SIZE q ∧ valid_move <$> grid_at grid q.1 q.2 = Some true.

#[global] Instance enterable_dec q : Decision (enterable q).
Proof. unfold enterable. apply _. Defined.

Definition step (p q : Pos) : Prop := q ∈ neighbours_of p ∧ enterable q.

#[global] Instance step_dec p q : Decision (step p q).
Proof. unfold step. apply _. Defined.

Fixpoint chain (l : list Pos) : Prop :=
  match l with
  | p :: l' => match l' with q :: _ => step p q ∧ chain l' | [] => True end
  | [] => True
  end.

#[global] Instance chain_dec l : Decision (chain l).
Proof. induction l as [|p [|q l'] IH]; simpl; apply _. Defined.

Definition is_path (start target : Pos) (l : list Pos) : Prop :=
  head l = Some start ∧ last l = Some target ∧ chain l.

#[global] Instance is_path_dec start target l : Decision (is_path start target l).
Proof. unfold is_path. apply _. Defined.

(** Score of entering a cell: 1, plus 1 on a teleport. *)
Definition move_cost (q : Pos) : Z :=
  match grid_at grid q.1 q.2 with
  | Some TELEPORT => 2
  | _ => 1
  end.

(** Score of a path: the moves after its first cell. *)
Definition path_cost (l : list Pos) : Z :=
  foldr (λ q acc, move_cost q + acc) 0 (tail l).

End CalculatePath.

(** *** [GameManager.initialize_teleports] *)

Section Teleports.
Variable GRID_SIZE : Z.
Variable shuffle : list Pos → list Pos.

(** The double loop that collects the teleport cells. *)
Fixpoint collect_teleports (cells : list Pos) (grid : Grid)
    (teleport_positions : list Pos) : option (list Pos) :=
  match cells with
  | [] => Some teleport_positions
  | (r, c) :: rest =>
      e ← grid_at grid r c;
      collect_teleports rest grid
        (if decide (e = TELEPORT) then teleport_positions ++ [(r, c)]
         else teleport_positions)
  end.

(** [for i in range(0, len(teleport_positions), 2)]: two cells are taken
    at a time; a last single cell fails [i + 1 < len(...)] and is left. *)
Fixpoint pair_up (teleport_positions : list Pos) (dest : gmap Pos Pos) :
    gmap Pos Pos :=
  match teleport_positions with
  | a :: b :: rest => pair_up rest (<[b := a]> (<[a := b]> dest))
  | _ => dest
  end.

(** [random.shuffle] is the parameter [shuffle]. *)
Definition initialize_teleports (grid : Grid) : option (gmap Pos Pos) :=
  teleport_positions ← collect_teleports (row_major GRID_SIZE) grid [];
  Some (pair_up (shuffle teleport_positions) ∅).

End Teleports.

(** *** [Level.generate_grid] and [Level.find_empty_position] *)

(** The entries of [DIFFICULTY_SETTINGS]. *)
Record Settings : Type := mkSettings {
  wumpus : nat;
  pits : nat;
  obstacles : nat;
  traps : nat;
  teleports : nat
}.

Definition Easy : Settings := mkSettings 1 5 1 0 0.
Definition Medium : Settings := mkSettings 2 8 3 1 0.
Definition Hard : Settings := mkSettings 3 10 5 2 1.
Definition Expert : Settings := mkSettings 4 12 7 3 2.

(** The local variables of [generate_grid] when it returns. *)
Record Placement : Type := mkPlacement {
  p_grid : Grid;
  p_agent : Pos;
  p_gold : Pos;
  p_wumpus : list Pos;
  p_pits : list Pos;
  p_obstacles : list Pos;
  p_traps : list Pos;
  p_teleports : list Pos;
  p_rng : nat
}.

Section Level.
Variable size : Z.
Variable settings : Settings.
Variable rand : nat → Z.

Definition agent_pos : Pos := (0, 0).
Definition gold_pos : Pos := (size - 1, size - 1).

(** [grid[row][col] == EMPTY and (row, col) not in exclude_positions] *)
Definition is_free (grid : Grid) (exclude_positions : list Pos) (p : Pos) :
    option bool :=
  e ← grid_at grid p.1 p.2;
  Some (bool_decide (e = EMPTY) && bool_decide (p ∉ exclude_positions)).

(** [abs(row - self.agent_pos[0]) > 1 or abs(col - self.agent_pos[1]) > 1] *)
Definition away_from_agent (p : Pos) : bool :=
  bool_decide (Z.abs (p.1 - agent_pos.1) > 1) ||
  bool_decide (Z.abs (p.2 - agent_pos.2) > 1).

(** The [while attempts < 100] loop. *)
Fixpoint random_tries (attempts : nat) (grid : Grid) (exclude_positions : list Pos)
    (i : nat) : option (option Pos * nat) :=
  match attempts with
  | O => Some (None, i)
  | S attempts' =>
      '(row, i1) ← randint rand 0 (size - 1) i;
      '(col, i2) ← randint rand 0 (size - 1) i1;
      ok ← is_free grid exclude_positions (row, col);
      if ok && away_from_agent (row, col) then Some (Some (row, col), i2)
      else random_tries attempts' grid exclude_positions i2
  end.

(** The linear scan for any empty space. *)
Fixpoint first_free (cells : list Pos) (grid : Grid) (exclude_positions : list Pos) :
    option (option Pos) :=
  match cells with
  | [] => Some None
  | p :: rest =>
      ok ← is_free grid exclude_positions p;
      if ok : bool then Some (Some p) else first_free rest grid exclude_positions
  end.

Definition find_empty_position (grid : Grid) (exclude_positions : list Pos) (i : nat) :
    option (option Pos * nat) :=
  '(r, i') ← random_tries 100 grid exclude_positions i;
  match r with
  | Some p => Some (Some p, i')
  | None => r' ← first_free (row_major size) grid exclude_positions; Some (r', i')
  end.

(** One of the five placement loops: [count] rounds for [kind], where
    [placed] are the positions of the kinds placed before. *)
Fixpoint place (count : nat) (kind : Entity) (placed : list Pos)
    (grid : Grid) (positions : list Pos) (i : nat) :
    option (Grid * list Pos * nat) :=
  match count with
  | O => Some (grid, positions, i)
  | S count' =>
      '(pos, i') ← find_empty_position grid
                     ([agent_pos; gold_pos] ++ placed ++ positions) i;
      match pos with
      | Some p =>
          grid' ← grid_set grid p.1 p.2 kind;
          place count' kind placed grid' (positions ++ [p]) i'
      | None => place count' kind placed grid positions i'
      end
  end.

Definition generate_grid (i : nat) : option Placement :=
  g1 ← grid_set (empty_grid size) agent_pos.1 agent_pos.2 AGENT;
  g2 ← grid_set g1 gold_pos.1 gold_pos.2 GOLD;
  '(g3, wumpus_positions, i1) ← place (wumpus settings) WUMPUS [] g2 [] i;
  '(g4, pit_positions, i2) ←
    place (pits settings) PIT wumpus_positions g3 [] i1;
  '(g5, obstacle_positions, i3) ←
    place (obstacles settings) OBSTACLE (wumpus_positions ++ pit_positions) g4 [] i2;
  '(g6, trap_positions, i4) ←
    place (traps settings) TRAP
      (wumpus_positions ++ pit_positions ++ obstacle_positions) g5 [] i3;
  '(g7, teleport_positions, i5) ←
    place (teleports settings) TELEPORT
      (wumpus_positions ++ pit_positions ++ obstacle_positions ++ trap_positions)
      g6 [] i4;
  Some (mkPlacement g7 agent_pos gold_pos wumpus_positions pit_positions
          obstacle_positions trap_positions teleport_positions i5).

End Level.

(** *** The replay driver ([GameManager.update])

    The statistics file, the GIF frames and the drawing are left out;
    [pygame.time.get_ticks()] is the argument [now] of a frame. *)

(** The fields of [Animation] the driver reads. *)
Record Animation : Type := mkAnimation {
  start_pos : Pos;
  end_pos : Pos;
  duration : Z;
  start_time : Z;
  entity_type : Entity
}.

(** The fields of [GameManager] the driver reads or writes.  [running]
    stands for [self.game_state == GAME_RUNNING and not self.paused]. *)
Record Game : Type := mkGame {
  running : bool;
  grid : Grid;
  agent : option Pos;
  path : list Pos;
  animation : option Animation;
  animations : list Animation;
  teleport_destinations : gmap Pos Pos;
  animation_speed : Z;
  score : Z;
  steps_taken : Z;
  gold_collected : Z;
  game_over : bool;
  game_won : bool;
  game_start_time : Z;
  game_time_elapsed : Z;
  challenge_mode : bool;
  challenge_interval : Z;
  challenge_next_change : Z
}.

(** [Animation.update()]: has the duration elapsed? *)
Definition animation_done (now : Z) (a : Animation) : bool :=
  bool_decide (now - start_time a >= duration a).

(** [list.insert(i, x)] for [0 <= i]. *)
Definition py_insert {A : Type} (i : nat) (x : A) (l : list A) : list A :=
  take i l ++ x :: drop i l.

Section Update.

(** [apply_challenge_update], the random change of the grid made in
    "Challenge Mode" followed by a new path; the driver is read for any
    such change. *)
Variable apply_challenge_update : Game → Game.

Definition set_clock (now : Z) (g : Game) : Game :=
  if decide (game_start_time g > 0)
  then mkGame (running g) (grid g) (agent g) (path g) (animation g) (animations g)
         (teleport_destinations g) (animation_speed g) (score g) (steps_taken g)
         (gold_collected g) (game_over g) (game_won g) (game_start_time g)
         (now - game_start_time g)
         (challenge_mode g) (challenge_interval g) (challenge_next_change g)
  else g.

Definition challenge (now : Z) (g : Game) : Game :=
  if challenge_mode g && bool_decide (now > challenge_next_change g)
  then apply_challenge_update
         (mkGame (running g) (grid g) (agent g) (path g) (animation g) (animations g)
            (teleport_destinations g) (animation_speed g) (score g) (steps_taken g)
            (gold_collected g) (game_over g) (game_won g) (game_start_time g)
            (game_time_elapsed g)
            (challenge_mode g) (challenge_interval g) (now + challenge_interval g))
  else g.

(** What the driver does once an [AGENT] animation to [new_pos] is over;
    [rest] are the animations still pending. *)
Definition arrive (now : Z) (new_pos : Pos) (rest : list Animation) (g : Game) :
    option Game :=
  old ← agent g;
  grid1 ← grid_set (grid g) old.1 old.2 TRAIL;
  entity_at_pos ← grid_at grid1 new_pos.1 new_pos.2;
  grid2 ← grid_set grid1 new_pos.1 new_pos.2 AGENT;
  let base anims sc gold won over :=
    mkGame (running g) grid2 (Some new_pos) (path g) None anims
      (teleport_destinations g) (animation_speed g) sc (steps_taken g + 1)
      gold over won (game_start_time g) (game_time_elapsed g)
      (challenge_mode g) (challenge_interval g) (challenge_next_change g) in
  Some
    match entity_at_pos with
    | GOLD =>
        base (py_insert 0 (mkAnimation new_pos new_pos 500 now GOLD) rest)
          (score g + (1000 - steps_taken g * 10)) (gold_collected g + 1)
          true (game_over g)
    | WUMPUS | PIT =>
        base rest (score g) (gold_collected g) (game_won g) true
    | TRAP =>
        base (py_insert 0 (mkAnimation new_pos new_pos 500 now TRAP) rest)
          (score g - 100) (gold_collected g) (game_won g) (game_over g)
    | TELEPORT =>
        match teleport_destinations g !! new_pos with
        | Some dest_pos =>
            base (py_insert 1 (mkAnimation new_pos dest_pos (animation_speed g) now AGENT)
                    (py_insert 0 (mkAnimation new_pos new_pos 500 now TELEPORT) rest))
              (score g) (gold_collected g) (game_won g) (game_over g)
        | None => base rest (score g) (gold_collected g) (game_won g) (game_over g)
        end
    | _ => base rest (score g) (gold_collected g) (game_won g) (game_over g)
    end.

(** The branch [if self.animations:]. *)
Definition process_animations (now : Z) (g : Game) : option Game :=
  let '(current, rest) :=
    match animation g with
    | Some a => (Some a, animations g)
    | None => (head (animations g), tail (animations g))
    end in
  match current with
  | None => Some g
  | Some a =>
      if animation_done now a then
        if decide (entity_type a = AGENT) then arrive now (end_pos a) rest g
        else Some (mkGame (running g) (grid g) (agent g) (path g) None rest
                     (teleport_destinations g) (animation_speed g) (score g)
                     (steps_taken g) (gold_collected g) (game_over g) (game_won g)
                     (game_start_time g) (game_time_elapsed g)
                     (challenge_mode g) (challenge_interval g)
                     (challenge_next_change g))
      else Some (mkGame (running g) (grid g) (agent g) (path g) (Some a) rest
                   (teleport_destinations g) (animation_speed g) (score g)
                   (steps_taken g) (gold_collected g) (game_over g) (game_won g)
                   (game_start_time g) (game_time_elapsed g)
                   (challenge_mode g) (challenge_interval g)
                   (challenge_next_change g))
  end.

(** The branch [elif self.path and not self.game_over and not
    self.game_won:], which queues the next move of the path. *)
Definition next_move (now : Z) (g : Game) : Game :=
  match path g with
  | current_pos :: (next_pos :: _) as path' =>
      if game_over g || game_won g then g
      else mkGame (running g) (grid g) (agent g) path' (animation g)
             (animations g ++ [mkAnimation current_pos next_pos (animation_speed g) now AGENT])
             (teleport_destinations g) (animation_speed g) (score g)
             (steps_taken g) (gold_collected g) (game_over g) (game_won g)
             (game_start_time g) (game_time_elapsed g)
             (challenge_mode g) (challenge_interval g) (challenge_next_change g)
  | _ => g
  end.

(** One call of [update]; [None] is an exception. *)
Definition update (now : Z) (g : Game) : option Game :=
  if running g then
    let g1 := challenge now (set_clock now g) in
    match animations g1 with
    | _ :: _ => process_animations now g1
    | [] => Some (next_move now g1)
    end
  else Some g.

End Update.

(** *** [GameManager.find_empty_position] and [apply_challenge_update] *)

(** The three kinds of change of the challenge mode. *)
Inductive Change : Type := move_wumpus | add_pit | add_trap.

#[global] Instance Change_eq_dec : EqDecision Change.
Proof. solve_decision. Defined.

(** [list.remove(x)]: the first occurrence is removed, a missing one
    raises. *)
Fixpoint py_remove (x : Pos) (l : list Pos) : option (list Pos) :=
  match l with
  | [] => None
  | y :: l' => if decide (x = y) then Some l' else l'' ← py_remove x l'; Some (y :: l'')
  end.

(** The grid, the wumpus list and the path after a challenge update. *)
Record Challenged : Type := mkChallenged {
  ch_grid : Grid;
  ch_wumpus : list Pos;
  ch_path : list Pos;
  ch_rng : nat
}.

Section Challenge.
Variable GRID_SIZE : Z.
Variable rand : nat → Z.

(** [random.choice(seq)], drawing the [i]-th number of the generator;
    an empty sequence raises. *)
Definition choice {A : Type} (seq : list A) (i : nat) : option (A * nat) :=
  x ← seq !! Z.to_nat (rand i `mod` Z.of_nat (length seq)); Some (x, S i).

(** [GameManager.find_empty_position], with [safe_distance = 2]. *)
Fixpoint far_position (attempts : nat) (grid : Grid) (agent_pos : Pos) (i : nat) :
    option (option Pos * nat) :=
  match attempts with
  | O => Some (None, i)
  | S attempts' =>
      '(row, i1) ← randint rand 0 (GRID_SIZE - 1) i;
      '(col, i2) ← randint rand 0 (GRID_SIZE - 1) i1;
      e ← grid_at grid row col;
      if decide (e = EMPTY ∧ Z.abs (row - agent_pos.1) > 2 ∧
                 Z.abs (col - agent_pos.2) > 2)
      then Some (Some (row, col), i2)
      else far_position attempts' grid agent_pos i2
  end.

(** The branches [add_pit] and [add_trap]. *)
Definition add_entity (kind : Entity) (grid : Grid) (agent_pos : Pos) (i : nat) :
    option (Grid * nat) :=
  '(new_pos, i') ← far_position 100 grid agent_pos i;
  match new_pos with
  | Some p => grid' ← grid_set grid p.1 p.2 kind; Some (grid', i')
  | None => Some (grid, i')
  end.

(** The change of the grid made by [apply_challenge_update]. *)
Definition change_grid (grid : Grid) (agent_pos : Pos) (wumpus_positions : list Pos)
    (i : nat) : option (Grid * list Pos * nat) :=
  '(change_type, i1) ← choice [move_wumpus; add_pit; add_trap] i;
  match change_type with
  | move_wumpus =>
      match wumpus_positions with
      | [] => Some (grid, wumpus_positions, i1)
      | _ :: _ =>
          '(wumpus_pos, i2) ← choice wumpus_positions i1;
          grid1 ← grid_set grid wumpus_pos.1 wumpus_pos.2 EMPTY;
          '(new_pos, i3) ← far_position 100 grid1 agent_pos i2;
          match new_pos with
          | Some p =>
              grid2 ← grid_set grid1 p.1 p.2 WUMPUS;
              rest ← py_remove wumpus_pos wumpus_positions;
              Some (grid2, rest ++ [p], i3)
          | None => Some (grid1, wumpus_positions, i3)
          end
      end
  | add_pit =>
      '(grid', i2) ← add_entity PIT grid agent_pos i1;
      Some (grid', wumpus_positions, i2)
  | add_trap =>
      '(grid', i2) ← add_entity TRAP grid agent_pos i1;
      Some (grid', wumpus_positions, i2)
  end.

(** [apply_challenge_update]: the change, then [calculate_path], which
    leaves [self.path] as it is on an empty grid. *)
Definition apply_challenge_update (grid : Grid) (agent_pos gold_pos : Pos)
    (wumpus_positions path : list Pos) (i : nat) : outcome Challenged :=
  match change_grid grid agent_pos wumpus_positions i with
  | Some (grid', wumpus_positions', i') =>
      match grid' with
      | [] => Return (mkChallenged grid' wumpus_positions' path i')
      | _ =>
          match calculate_path GRID_SIZE grid' agent_pos gold_pos with
          | Return path' => Return (mkChallenged grid' wumpus_positions' path' i')
          | Raise => Raise
          | Timeout => Timeout
          end
      end
  | None => Raise
  end.

End Challenge.

(** *** [GameManager.initialize_game] *)

(** What [initialize_game] sets up. *)
Record Start : Type := mkStart {
  s_grid : Grid;
  s_agent : Pos;
  s_gold : Pos;
  s_wumpus : list Pos;
  s_teleports : gmap Pos Pos;
  s_path : list Pos;
  s_rng : nat
}.

Section Initialize.
Variable GRID_SIZE : Z.
Variable shuffle : list Pos → list Pos.
Variable rand : nat → Z.

(** The double loop that empties the cells holding the agent or the gold. *)
Fixpoint clear_positions (cells : list Pos) (grid : Grid) : option Grid :=
  match cells with
  | [] => Some grid
  | (r, c) :: rest =>
      e ← grid_at grid r c;
      grid' ← (if decide (e ∈ [AGENT; GOLD]) then grid_set grid r c EMPTY else Some grid);
      clear_positions rest grid'
  end.

(** The end of [initialize_game]: [initialize_teleports()], then
    [calculate_path()]; [self.path] was reset to the empty list. *)
Definition finish (grid : Grid) (agent gold : Pos) (wumpus_positions : list Pos)
    (i : nat) : outcome Start :=
  match initialize_teleports GRID_SIZE shuffle grid with
  | Some dest =>
      match calculate_path GRID_SIZE grid agent gold with
      | Return path => Return (mkStart grid agent gold wumpus_positions dest path i)
      | Raise => Raise
      | Timeout => Timeout
      end
  | None => Raise
  end.

(** The branch [if self.game_state == GAME_SETUP]; [input] holds the two
    positions typed in, [None] when they do not parse. *)
Definition initialize_setup (settings : Settings) (input : option (Pos * Pos))
    (i : nat) : outcome Start :=
  let default := ((0, 0), (GRID_SIZE - 1, GRID_SIZE - 1)) in
  let positions :=
    match input with
    | Some (a, g) =>
        if decide (in_bounds GRID_SIZE a ∧ in_bounds GRID_SIZE g) then (a, g) else default
    | None => default
    end in
  match
    P ← generate_grid GRID_SIZE settings rand i;
    g1 ← clear_positions (row_major GRID_SIZE) (p_grid P);
    g2 ← grid_set g1 positions.1.1 positions.1.2 AGENT;
    g3 ← grid_set g2 positions.2.1 positions.2.2 GOLD;
    Some (g3, p_wumpus P, p_rng P)
  with
  | Some (g, wumpus_positions, i') => finish g positions.1 positions.2 wumpus_positions i'
  | None => Raise
  end.

(** The branch [elif self.current_level]. *)
Definition initialize_level (settings : Settings) (i : nat) : outcome Start :=
  match generate_grid GRID_SIZE settings rand i with
  | Some P => finish (p_grid P) (p_agent P) (p_gold P) (p_wumpus P) (p_rng P)
  | None => Raise
  end.

End Initialize.

End Wumpus4.

(** ** [wumpusheavy.py]: the map editor ([MapEditorScreen]) *)

Module WumpusHeavy.

(** The fields of the editor; [None] in the teleport map marks a
    teleport that still needs a destination. *)
Record Editor : Type := mkEditor {
  grid : Grid;
  agent_pos : Pos;
  gold_pos : Pos;
  teleport_destinations : gmap Pos (option Pos);
  selected_tile : Entity
}.

(** [initialize_map] *)
Definition initialize_map (GRID_SIZE : Z) (selected : Entity) : option Editor :=
  g1 ← grid_set (empty_grid GRID_SIZE) 0 0 AGENT;
  g2 ← grid_set g1 (GRID_SIZE - 1) (GRID_SIZE - 1) GOLD;
  Some (mkEditor g2 (0, 0) (GRID_SIZE - 1, GRID_SIZE - 1) ∅ selected).

(** [set_selected_tile] *)
Definition set_selected_tile (tile : Entity) (e : Editor) : Editor :=
  mkEditor (grid e) (agent_pos e) (gold_pos e) (teleport_destinations e) tile.

(** The cells in the order of
    [for r in range(len(self.grid)) for c in range(len(self.grid[0]))]. *)
Definition cells (grid : Grid) : list Pos :=
  match grid with
  | [] => []
  | row0 :: _ =>
      r ← seqZ 0 (Z.of_nat (length grid)); c ← seqZ 0 (Z.of_nat (length row0)); [(r, c)]
  end.

(** The first teleport of the grid, as [any(...)] and the search loop
    find it. *)
Fixpoint first_teleport (cs : list Pos) (grid : Grid) : option (option Pos) :=
  match cs with
  | [] => Some None
  | (r, c) :: rest =>
      e ← grid_at grid r c;
      if decide (e = TELEPORT) then Some (Some (r, c)) else first_teleport rest grid
  end.

(** The loops that remove the existing agent or gold. *)
Fixpoint erase (kind : Entity) (cs : list Pos) (grid : Grid) : option Grid :=
  match cs with
  | [] => Some grid
  | (r, c) :: rest =>
      e ← grid_at grid r c;
      grid' ← (if decide (e = kind) then grid_set grid r c EMPTY else Some grid);
      erase kind rest grid'
  end.

(** [handle_tile_click] *)
Definition handle_tile_click (row col : Z) (e : Editor) : option Editor :=
  dest ← (if decide (selected_tile e = TELEPORT) then
            ft ← first_teleport (cells (grid e)) (grid e);
            Some match ft with
                 | None => <[(row, col) := None]> (teleport_destinations e)
                 | Some first =>
                     if decide (first ≠ (row, col))
                     then <[(row, col) := Some first]>
                            (<[first := Some (row, col)]> (teleport_destinations e))
                     else teleport_destinations e
                 end
          else Some (teleport_destinations e));
  '(grid1, agent, gold) ←
    (if decide (selected_tile e = AGENT) then
       g ← erase AGENT (cells (grid e)) (grid e); Some (g, (row, col), gold_pos e)
     else if decide (selected_tile e = GOLD) then
       g ← erase GOLD (cells (grid e)) (grid e); Some (g, agent_pos e, (row, col))
     else Some (grid e, agent_pos e, gold_pos e));
  grid2 ← grid_set grid1 row col (selected_tile e);
  Some (mkEditor grid2 agent gold dest (selected_tile e)).

(** What the user does in the editor. *)
Inductive Event : Type :=
  | Select (tile : Entity)
  | Click (row col : Z).

Fixpoint edit (events : list Event) (e : Editor) : option Editor :=
  match events with
  | [] => Some e
  | Select tile :: rest => edit rest (set_selected_tile tile e)
  | Click row col :: rest => e' ← handle_tile_click row col e; edit rest e'
  end.

End WumpusHeavy.

(** * Properties *)

(** ** Grid access *)

Lemma py_index_in_range {A : Type} (l : list A) (i : Z) :
  0 <= i < Z.of_nat (length l) → ∃ a, py_index l i = Some a ∧ a ∈ l.
Proof.
  intros Hi. unfold py_index. rewrite decide_True by lia.
  destruct (lookup_lt_is_Some_2 l (Z.to_nat i)) as [a Ha]; [lia|].
  exists a. split; [done|]. by eapply list_elem_of_lookup_2.
Qed.

Lemma grid_at_in_bounds n grid p :
  grid_wf n grid → in_bounds n p → is_Some (grid_at grid p.1 p.2).
Proof.
  intros [Hlen Hrows] [Hr Hc]. unfold grid_at.
  destruct (py_index_in_range grid p.1) as (row & -> & Hin); [lia|].
  rewrite Forall_forall in Hrows. specialize (Hrows row Hin). simpl.
  destruct (py_index_in_range row p.2) as (e & -> & _); [lia|]. by eexists.
Qed.

Lemma py_index_nonneg {A : Type} (l : list A) (i : Z) :
  0 <= i → py_index l i = l !! Z.to_nat i.
Proof. intros Hi. unfold py_index. by rewrite decide_True. Qed.

Lemma py_set_in_range {A : Type} (l : list A) (i : Z) (x : A) :
  0 <= i < Z.of_nat (length l) → py_set l i x = Some (<[Z.to_nat i := x]> l).
Proof. intros Hi. unfold py_set. by rewrite !decide_True by lia. Qed.

(** Writing a cell of a well-formed grid: the cell changes, the other
    cells of the grid do not. *)
Lemma grid_set_in_bounds n grid p e :
  grid_wf n grid → in_bounds n p →
  ∃ grid', grid_set grid p.1 p.2 e = Some grid' ∧ grid_wf n grid' ∧
    grid_at grid' p.1 p.2 = Some e ∧
    ∀ q, in_bounds n q → q ≠ p → grid_at grid' q.1 q.2 = grid_at grid q.1 q.2.
Proof.
  intros [Hlen Hrows] [Hr Hc]. unfold grid_set.
  rewrite py_index_nonneg by lia.
  destruct (lookup_lt_is_Some_2 grid (Z.to_nat p.1)) as [row Hrow]; [lia|].
  rewrite Hrow. simpl.
  assert (Z.of_nat (length row) = n) as Hrl.
  { rewrite Forall_forall in Hrows. apply Hrows. by eapply list_elem_of_lookup_2. }
  rewrite py_set_in_range by lia. simpl. rewrite py_set_in_range by lia.
  eexists. split; [done|]. split_and!.
  - split; [by rewrite length_insert|]. apply Forall_insert; [done|].
    by rewrite length_insert.
  - unfold grid_at. rewrite py_index_nonneg by lia.
    rewrite list_lookup_insert_eq by lia. simpl. rewrite py_index_nonneg by lia.
    apply list_lookup_insert_eq. lia.
  - intros q [Hqr Hqc] Hne. unfold grid_at. rewrite !py_index_nonneg by lia.
    destruct (decide (Z.to_nat q.1 = Z.to_nat p.1)) as [Heq|Hneq].
    + rewrite Heq, list_lookup_insert_eq, Hrow by lia. simpl.
      rewrite !py_index_nonneg by lia. apply list_lookup_insert_ne.
      intros Hc'. apply Hne. destruct p, q; simpl in *. f_equal; lia.
    + by rewrite list_lookup_insert_ne.
Qed.

Lemma empty_grid_wf n : 0 <= n → grid_wf n (empty_grid n).
Proof.
  intros Hn. unfold empty_grid. split; [rewrite length_replicate; lia|].
  apply Forall_replicate. rewrite length_replicate. lia.
Qed.

Lemma empty_grid_at n p : in_bounds n p → grid_at (empty_grid n) p.1 p.2 = Some EMPTY.
Proof.
  intros [Hr Hc]. unfold grid_at, empty_grid. rewrite py_index_nonneg by lia.
  rewrite lookup_replicate_2 by lia. simpl. rewrite py_index_nonneg by lia.
  apply lookup_replicate_2. lia.
Qed.

Lemma randint_range rand n i x i' :
  randint rand 0 (n - 1) i = Some (x, i') → 0 <= x < n.
Proof.
  unfold randint. case_decide; [|done]. intros [= <- _].
  pose proof (Z.mod_pos_bound (rand i) (n - 1 - 0 + 1)). lia.
Qed.

Lemma randint_total rand n i :
  1 <= n → ∃ x, randint rand 0 (n - 1) i = Some (x, S i).
Proof. intros Hn. unfold randint. rewrite decide_True by lia. by eexists. Qed.

(** ** Breadth-first search of [wumpus3.py] *)

Section BfsFacts.
Variable GRID_SIZE : Z.
Variable grid : Grid.
Variable goal : Pos.
Variable start : Pos.

#[local] Abbreviation may_enter := (Wumpus3.may_enter GRID_SIZE grid).
#[local] Abbreviation step := (Wumpus3.step GRID_SIZE grid).
#[local] Abbreviation chain := (Wumpus3.chain GRID_SIZE grid).
#[local] Abbreviation is_path := (Wumpus3.is_path GRID_SIZE grid).
#[local] Abbreviation walk := (Wumpus3.walk GRID_SIZE grid start).
#[local] Abbreviation push_neighbours := (Wumpus3.push_neighbours GRID_SIZE grid).
#[local] Abbreviation bfs_loop := (Wumpus3.bfs_loop GRID_SIZE grid goal).

Lemma may_enter_wf n : grid_wf GRID_SIZE grid → is_Some (may_enter n).
Proof.
  intros Hwf. unfold Wumpus3.may_enter. case_decide; [|by eexists].
  destruct (grid_at_in_bounds _ _ _ Hwf H) as [e ->]. by eexists.
Qed.

Lemma may_enter_in_bounds n : may_enter n = Some true → in_bounds GRID_SIZE n.
Proof. unfold Wumpus3.may_enter. by case_decide. Qed.

(** What the [for] loop appends: the enterable neighbours, in order. *)
Definition pushed (ds : list (Z * Z)) (x y : Z) (path : list Pos) :
    list (Pos * list Pos) :=
  (λ n, (n, path ++ [(x, y)])) <$>
    filter (λ n, may_enter n = Some true)
      ((λ d : Z * Z, (x + d.1, y + d.2)) <$> ds).

Lemma push_neighbours_spec ds x y path queue queue' :
  push_neighbours ds x y path queue = Some queue' →
  queue' = queue ++ pushed ds x y path.
Proof.
  revert queue. induction ds as [|[dx dy] ds IH]; intros queue; simpl.
  - intros [= <-]. unfold pushed. simpl. by rewrite app_nil_r.
  - destruct (may_enter (x + dx, y + dy)) as [b|] eqn:Hb; [|done]. simpl.
    intros Hq. apply IH in Hq. subst queue'. unfold pushed. simpl.
    rewrite filter_cons. destruct b.
    + rewrite decide_True by done. simpl. by rewrite <- app_assoc.
    + rewrite decide_False by congruence. done.
Qed.

Lemma push_neighbours_wf ds x y path queue :
  grid_wf GRID_SIZE grid → is_Some (push_neighbours ds x y path queue).
Proof.
  intros Hwf. revert queue. induction ds as [|[dx dy] ds IH]; intros queue; simpl.
  - by eexists.
  - destruct (may_enter_wf (x + dx, y + dy) Hwf) as [b ->]. simpl. apply IH.
Qed.

Lemma pushed_length ds x y path : (length (pushed ds x y path) ≤ length ds)%nat.
Proof.
  unfold pushed. rewrite length_fmap.
  etrans; [apply length_filter|]. by rewrite length_fmap.
Qed.

Lemma elem_of_pushed e x y path :
  e ∈ pushed Wumpus3.DIRS x y path ↔ step (x, y) e.1 ∧ e.2 = path ++ [(x, y)].
Proof.
  unfold pushed, Wumpus3.step, Wumpus3.neighbours_of.
  rewrite list_elem_of_fmap. setoid_rewrite list_elem_of_filter. simpl. split.
  - intros (n & -> & Hn & Hin). simpl. done.
  - intros ((Hin & Hn) & Hp). exists e.1. destruct e as [n p]; simpl in *.
    by subst p.
Qed.

(** Paths as lists and walks by number of moves. *)

Lemma chain_snoc2 l u t : chain (l ++ [u; t]) ↔ chain (l ++ [u]) ∧ step u t.
Proof.
  induction l as [|a l IH]; simpl; [tauto|].
  destruct l as [|b l]; simpl in *; tauto.
Qed.

Lemma is_path_snoc p v w :
  is_path start v (p ++ [v]) → step v w → is_path start w ((p ++ [v]) ++ [w]).
Proof.
  intros (Hh & _ & Hc) Hs. split_and!.
  - destruct p; simpl in *; done.
  - by rewrite last_snoc.
  - rewrite <- app_assoc. simpl. apply chain_snoc2. done.
Qed.

Lemma is_path_walk l t : is_path start t l → walk (length l - 1) t.
Proof.
  revert t. induction l as [|t' l IH] using rev_ind; intros t (Hh & Hl & Hc).
  - done.
  - rewrite last_snoc in Hl. injection Hl as ->.
    destruct l as [|u l _] using rev_ind.
    + simpl in *. injection Hh as ->. constructor.
    + rewrite <- app_assoc in Hc. simpl in Hc. apply chain_snoc2 in Hc as [Hc Hs].
      rewrite !length_app. simpl.
      replace (length l + 1 + 1 - 1)%nat with (S (length (l ++ [u]) - 1))
        by (rewrite length_app; simpl; lia).
      eapply Wumpus3.walk_S; [|exact Hs]. apply IH. split_and!; [|by rewrite last_snoc|done].
      destruct l; simpl in *; done.
Qed.

Lemma walk_is_path n t : walk n t → ∃ l, is_path start t l ∧ length l = S n.
Proof.
  induction 1 as [|n p q _ (l & Hl & Hlen) Hs].
  - exists [start]. by split_and!.
  - destruct l as [|u l _] using rev_ind; [done|].
    assert (u = p) as ->.
    { destruct Hl as (_ & Hl & _). rewrite last_snoc in Hl. congruence. }
    exists ((l ++ [p]) ++ [q]). split; [by apply is_path_snoc|].
    rewrite length_app. simpl. lia.
Qed.

(** The cells that can ever be expanded: the start and the cells of the
    grid. *)
Definition all_cells : list Pos :=
  (λ i, (i `div` GRID_SIZE, i `mod` GRID_SIZE)) <$> seqZ 0 (GRID_SIZE * GRID_SIZE).

Lemma in_bounds_all_cells p : in_bounds GRID_SIZE p → p ∈ all_cells.
Proof.
  intros [Hr Hc]. unfold all_cells. apply list_elem_of_fmap.
  exists (p.1 * GRID_SIZE + p.2). split.
  - destruct p as [r c]; simpl in *. f_equal.
    + rewrite Z.add_comm, Z.div_add by lia. rewrite Z.div_small by lia. lia.
    + rewrite Z.add_comm, Z.mod_add by lia. by rewrite Z.mod_small by lia.
  - apply elem_of_seqZ. nia.
Qed.

Definition todo (vis : gset Pos) : nat :=
  length (filter (λ p, p ∉ vis) (start :: all_cells)).

Lemma todo_bound vis : (todo vis ≤ Z.to_nat (GRID_SIZE * GRID_SIZE) + 1)%nat.
Proof.
  unfold todo. etrans; [apply length_filter|]. simpl.
  unfold all_cells. rewrite length_fmap, length_seqZ. lia.
Qed.

Lemma filter_length_lt {A} (P Q : A → Prop) `{∀ x, Decision (P x)}
    `{∀ x, Decision (Q x)} (l : list A) x :
  (∀ y, P y → Q y) → x ∈ l → Q x → ¬ P x →
  (length (filter P l) < length (filter Q l))%nat.
Proof.
  intros HPQ Hx HQ HP.
  assert (Hle : ∀ l', (length (filter P l') ≤ length (filter Q l'))%nat).
  { induction l' as [|a l' IH]; [done|]. rewrite !filter_cons.
    destruct (decide (P a)), (decide (Q a)); simpl; try lia. naive_solver. }
  induction l as [|a l IH]; [by apply elem_of_nil in Hx|].
  rewrite !filter_cons. apply elem_of_cons in Hx as [<-|Hx].
  - rewrite decide_False, decide_True by done. simpl. specialize (Hle l). lia.
  - specialize (IH Hx). destruct (decide (P a)), (decide (Q a)); simpl; try lia.
    naive_solver.
Qed.

Lemma todo_visit v vis :
  v ∈ start :: all_cells → v ∉ vis → (todo ({[v]} ∪ vis) < todo vis)%nat.
Proof.
  intros Hv Hvis. unfold todo.
  apply (filter_length_lt _ _ _ v); [set_solver|done|done|set_solver].
Qed.

(** *** The loop invariant

    The queue is [q1 ++ q2]: the entries of [q1] carry [k] earlier cells,
    those of [q2] carry [k + 1].  Every cell reached in fewer than [k]
    moves has been expanded, every cell reached in [k] moves is expanded
    or waits in [q1], and what an expanded cell leads to is expanded or
    waits in the queue. *)
Record Inv (k : nat) (q1 q2 : list (Pos * list Pos)) (vis : gset Pos) : Prop := {
  inv_len1 : Forall (λ e, length e.2 = k) q1;
  inv_len2 : Forall (λ e, length e.2 = S k) q2;
  inv_path : Forall (λ e, is_path start e.1 (e.2 ++ [e.1])) (q1 ++ q2);
  inv_goal : goal ∉ vis;
  inv_below : ∀ n w, (n < k)%nat → walk n w → w ∈ vis;
  inv_level : ∀ w, walk k w → w ∈ vis ∨ ∃ p, (w, p) ∈ q1;
  inv_closed : ∀ v w, v ∈ vis → step v w → w ∈ vis ∨ ∃ p, (w, p) ∈ q1 ++ q2;
  inv_cells : Forall (λ e, e.1 ∈ start :: all_cells) (q1 ++ q2)
}.

(** What the search may return. *)
Definition bfs_post (p : list Pos) : Prop :=
  (p = [] ∧ ∀ n, ¬ walk n goal) ∨
  (is_path start goal p ∧ ∀ n, walk n goal → (length p ≤ S n)%nat).

Lemma inv_init : goal ∉ (∅ : gset Pos) → Inv 0 [(start, [])] [] ∅.
Proof.
  intros _. split; simpl.
  - by repeat constructor.
  - constructor.
  - repeat constructor; by simpl.
  - set_solver.
  - lia.
  - intros w Hw. inversion Hw; subst. right. exists []. set_solver.
  - set_solver.
  - repeat constructor.
Qed.

Lemma inv_bump k q2 vis : Inv k [] q2 vis → Inv (S k) q2 [] vis.
Proof.
  intros [H1 H2 Hp Hg Hb Hl Hc Hu]. simpl in *.
  assert (Hb' : ∀ n w, (n < S k)%nat → walk n w → w ∈ vis).
  { intros n w Hn Hw. destruct (decide (n = k)) as [->|].
    - destruct (Hl w Hw) as [|[p Hin]]; [done|]. by apply elem_of_nil in Hin.
    - apply (Hb n); [lia|done]. }
  split; rewrite ?app_nil_r; try done.
  intros w Hw. inversion Hw as [|n p q Hwp Hs]; subst.
  apply (Hc p); [|done]. apply (Hb' k); [lia|done].
Qed.

Lemma inv_empty k vis : Inv k [] [] vis → ∀ n w, walk n w → w ∈ vis.
Proof.
  intros HI. assert (H0 : start ∈ vis).
  { destruct k.
    - destruct (inv_level _ _ _ _ HI start) as [|[p Hp]]; [constructor|done|].
      by apply elem_of_nil in Hp.
    - apply (inv_below _ _ _ _ HI 0%nat); [lia|constructor]. }
  induction 1 as [|n p q _ IH Hs]; [done|].
  destruct (inv_closed _ _ _ _ HI p q IH Hs) as [|[p' Hp']]; [done|].
  by apply elem_of_nil in Hp'.
Qed.

Lemma inv_pop_goal k p q1 q2 vis :
  Inv k ((goal, p) :: q1) q2 vis → bfs_post (p ++ [goal]).
Proof.
  intros HI. right. split.
  - pose proof (inv_path _ _ _ _ HI) as Hp. simpl in Hp.
    apply Forall_cons in Hp as [Hp _]. done.
  - intros n Hw. pose proof (inv_len1 _ _ _ _ HI) as Hl.
    apply Forall_cons in Hl as [Hl _]. simpl in Hl.
    rewrite length_app. simpl. destruct (decide (n < k)%nat); [|lia].
    destruct (inv_goal _ _ _ _ HI). by apply (inv_below _ _ _ _ HI n).
Qed.

Lemma inv_pop_visited k v p q1 q2 vis :
  Inv k ((v, p) :: q1) q2 vis → v ∈ vis → Inv k q1 q2 vis.
Proof.
  intros [H1 H2 Hp Hg Hb Hl Hc Hu] Hv. simpl in *.
  apply Forall_cons in H1 as [_ H1]. apply Forall_cons in Hp as [_ Hp].
  apply Forall_cons in Hu as [_ Hu]. split; try done.
  - intros w Hw. destruct (Hl w Hw) as [|[p' Hin]]; [by left|].
    apply elem_of_cons in Hin as [[= -> ->]|Hin]; [by left|]. right. eauto.
  - intros u w Hu' Hs. destruct (Hc u w Hu' Hs) as [|[p' Hin]]; [by left|].
    apply elem_of_cons in Hin as [[= -> ->]|Hin]; [by left|]. right. eauto.
Qed.

Lemma inv_pop_expand k v p q1 q2 vis :
  Inv k ((v, p) :: q1) q2 vis → v ≠ goal → v ∉ vis →
  Inv k q1 (q2 ++ pushed Wumpus3.DIRS v.1 v.2 p) ({[v]} ∪ vis).
Proof.
  intros [H1 H2 Hp Hg Hb Hl Hc Hu] Hvg Hv. simpl in *.
  apply Forall_cons in H1 as [Hk H1]. apply Forall_cons in Hp as [Hpv Hp].
  apply Forall_cons in Hu as [_ Hu]. simpl in *. destruct v as [x y]. simpl.
  split.
  - done.
  - apply Forall_app. split; [done|]. apply Forall_forall. intros e He.
    apply elem_of_pushed in He as [_ ->]. rewrite length_app. simpl. lia.
  - rewrite app_assoc. apply Forall_app. split; [done|].
    apply Forall_forall. intros e He. apply elem_of_pushed in He as [Hs ->].
    by apply is_path_snoc.
  - set_solver.
  - intros n w Hn Hw. apply elem_of_union_r. eauto.
  - intros w Hw. destruct (Hl w Hw) as [|[p' Hin]]; [left; set_solver|].
    apply elem_of_cons in Hin as [[= -> ->]|Hin]; [left; set_solver|]. right. eauto.
  - intros u w Hu' Hs. rewrite app_assoc.
    apply elem_of_union in Hu' as [Hu'|Hu'].
    + apply elem_of_singleton in Hu' as ->. right. exists (p ++ [(x, y)]).
      apply elem_of_app. right. apply elem_of_pushed. done.
    + destruct (Hc u w Hu' Hs) as [|[p' Hin]]; [left; set_solver|].
      apply elem_of_cons in Hin as [[= -> ->]|Hin]; [left; set_solver|].
      right. exists p'. apply elem_of_app. by left.
  - rewrite app_assoc. apply Forall_app. split; [done|].
    apply Forall_forall. intros e He. apply elem_of_pushed in He as [[_ Hs] _].
    apply elem_of_cons. right. apply in_bounds_all_cells.
    by apply may_enter_in_bounds.
Qed.

(** The loop, run from a state that satisfies the invariant with enough
    fuel, returns what [bfs_post] allows; it raises only on a malformed
    grid and never runs out of fuel. *)
Definition bfs_ok (r : outcome (list Pos)) : Prop :=
  match r with
  | Return p => bfs_post p
  | Raise => ¬ grid_wf GRID_SIZE grid
  | Timeout => False
  end.

Lemma bfs_loop_S fuel x y path rest vis :
  bfs_loop (S fuel) (((x, y), path) :: rest) vis =
  if decide ((x, y) = goal) then Return (path ++ [(x, y)])
  else if decide ((x, y) ∈ vis) then bfs_loop fuel rest vis
  else match push_neighbours Wumpus3.DIRS x y path rest with
       | None => Raise
       | Some queue' => bfs_loop fuel queue' ({[ (x, y) ]} ∪ vis)
       end.
Proof. reflexivity. Qed.

Lemma bfs_loop_head fuel k v p q1 q2 vis :
  (∀ k' q1' q2' vis', Inv k' q1' q2' vis' →
     (4 * todo vis' + length (q1' ++ q2') < fuel)%nat →
     bfs_ok (bfs_loop fuel (q1' ++ q2') vis')) →
  Inv k ((v, p) :: q1) q2 vis →
  (4 * todo vis + length (((v, p) :: q1) ++ q2) < S fuel)%nat →
  bfs_ok (bfs_loop (S fuel) (((v, p) :: q1) ++ q2) vis).
Proof.
  intros IH HI Hfuel. destruct v as [x y].
  rewrite <- app_comm_cons, bfs_loop_S. rewrite <- app_comm_cons in Hfuel.
  simpl length in Hfuel.
  destruct (decide ((x, y) = goal)) as [Hg|Hg].
  { rewrite Hg in HI |- *. by eapply inv_pop_goal. }
  destruct (decide ((x, y) ∈ vis)) as [Hv|Hv].
  { apply (IH k); [by eapply inv_pop_visited|lia]. }
  destruct (push_neighbours Wumpus3.DIRS x y p (q1 ++ q2)) as [q'|] eqn:Hq.
  - apply push_neighbours_spec in Hq. subst q'. rewrite <- app_assoc.
    apply (IH k); [by apply (inv_pop_expand k (x, y))|].
    assert (todo ({[(x, y)]} ∪ vis) < todo vis)%nat.
    { apply todo_visit; [|done]. pose proof (inv_cells _ _ _ _ HI) as Hc.
      simpl in Hc. by apply Forall_cons in Hc as [Hc _]. }
    pose proof (pushed_length Wumpus3.DIRS x y p) as Hlen.
    change (length Wumpus3.DIRS) with 4%nat in Hlen.
    rewrite !length_app in *. lia.
  - simpl. intros Hwf.
    destruct (push_neighbours_wf Wumpus3.DIRS x y p (q1 ++ q2) Hwf) as [? ?].
    congruence.
Qed.

Lemma bfs_loop_inv fuel : ∀ k q1 q2 vis,
  Inv k q1 q2 vis → (4 * todo vis + length (q1 ++ q2) < fuel)%nat →
  bfs_ok (bfs_loop fuel (q1 ++ q2) vis).
Proof.
  induction fuel as [|fuel IH]; intros k q1 q2 vis HI Hfuel; [lia|].
  destruct q1 as [|[v p] q1].
  - destruct q2 as [|[v p] q2].
    + simpl. left. split; [done|]. intros n Hw.
      apply (inv_goal _ _ _ _ HI). by eapply inv_empty.
    + apply inv_bump in HI. simpl app at 1.
      rewrite <- (app_nil_r ((v, p) :: q2)).
      apply (bfs_loop_head fuel (S k)); [done|done|].
      rewrite app_nil_r. simpl in *. lia.
  - by apply (bfs_loop_head fuel k).
Qed.

Lemma bfs_search_ok : bfs_ok (Wumpus3.bfs_search GRID_SIZE grid goal start).
Proof.
  unfold Wumpus3.bfs_search.
  change [(start, @nil Pos)] with ([(start, @nil Pos)] ++ []).
  apply (bfs_loop_inv _ 0%nat); [apply inv_init; set_solver|].
  pose proof (todo_bound ∅). pose proof (Z.square_nonneg GRID_SIZE).
  unfold Wumpus3.bfs_fuel. simpl length. lia.
Qed.

(** No cell is expanded twice. *)
Lemma expansions_fresh fuel : ∀ q vis,
  NoDup (Wumpus3.expansions GRID_SIZE grid goal fuel q vis) ∧
  ∀ x, x ∈ Wumpus3.expansions GRID_SIZE grid goal fuel q vis → x ∉ vis.
Proof.
  induction fuel as [|fuel IH]; intros q vis; cbn [Wumpus3.expansions].
  { split; [constructor|]. intros x Hx. by apply elem_of_nil in Hx. }
  destruct q as [|[[x y] path] rest].
  { split; [constructor|]. intros x Hx. by apply elem_of_nil in Hx. }
  destruct (decide ((x, y) = goal)).
  { split; [constructor|]. intros z Hz. by apply elem_of_nil in Hz. }
  destruct (decide ((x, y) ∈ vis)) as [Hv|Hv]; [apply IH|].
  destruct (push_neighbours Wumpus3.DIRS x y path rest) as [q'|].
  - destruct (IH q' ({[(x, y)]} ∪ vis)) as [Hnd Hfresh]. split.
    + constructor; [|done]. intros Hin. apply Hfresh in Hin. set_solver.
    + intros z [->|Hz]%elem_of_cons; [done|]. apply Hfresh in Hz. set_solver.
  - split; [apply NoDup_singleton|]. intros z Hz. apply list_elem_of_singleton in Hz.
    by subst z.
Qed.

(** A path leads to its own start or into a cell the guard lets through. *)
Lemma is_path_target l t :
  is_path start t l → t = start ∨ may_enter t = Some true.
Proof.
  intros Hp. apply is_path_walk in Hp. inversion Hp as [|n p q _ [_ Hs]]; subst; auto.
Qed.

End BfsFacts.

(** ** Breadth-first search of [snake3.py] *)

Section SnakeFacts.
Variables WIDTH HEIGHT GRID_SIZE : Z.
Variable snake : list Pos.
Variable food : Pos.
Variable start : Pos.
Hypothesis start_in_snake : start ∈ snake.

#[local] Abbreviation target := (Snake3.target GRID_SIZE).
#[local] Abbreviation free := (Snake3.free WIDTH HEIGHT snake).
#[local] Abbreviation scan := (Snake3.scan WIDTH HEIGHT GRID_SIZE snake).
#[local] Abbreviation sroute := (Snake3.route WIDTH HEIGHT GRID_SIZE snake).
#[local] Abbreviation sstep := (Snake3.step WIDTH HEIGHT GRID_SIZE snake).
#[local] Abbreviation swalk := (Snake3.walk WIDTH HEIGHT GRID_SIZE snake start).
#[local] Abbreviation sloop := (Snake3.bfs_loop WIDTH HEIGHT GRID_SIZE snake food).

Lemma route_snoc p path d :
  sroute p (path ++ [d]) =
  v ← sroute p path; if decide (free (target v d)) then Some (target v d) else None.
Proof.
  revert p. induction path as [|d' path IH]; intros p; simpl.
  - by case_decide.
  - case_decide; [apply IH|done].
Qed.

Lemma route_walk path v : sroute start path = Some v → swalk (length path) v.
Proof.
  revert v. induction path as [|d path IH] using rev_ind; intros v.
  - intros [= <-]. constructor.
  - rewrite route_snoc, length_app. simpl.
    destruct (sroute start path) as [u|] eqn:Hu; [|done]. simpl.
    case_decide as Hf; [|done]. intros [= <-].
    replace (length path + 1)%nat with (S (length path)) by lia.
    eapply Snake3.walk_S; [by apply IH|]. by exists d.
Qed.

Lemma walk_route n v : swalk n v → ∃ path, sroute start path = Some v ∧ length path = n.
Proof.
  induction 1 as [|n p q _ (path & Hp & Hlen) (d & -> & Hf)].
  - by exists [].
  - exists (path ++ [d]). rewrite route_snoc, Hp, length_app. simpl.
    rewrite decide_True by done. split; [done|lia].
Qed.

(** What one pass of the [for] loop does. *)
Lemma scan_spec ds p path queue vis queue' vis' :
  scan ds p path queue vis = (queue', vis') →
  ∃ new, queue' = queue ++ new ∧ vis' = list_to_set new.*1 ∪ vis ∧
    NoDup new.*1 ∧
    Forall (λ e, (e.1 ∉ vis) ∧ free e.1 ∧ ∃ d, d ∈ ds ∧ e = (target p d, path ++ [d])) new ∧
    (∀ d, d ∈ ds → free (target p d) → target p d ∈ vis').
Proof.
  revert queue vis. induction ds as [|d ds IH]; intros queue vis; simpl.
  - intros [= <- <-]. exists []. rewrite app_nil_r. split_and!; try done.
    + set_solver.
    + constructor.
    + intros d Hd. by apply elem_of_nil in Hd.
  - case_decide as Hd.
    + intros Hs. apply IH in Hs as (new & -> & -> & Hnd & Hall & Hcov).
      exists ((target p d, path ++ [d]) :: new). rewrite <- app_assoc. simpl.
      rewrite Forall_forall in Hall. split_and!.
      * done.
      * set_solver.
      * constructor; [|done]. intros Hin. apply list_elem_of_fmap in Hin as (e & He & Hin).
        destruct (Hall e Hin) as (Hnv & _). apply Hnv. rewrite <- He. set_solver.
      * constructor; [|].
        { simpl. split_and!; [tauto|tauto|]. exists d. split; [left|done]. }
        apply Forall_forall. intros e He. destruct (Hall e He) as (Hnv & Hf & d' & Hd' & ->).
        split_and!; [set_solver|done|]. exists d'. split; [by right|done].
      * intros d' Hd' Hf. apply elem_of_cons in Hd' as [->|Hd']; [|by apply Hcov].
        set_solver.
    + intros Hs. apply IH in Hs as (new & -> & -> & Hnd & Hall & Hcov).
      exists new. split_and!; try done.
      * eapply Forall_impl; [exact Hall|]. intros e (? & ? & d' & ? & ?).
        split_and!; [done|done|]. exists d'. split; [by right|done].
      * intros d' Hd' Hf. apply elem_of_cons in Hd' as [->|Hd']; [|by apply Hcov].
        destruct (decide (target p d ∈ vis)); [set_solver|]. tauto.
Qed.

(** *** The loop invariant

    A position is [seen] once it has been enqueued, and [closed] once it
    has also left the queue. *)
Definition seen (vis : gset Pos) : gset Pos := {[ start ]} ∪ vis.

Definition closed (q : list (Pos * list Snake3.Direction)) (vis : gset Pos)
    (w : Pos) : Prop :=
  w ∈ seen vis ∧ w ∉ q.*1.

Record SInv (k : nat) (q1 q2 : list (Pos * list Snake3.Direction))
    (vis : gset Pos) : Prop := {
  sinv_len1 : Forall (λ e, length e.2 = k) q1;
  sinv_len2 : Forall (λ e, length e.2 = S k) q2;
  sinv_route : Forall (λ e, sroute start e.2 = Some e.1) (q1 ++ q2);
  sinv_nodup : NoDup (q1 ++ q2).*1;
  sinv_seen : Forall (λ e, e.1 ∈ seen vis) (q1 ++ q2);
  sinv_food : food ∈ seen vis → food ∈ (q1 ++ q2).*1;
  sinv_below : ∀ n w, (n < k)%nat → swalk n w → closed (q1 ++ q2) vis w;
  sinv_level : ∀ w, swalk k w → closed (q1 ++ q2) vis w ∨ ∃ p, (w, p) ∈ q1;
  sinv_closed : ∀ v w, closed (q1 ++ q2) vis v → sstep v w → w ∈ seen vis
}.

Definition snake_post (p : list Snake3.Direction) : Prop :=
  (sroute start p = Some food ∧ ∀ n, swalk n food → (length p ≤ n)%nat) ∨
  (p = [] ∧ ∀ n, ¬ swalk n food).

Lemma sinv_init : SInv 0 [(start, [])] [] ∅.
Proof.
  split; simpl.
  - by repeat constructor.
  - constructor.
  - by repeat constructor.
  - repeat constructor. set_solver.
  - repeat constructor. unfold seen. set_solver.
  - unfold seen. set_solver.
  - lia.
  - intros w Hw. inversion Hw; subst. right. exists []. set_solver.
  - unfold closed, seen. simpl. set_solver.
Qed.

Lemma sinv_bump k q2 vis : SInv k [] q2 vis → SInv (S k) q2 [] vis.
Proof.
  intros [H1 H2 Hr Hnd Hs Hf Hb Hl Hc]. simpl in *.
  assert (Hb' : ∀ n w, (n < S k)%nat → swalk n w → closed q2 vis w).
  { intros n w Hn Hw. destruct (decide (n = k)) as [->|].
    - destruct (Hl w Hw) as [|[p Hin]]; [done|]. by apply elem_of_nil in Hin.
    - apply (Hb n); [lia|done]. }
  split; rewrite ?app_nil_r; try done.
  intros w Hw. inversion Hw as [|n p q Hwp Hst]; subst.
  assert (w ∈ seen vis) as Hw' by (apply (Hc p); [apply (Hb' k); [lia|done]|done]).
  destruct (decide (w ∈ q2.*1)) as [Hin|Hin].
  - right. apply list_elem_of_fmap in Hin as ([w' p'] & -> & Hin). eauto.
  - by left.
Qed.

Lemma sinv_empty k vis : SInv k [] [] vis → ∀ n, ¬ swalk n food.
Proof.
  intros HI. assert (Hall : ∀ n w, swalk n w → w ∈ seen vis).
  { induction 1 as [|n p q _ IH Hs]; [unfold seen; set_solver|].
    apply (sinv_closed _ _ _ _ HI p); [|done]. split; [done|]. simpl. set_solver. }
  intros n Hw. apply Hall in Hw. apply (sinv_food _ _ _ _ HI) in Hw.
  simpl in Hw. by apply elem_of_nil in Hw.
Qed.

Lemma sinv_pop_food k p q1 q2 vis : SInv k ((food, p) :: q1) q2 vis → snake_post p.
Proof.
  intros HI. left. split.
  - pose proof (sinv_route _ _ _ _ HI) as Hr. simpl in Hr.
    by apply Forall_cons in Hr as [Hr _].
  - intros n Hw. pose proof (sinv_len1 _ _ _ _ HI) as Hl.
    apply Forall_cons in Hl as [Hl _]. simpl in Hl.
    destruct (decide (n < k)%nat) as [Hn|]; [|lia].
    destruct (sinv_below _ _ _ _ HI n food Hn Hw) as [_ Hnin].
    destruct Hnin. simpl. left.
Qed.

Lemma sinv_pop_scan k v p q1 q2 vis new :
  SInv k ((v, p) :: q1) q2 vis → v ≠ food →
  NoDup new.*1 →
  Forall (λ e, (e.1 ∉ vis) ∧ free e.1 ∧
               ∃ d, d ∈ Snake3.KEYS ∧ e = (target v d, p ++ [d])) new →
  (∀ d, d ∈ Snake3.KEYS → free (target v d) →
        target v d ∈ (list_to_set new.*1 ∪ vis : gset Pos)) →
  SInv k q1 (q2 ++ new) (list_to_set new.*1 ∪ vis).
Proof.
  intros [H1 H2 Hr Hnd Hs Hf Hb Hl Hc] Hvf Hndn Hnew Hcov. simpl in *.
  apply Forall_cons in H1 as [Hk H1]. apply Forall_cons in Hr as [Hrv Hr].
  apply Forall_cons in Hs as [Hsv Hs]. apply NoDup_cons in Hnd as [Hvq Hnd].
  simpl in *. rewrite Forall_forall in Hnew.
  assert (Hfresh : ∀ x, x ∈ new.*1 → x ∉ seen vis).
  { intros x Hx. apply list_elem_of_fmap in Hx as (e & -> & He).
    destruct (Hnew e He) as (Hnv & (_ & _ & Hns) & _). unfold seen.
    intros [Hst%elem_of_singleton|?]%elem_of_union; [|done].
    apply Hns. by rewrite Hst. }
  assert (Hold : ∀ x, x ∈ (q1 ++ q2).*1 → x ∈ seen vis).
  { intros x Hx. apply list_elem_of_fmap in Hx as (e & -> & He).
    rewrite Forall_forall in Hs. by apply Hs. }
  assert (Hmono : ∀ w, closed ((v, p) :: q1 ++ q2) vis w →
            closed (q1 ++ q2 ++ new) (list_to_set new.*1 ∪ vis) w).
  { intros w [Hw Hnq]. split; [unfold seen in *; set_solver|].
    rewrite app_assoc, fmap_app. intros [Hin|Hin]%elem_of_app.
    - apply Hnq. simpl. by right.
    - by apply (Hfresh w). }
  assert (Hv : closed (q1 ++ q2 ++ new) (list_to_set new.*1 ∪ vis) v).
  { split; [unfold seen in *; set_solver|].
    rewrite app_assoc, fmap_app. intros [Hin|Hin]%elem_of_app; [done|].
    by apply (Hfresh v). }
  split.
  - done.
  - apply Forall_app. split; [done|]. apply Forall_forall. intros e He.
    destruct (Hnew e He) as (_ & _ & d & _ & ->). simpl. rewrite length_app. simpl. lia.
  - rewrite app_assoc. apply Forall_app. split; [done|]. apply Forall_forall.
    intros e He. destruct (Hnew e He) as (_ & Hfr & d & _ & ->). simpl in *.
    rewrite route_snoc, Hrv. simpl. by rewrite decide_True.
  - rewrite app_assoc, fmap_app. apply NoDup_app. split_and!; [done| |done].
    intros x Hx Hx'. by apply (Hfresh x Hx'), Hold.
  - rewrite app_assoc. apply Forall_app. split.
    + eapply Forall_impl; [exact Hs|]. intros e He. unfold seen in *. set_solver.
    + apply Forall_forall. intros e He. unfold seen.
      apply elem_of_union_r, elem_of_union_l, elem_of_list_to_set.
      apply list_elem_of_fmap. by exists e.
  - rewrite app_assoc, fmap_app. intros Hfs. apply elem_of_app.
    destruct (decide (food ∈ new.*1)) as [|Hnn]; [by right|left].
    assert (food ∈ seen vis) as Hfs'.
    { unfold seen in *. set_solver. }
    apply Hf in Hfs'. apply elem_of_cons in Hfs' as [?|?]; [congruence|done].
  - intros n w Hn Hw. apply Hmono. by apply (Hb n).
  - intros w Hw. destruct (Hl w Hw) as [Hcl|[p' Hin]]; [left; by apply Hmono|].
    apply elem_of_cons in Hin as [[= -> ->]|Hin]; [by left|]. right. eauto.
  - intros u w Hu Hst. destruct (decide (u = v)) as [->|Hne].
    + destruct Hst as (d & -> & Hfr). unfold seen. apply elem_of_union_r.
      apply Hcov; [|done]. destruct d; unfold Snake3.KEYS; set_solver.
    + destruct Hu as [Hu Hnq]. rewrite app_assoc, fmap_app in Hnq.
      assert (u ∈ seen vis) as Hu'.
      { unfold seen in *. apply elem_of_union in Hu as [Hu|Hu]; [set_solver|].
        apply elem_of_union in Hu as [Hu|Hu]; [|set_solver].
        apply elem_of_list_to_set in Hu. destruct Hnq. apply elem_of_app. by right. }
      assert (w ∈ seen vis) as Hw.
      { apply (Hc u); [|done]. split; [done|]. simpl.
        intros [?|?]%elem_of_cons; [done|]. apply Hnq. apply elem_of_app. by left. }
      unfold seen in *. set_solver.
Qed.

(** Termination measure: the positions of the window not yet enqueued,
    plus the queue. *)
Definition window : list Pos :=
  (λ i, (i `div` HEIGHT, i `mod` HEIGHT)) <$> seqZ 0 (WIDTH * HEIGHT).

Lemma free_window p : free p → p ∈ window.
Proof.
  intros (Hx & Hy & _). unfold window. apply list_elem_of_fmap.
  exists (p.1 * HEIGHT + p.2). split.
  - destruct p as [x y]; simpl in *. f_equal.
    + rewrite Z.add_comm, Z.div_add by lia. rewrite Z.div_small by lia. lia.
    + rewrite Z.add_comm, Z.mod_add by lia. by rewrite Z.mod_small by lia.
  - apply elem_of_seqZ. nia.
Qed.

Definition stodo (vis : gset Pos) : nat := length (filter (λ p, p ∉ vis) window).

Lemma stodo_bound vis : (stodo vis ≤ Z.to_nat (WIDTH * HEIGHT))%nat.
Proof.
  unfold stodo. etrans; [apply length_filter|].
  unfold window. rewrite length_fmap, length_seqZ. lia.
Qed.

Lemma stodo_scan (new : list (Pos * list Snake3.Direction)) vis :
  NoDup new.*1 → Forall (λ e, (e.1 ∉ vis) ∧ free e.1) new →
  (stodo (list_to_set new.*1 ∪ vis) + length new ≤ stodo vis)%nat.
Proof.
  induction new as [|e new IH]; intros Hnd Hall; csimpl.
  - replace (∅ ∪ vis) with vis by set_solver. lia.
  - apply NoDup_cons in Hnd as [Hne Hnd]. apply Forall_cons in Hall as [[Hev Hef] Hall].
    specialize (IH Hnd Hall).
    assert (stodo ({[e.1]} ∪ (list_to_set new.*1 ∪ vis)) <
            stodo (list_to_set new.*1 ∪ vis))%nat.
    { unfold stodo. apply (filter_length_lt _ _ _ e.1).
      - set_solver.
      - by apply free_window.
      - rewrite elem_of_union, elem_of_list_to_set. tauto.
      - set_solver. }
    replace ({[e.1]} ∪ list_to_set new.*1 ∪ vis)
      with ({[e.1]} ∪ (list_to_set new.*1 ∪ vis) : gset Pos) by set_solver.
    lia.
Qed.

Definition snake_ok (r : outcome (list Snake3.Direction)) : Prop :=
  match r with
  | Return p => snake_post p
  | _ => False
  end.

Lemma sloop_S fuel v path rest vis :
  sloop (S fuel) ((v, path) :: rest) vis =
  if decide (v = food) then Return path
  else sloop fuel (scan Snake3.KEYS v path rest vis).1
                  (scan Snake3.KEYS v path rest vis).2.
Proof.
  cbn [Snake3.bfs_loop]. case_decide; [done|].
  by destruct (scan Snake3.KEYS v path rest vis).
Qed.

Lemma sloop_head fuel k v p q1 q2 vis :
  (∀ k' q1' q2' vis', SInv k' q1' q2' vis' →
     (stodo vis' + length (q1' ++ q2') < fuel)%nat →
     snake_ok (sloop fuel (q1' ++ q2') vis')) →
  SInv k ((v, p) :: q1) q2 vis →
  (stodo vis + length (((v, p) :: q1) ++ q2) < S fuel)%nat →
  snake_ok (sloop (S fuel) (((v, p) :: q1) ++ q2) vis).
Proof.
  intros IH HI Hfuel. rewrite <- app_comm_cons, sloop_S.
  rewrite <- app_comm_cons in Hfuel. simpl length in Hfuel.
  destruct (decide (v = food)) as [Hg|Hg].
  { rewrite Hg in HI. by eapply sinv_pop_food. }
  destruct (scan Snake3.KEYS v p (q1 ++ q2) vis) as [q' vis'] eqn:Hs.
  apply scan_spec in Hs as (new & -> & -> & Hnd & Hall & Hcov). simpl.
  rewrite <- app_assoc. apply (IH k).
  - by apply (sinv_pop_scan k v p).
  - assert (stodo (list_to_set new.*1 ∪ vis) + length new ≤ stodo vis)%nat.
    { apply stodo_scan; [done|]. eapply Forall_impl; [exact Hall|]. naive_solver. }
    rewrite !length_app in *. lia.
Qed.

Lemma sloop_inv fuel : ∀ k q1 q2 vis,
  SInv k q1 q2 vis → (stodo vis + length (q1 ++ q2) < fuel)%nat →
  snake_ok (sloop fuel (q1 ++ q2) vis).
Proof.
  induction fuel as [|fuel IH]; intros k q1 q2 vis HI Hfuel; [lia|].
  destruct q1 as [|[v p] q1].
  - destruct q2 as [|[v p] q2].
    + simpl. right. split; [done|]. by eapply sinv_empty.
    + apply sinv_bump in HI. simpl app at 1.
      rewrite <- (app_nil_r ((v, p) :: q2)).
      apply (sloop_head fuel (S k)); [done|done|].
      rewrite app_nil_r. simpl in *. lia.
  - by apply (sloop_head fuel k).
Qed.

Lemma snake_loop_ok :
  snake_ok (sloop (Snake3.bfs_fuel WIDTH HEIGHT) [(start, [])] ∅).
Proof.
  change [(start, @nil Snake3.Direction)] with ([(start, @nil Snake3.Direction)] ++ []).
  apply (sloop_inv _ 0%nat); [apply sinv_init|].
  pose proof (stodo_bound ∅). unfold Snake3.bfs_fuel. simpl length. lia.
Qed.

(** No position is scanned twice. *)
Lemma snake_expansions_fresh fuel : ∀ q vis,
  NoDup q.*1 → (∀ x, x ∈ q.*1 → x ∈ seen vis) →
  NoDup (Snake3.expansions WIDTH HEIGHT GRID_SIZE snake food fuel q vis) ∧
  ∀ x, x ∈ Snake3.expansions WIDTH HEIGHT GRID_SIZE snake food fuel q vis →
       x ∈ q.*1 ∨ x ∉ seen vis.
Proof.
  induction fuel as [|fuel IH]; intros q vis Hnd Hseen; cbn [Snake3.expansions].
  { split; [constructor|]. intros x Hx. by apply elem_of_nil in Hx. }
  destruct q as [|[v path] rest].
  { split; [constructor|]. intros x Hx. by apply elem_of_nil in Hx. }
  destruct (decide (v = food)).
  { split; [constructor|]. intros z Hz. by apply elem_of_nil in Hz. }
  destruct (scan Snake3.KEYS v path rest vis) as [q' vis'] eqn:Hs.
  apply scan_spec in Hs as (new & -> & -> & Hndn & Hall & _).
  csimpl in Hnd. apply NoDup_cons in Hnd as [Hv Hnd]. rewrite Forall_forall in Hall.
  assert (Hfresh : ∀ x, x ∈ new.*1 → x ∉ seen vis).
  { intros x Hx. apply list_elem_of_fmap in Hx as (e & -> & He).
    destruct (Hall e He) as (Hnv & (_ & _ & Hns) & _). unfold seen.
    intros [Hst%elem_of_singleton|?]%elem_of_union; [|done].
    apply Hns. by rewrite Hst. }
  assert (Hvs : v ∈ seen vis) by (apply Hseen; csimpl; left).
  destruct (IH (rest ++ new) (list_to_set new.*1 ∪ vis)) as [Hnd' Hin'].
  { rewrite fmap_app. apply NoDup_app. split_and!; [done| |done].
    intros x Hx Hx'. apply (Hfresh x Hx'). apply Hseen. csimpl. by right. }
  { intros x. rewrite fmap_app. intros [Hx|Hx]%elem_of_app.
    - assert (x ∈ seen vis) by (apply Hseen; csimpl; by right).
      unfold seen in *. set_solver.
    - unfold seen. apply elem_of_union_r, elem_of_union_l. by apply elem_of_list_to_set. }
  split.
  - constructor; [|done]. intros Hin. apply Hin' in Hin as [Hin|Hin].
    + rewrite fmap_app in Hin. apply elem_of_app in Hin as [?|Hin]; [done|].
      by apply (Hfresh v).
    + apply Hin. unfold seen in *. set_solver.
  - intros x [->|Hx]%elem_of_cons; [left; csimpl; left|].
    apply Hin' in Hx as [Hx|Hx].
    + rewrite fmap_app in Hx. apply elem_of_app in Hx as [?|Hx].
      * left. csimpl. by right.
      * right. by apply Hfresh.
    + right. intros Hx'. apply Hx. unfold seen in *. set_solver.
Qed.

Lemma route_target path v : sroute start path = Some v → v = start ∨ free v.
Proof.
  intros Hr. apply route_walk in Hr.
  inversion Hr as [|n p q _ (d & _ & Hf)]; subst; auto.
Qed.

End SnakeFacts.

(** ** The A* search of [wumpus4.py] *)

Section AStarFacts.
Variable GRID_SIZE : Z.
Variable grid : Grid.
Variables agent_pos gold_pos : Pos.

#[local] Abbreviation enterable := (Wumpus4.enterable GRID_SIZE grid).
#[local] Abbreviation astep := (Wumpus4.step GRID_SIZE grid).
#[local] Abbreviation scan_neighbors := (Wumpus4.scan_neighbors GRID_SIZE grid).
#[local] Abbreviation get_neighbors := (Wumpus4.get_neighbors GRID_SIZE grid).
#[local] Abbreviation move_cost := (Wumpus4.move_cost grid).
#[local] Abbreviation tentative_g := (Wumpus4.tentative_g grid).
#[local] Abbreviation relax_one := (Wumpus4.relax_one grid gold_pos).
#[local] Abbreviation relax := (Wumpus4.relax grid gold_pos).

Lemma scan_neighbors_spec ds row col acc nbrs :
  scan_neighbors ds row col acc = Some nbrs →
  nbrs = acc ++ filter enterable ((λ d : Z * Z, (row + d.1, col + d.2)) <$> ds).
Proof.
  revert acc. induction ds as [|[dr dc] ds IH]; intros acc; simpl.
  - intros [= <-]. by rewrite app_nil_r.
  - rewrite filter_cons. case_decide as Hb.
    + destruct (grid_at grid (row + dr) (col + dc)) as [e|] eqn:He; [|done]. simpl.
      intros Hs. apply IH in Hs as ->. destruct (Wumpus4.valid_move e) eqn:Hv.
      * rewrite decide_True; [by rewrite <- app_assoc|].
        split; [done|]. simpl. by rewrite He, <- Hv.
      * rewrite decide_False; [done|]. intros [_ Hen]. simpl in Hen.
        rewrite He in Hen. simpl in Hen. congruence.
    + intros Hs. apply IH in Hs as ->. rewrite decide_False; [done|]. by intros [? _].
Qed.

Lemma get_neighbors_spec pos nbrs :
  get_neighbors pos = Some nbrs →
  nbrs = filter enterable (Wumpus4.neighbours_of pos).
Proof. intros Hs. by apply scan_neighbors_spec in Hs. Qed.

Lemma elem_of_get_neighbors pos nbrs q :
  get_neighbors pos = Some nbrs → q ∈ nbrs ↔ astep pos q.
Proof.
  intros ->%get_neighbors_spec. unfold Wumpus4.step. by rewrite list_elem_of_filter, (comm and).
Qed.

Lemma get_neighbors_wf pos :
  grid_wf GRID_SIZE grid → is_Some (get_neighbors pos).
Proof.
  intros Hwf. unfold Wumpus4.get_neighbors. generalize (@nil Pos).
  induction Wumpus4.DIRS as [|[dr dc] ds IH]; intros acc; simpl; [by eexists|].
  case_decide as Hb; [|apply IH].
  destruct (grid_at_in_bounds _ _ _ Hwf Hb) as [e He]. simpl in He. rewrite He.
  simpl. apply IH.
Qed.

Lemma get_neighbors_length pos nbrs :
  get_neighbors pos = Some nbrs → (length nbrs ≤ 4)%nat.
Proof.
  intros ->%get_neighbors_spec. etrans; [apply length_filter|].
  unfold Wumpus4.neighbours_of. by rewrite length_fmap.
Qed.

(** The score of a move, as [tentative_g] adds it. *)
Lemma tentative_g_cost st current neighbor e gc :
  grid_at grid neighbor.1 neighbor.2 = Some e →
  Wumpus4.g_score st !! current = Some gc →
  tentative_g st current neighbor = Some (gc + move_cost neighbor) ∧
  move_cost neighbor = (if decide (e = TELEPORT) then 2 else 1).
Proof.
  intros He Hg. unfold Wumpus4.tentative_g, Wumpus4.teleport_penalty, Wumpus4.move_cost.
  rewrite He, Hg. simpl. case_decide as Ht.
  - subst e. split; [f_equal; lia|done].
  - split; [f_equal; destruct e; try done; lia|by destruct e].
Qed.

End AStarFacts.

(** ** The teleport pairing *)

Lemma elem_of_row_major n p : p ∈ row_major n ↔ in_bounds n p.
Proof.
  unfold row_major, in_bounds. rewrite list_elem_of_bind. split.
  - intros (r & Hp & Hr). apply list_elem_of_bind in Hp as (c & Hp & Hc).
    apply list_elem_of_singleton in Hp as ->. apply elem_of_seqZ in Hr, Hc. simpl. lia.
  - intros [Hr Hc]. exists p.1. split; [|apply elem_of_seqZ; lia].
    apply list_elem_of_bind. exists p.2. split; [|apply elem_of_seqZ; lia].
    destruct p. simpl. by apply list_elem_of_singleton.
Qed.

Lemma NoDup_row_major n : NoDup (row_major n).
Proof.
  unfold row_major. apply NoDup_bind; [| |apply NoDup_seqZ].
  - intros r1 r2 p _ _ H1 H2.
    apply list_elem_of_bind in H1 as (c1 & ->%list_elem_of_singleton & _).
    apply list_elem_of_bind in H2 as (c2 & [= -> _]%list_elem_of_singleton & _). done.
  - intros r _. apply NoDup_bind; [| |apply NoDup_seqZ].
    + intros c1 c2 p _ _ ->%list_elem_of_singleton [= ->]%list_elem_of_singleton. done.
    + intros c _. apply NoDup_singleton.
Qed.

(** The teleport cells of the grid, in scanning order. *)
Definition teleport_cells (n : Z) (grid : Grid) : list Pos :=
  filter (λ p, grid_at grid p.1 p.2 = Some TELEPORT) (row_major n).

Lemma collect_teleports_spec cells grid acc l :
  Wumpus4.collect_teleports cells grid acc = Some l →
  l = acc ++ filter (λ p, grid_at grid p.1 p.2 = Some TELEPORT) cells.
Proof.
  revert acc. induction cells as [|[r c] cells IH]; intros acc; simpl.
  - intros [= <-]. by rewrite app_nil_r.
  - destruct (grid_at grid r c) as [e|] eqn:He; [|done]. simpl.
    intros Hs. apply IH in Hs as ->. rewrite filter_cons. simpl. rewrite He.
    case_decide as Ht.
    + subst e. rewrite decide_True by done. by rewrite <- app_assoc.
    + rewrite decide_False by congruence. done.
Qed.

Lemma collect_teleports_wf n cells grid acc :
  grid_wf n grid → Forall (in_bounds n) cells →
  is_Some (Wumpus4.collect_teleports cells grid acc).
Proof.
  intros Hwf. revert acc. induction cells as [|[r c] cells IH]; intros acc Hall; simpl.
  - by eexists.
  - apply Forall_cons in Hall as [Hb Hall].
    destruct (grid_at_in_bounds _ _ _ Hwf Hb) as [e He]. simpl in He. rewrite He.
    simpl. by apply IH.
Qed.

(** [paired l a b]: [a] and [b] stand next to each other in [l], at an
    even and the following odd index, in either order. *)
Fixpoint paired (l : list Pos) (a b : Pos) : Prop :=
  match l with
  | x :: y :: rest => (a = x ∧ b = y) ∨ (a = y ∧ b = x) ∨ paired rest a b
  | _ => False
  end.

Lemma pair_ind (P : list Pos → Prop) :
  P [] → (∀ x, P [x]) → (∀ x y l, P l → P (x :: y :: l)) → ∀ l, P l.
Proof.
  intros H0 H1 H2 l. assert (P l ∧ ∀ x, P (x :: l)) as [? _]; [|done].
  induction l as [|y l [IH1 IH2]]; [by split|]. split; [apply IH2|].
  intros x. by apply H2.
Qed.

Lemma pair_up_lookup l : ∀ d a b,
  NoDup l → (∀ x, x ∈ l → d !! x = None) →
  Wumpus4.pair_up l d !! a = Some b ↔ d !! a = Some b ∨ paired l a b.
Proof.
  induction l as [|x|x y l IH] using pair_ind; intros d a b Hnd Hd; simpl; [tauto..|].
  apply NoDup_cons in Hnd as [Hx Hnd]. apply NoDup_cons in Hnd as [Hy Hnd].
  assert (x ≠ y) by set_solver.
  rewrite IH; [|done|].
  - destruct (decide (a = y)) as [->|Hay].
    { rewrite lookup_insert_eq. rewrite (Hd y) by set_solver. naive_solver. }
    rewrite lookup_insert_ne by done.
    destruct (decide (a = x)) as [->|Hax].
    { rewrite lookup_insert_eq. rewrite (Hd x) by set_solver. naive_solver. }
    rewrite lookup_insert_ne by done. naive_solver.
  - intros z Hz. rewrite !lookup_insert_ne by set_solver. apply Hd. set_solver.
Qed.

Lemma paired_elem_of l a b : paired l a b → a ∈ l ∧ b ∈ l.
Proof.
  induction l as [|x|x y l IH] using pair_ind; simpl; [done..|].
  intros [[-> ->]|[[-> ->]|H]]; [set_solver..|]. apply IH in H. set_solver.
Qed.

Lemma paired_sym l a b : paired l a b → paired l b a.
Proof. induction l as [|x|x y l IH] using pair_ind; simpl; tauto. Qed.

Lemma paired_irrefl l a b : NoDup l → paired l a b → a ≠ b.
Proof.
  induction l as [|x|x y l IH] using pair_ind; simpl; [done..|].
  intros Hnd. apply NoDup_cons in Hnd as [Hx Hnd]. apply NoDup_cons in Hnd as [Hy Hnd].
  intros [[-> ->]|[[-> ->]|H]]; [set_solver..|]. by apply IH.
Qed.

(** Every cell of the list has a partner, except the last one of a list
    of odd length. *)
Lemma paired_cover l x :
  x ∈ l → (∃ b, paired l x b) ∨ (Nat.Odd (length l) ∧ last l = Some x).
Proof.
  induction l as [|z|z y l IH] using pair_ind; simpl.
  - intros H. by apply elem_of_nil in H.
  - intros ->%list_elem_of_singleton. right. split; [by exists 0%nat|done].
  - intros [->|[->|H]%elem_of_cons]%elem_of_cons; [left; eauto..|].
    destruct (IH H) as [[b Hb]|[[k Hk] Hl]]; [left; eauto|right].
    split; [exists (S k); lia|]. by destruct l.
Qed.

Lemma paired_last l c b :
  NoDup l → Nat.Odd (length l) → last l = Some c → ¬ paired l c b.
Proof.
  induction l as [|z|z y l IH] using pair_ind; simpl; [by intros ? ? ? []..|].
  intros Hnd [k Hk] Hl Hp.
  apply NoDup_cons in Hnd as [Hz Hnd]. apply NoDup_cons in Hnd as [Hy Hnd].
  assert (last l = Some c) as Hl' by (destruct l; [simpl in Hk; lia|done]).
  pose proof (last_Some_elem_of _ _ Hl').
  destruct Hp as [[-> _]|[[-> _]|Hp]]; [set_solver..|].
  apply (IH Hnd); [exists (k - 1)%nat; lia|done|done].
Qed.

Lemma paired_even l x :
  Nat.Even (length l) → x ∈ l → ∃ b, paired l x b.
Proof.
  intros [k Hk] Hx. destruct (paired_cover l x Hx) as [?|[[k' Hk'] _]]; [done|lia].
Qed.

(** ** The level generator of [wumpus4.py] *)

Section LevelFacts.
Variable size : Z.
Variable rand : nat → Z.
Hypothesis size_pos : 1 <= size.

#[local] Abbreviation is_free := Wumpus4.is_free.
#[local] Abbreviation random_tries := (Wumpus4.random_tries size rand).
#[local] Abbreviation first_free := Wumpus4.first_free.
#[local] Abbreviation find_empty_position := (Wumpus4.find_empty_position size rand).
#[local] Abbreviation place := (Wumpus4.place size rand).

(** A position the generator may use: an empty cell of the grid that is
    not excluded. *)
Definition usable (grid : Grid) (exclude : list Pos) (p : Pos) : Prop :=
  in_bounds size p ∧ grid_at grid p.1 p.2 = Some EMPTY ∧ p ∉ exclude.

Lemma is_free_true grid exclude p :
  is_free grid exclude p = Some true →
  grid_at grid p.1 p.2 = Some EMPTY ∧ p ∉ exclude.
Proof.
  unfold Wumpus4.is_free. destruct (grid_at grid p.1 p.2) as [e|]; [|done]. simpl.
  intros [= H]. apply andb_true_iff in H as [H1 H2].
  apply bool_decide_eq_true in H1, H2. by subst e.
Qed.

Lemma is_free_wf grid exclude p :
  grid_wf size grid → in_bounds size p → is_Some (is_free grid exclude p).
Proof.
  intros Hwf Hb. unfold Wumpus4.is_free.
  destruct (grid_at_in_bounds _ _ _ Hwf Hb) as [e ->]. by eexists.
Qed.

Lemma random_tries_spec attempts grid exclude i :
  grid_wf size grid →
  ∃ r i', random_tries attempts grid exclude i = Some (r, i') ∧
          ∀ p, r = Some p → usable grid exclude p.
Proof.
  intros Hwf. revert i. induction attempts as [|attempts IH]; intros i; simpl.
  - eexists _, _. split; [done|]. by intros p.
  - destruct (randint_total rand size i size_pos) as [row Hrow]. rewrite Hrow. simpl.
    destruct (randint_total rand size (S i) size_pos) as [col Hcol]. rewrite Hcol. simpl.
    apply randint_range in Hrow, Hcol.
    assert (Hb : in_bounds size (row, col)) by done.
    destruct (is_free_wf grid exclude (row, col) Hwf Hb) as [ok Hok]. rewrite Hok. simpl.
    destruct ok; simpl; [|apply IH].
    destruct (Wumpus4.away_from_agent (row, col)); [|apply IH].
    eexists _, _. split; [done|]. intros p [= <-].
    apply is_free_true in Hok as [? ?]. by split.
Qed.

Lemma first_free_spec cells grid exclude :
  grid_wf size grid → Forall (in_bounds size) cells →
  ∃ r, first_free cells grid exclude = Some r ∧ ∀ p, r = Some p → usable grid exclude p.
Proof.
  intros Hwf. induction cells as [|q cells IH]; intros Hall; simpl.
  - eexists. split; [done|]. by intros p.
  - apply Forall_cons in Hall as [Hb Hall].
    destruct (is_free_wf grid exclude q Hwf Hb) as [ok Hok]. rewrite Hok. simpl.
    destruct ok; [|by apply IH].
    eexists. split; [done|]. intros p [= <-].
    apply is_free_true in Hok as [? ?]. by split.
Qed.

(** [find_empty_position] raises nothing on a well-formed grid, and what
    it returns is usable. *)
Lemma find_empty_position_spec grid exclude i :
  grid_wf size grid →
  ∃ r i', find_empty_position grid exclude i = Some (r, i') ∧
          ∀ p, r = Some p → usable grid exclude p.
Proof.
  intros Hwf. unfold Wumpus4.find_empty_position.
  destruct (random_tries_spec 100 grid exclude i Hwf) as (r & i' & -> & Hr). simpl.
  destruct r as [p|]; [by eexists _, _|].
  destruct (first_free_spec (row_major size) grid exclude Hwf) as (r' & -> & Hr').
  { apply Forall_forall. intros q. apply elem_of_row_major. }
  simpl. by eexists _, _.
Qed.

(** One placement loop: it adds at most [count] new positions, each on
    a usable cell, marks them with [kind] and touches nothing else. *)
Lemma place_spec count kind placed : ∀ grid positions i,
  grid_wf size grid →
  ∃ grid' new i',
    place count kind placed grid positions i = Some (grid', positions ++ new, i') ∧
    grid_wf size grid' ∧ (length new ≤ count)%nat ∧ NoDup new ∧
    Forall (λ p, usable grid ([Wumpus4.agent_pos; Wumpus4.gold_pos size]
                              ++ placed ++ positions) p ∧
                 grid_at grid' p.1 p.2 = Some kind) new ∧
    (∀ q, in_bounds size q → q ∉ new → grid_at grid' q.1 q.2 = grid_at grid q.1 q.2).
Proof.
  induction count as [|count IH]; intros grid positions i Hwf; simpl.
  { exists grid, [], i. rewrite app_nil_r. split_and!; try done; constructor. }
  destruct (find_empty_position_spec grid
              (Wumpus4.agent_pos :: Wumpus4.gold_pos size :: placed ++ positions) i Hwf)
    as (r & i' & -> & Hr). simpl.
  destruct r as [p|].
  - destruct (Hr p eq_refl) as (Hb & He & Hex).
    destruct (grid_set_in_bounds size grid p kind Hwf Hb) as (g1 & -> & Hwf1 & Hk & Hsame).
    simpl.
    destruct (IH g1 (positions ++ [p]) i' Hwf1)
      as (g' & new & i'' & -> & Hwf' & Hlen & Hnd & Hall & Hrest).
    exists g', (p :: new), i''. rewrite <- app_assoc. simpl.
    rewrite Forall_forall in Hall.
    assert (Hp : p ∉ new).
    { intros Hin. destruct (Hall p Hin) as [(_ & _ & Hn) _]. set_solver. }
    split_and!; [done|done|lia|by constructor| |].
    + constructor.
      * split; [done|]. rewrite Hrest; done.
      * apply Forall_forall. intros q Hq. destruct (Hall q Hq) as [(Hqb & Hqe & Hqx) Hqk].
        assert (q ≠ p) by set_solver.
        split; [|done]. split_and!; [done| |set_solver].
        rewrite <- Hqe. symmetry. by apply Hsame.
    + intros q Hqb Hq. rewrite Hrest; [|done|set_solver]. apply Hsame; [done|set_solver].
  - destruct (IH grid positions i' Hwf)
      as (g' & new & i'' & -> & Hwf' & Hlen & Hnd & Hall & Hrest).
    exists g', new, i''. split_and!; [done|done|lia|done|done|done].
Qed.

End LevelFacts.

(** All the positions [generate_grid] has given out. *)
Definition placements (P : Wumpus4.Placement) : list Pos :=
  Wumpus4.p_agent P :: Wumpus4.p_gold P ::
  Wumpus4.p_wumpus P ++ Wumpus4.p_pits P ++ Wumpus4.p_obstacles P ++
  Wumpus4.p_traps P ++ Wumpus4.p_teleports P.

(** The grid shows [kind] on every cell of [l]. *)
Definition shows (grid : Grid) (kind : Entity) (l : list Pos) : Prop :=
  Forall (λ p, grid_at grid p.1 p.2 = Some kind) l.

Lemma place_fresh size exclude grid grid' kind (new : list Pos) :
  Forall (λ p, usable size grid exclude p ∧ grid_at grid' p.1 p.2 = Some kind) new →
  (∀ p, p ∈ new → in_bounds size p ∧ p ∉ exclude) ∧ shows grid' kind new.
Proof.
  intros Hall. split.
  - intros p Hp. rewrite Forall_forall in Hall. by destruct (Hall p Hp) as [(? & _ & ?) _].
  - eapply Forall_impl; [exact Hall|]. by intros p [_ ?].
Qed.

Lemma shows_kept size grid grid' kind (l new : list Pos) :
  shows grid kind l → (∀ p, p ∈ l → in_bounds size p) → (∀ p, p ∈ l → p ∉ new) →
  (∀ q, in_bounds size q → q ∉ new → grid_at grid' q.1 q.2 = grid_at grid q.1 q.2) →
  shows grid' kind l.
Proof.
  unfold shows. rewrite !Forall_forall. intros Hs Hb Hn Hsame p Hp.
  rewrite Hsame; auto.
Qed.

Lemma generate_grid_spec size settings rand i :
  2 <= size →
  ∃ P, Wumpus4.generate_grid size settings rand i = Some P ∧
    grid_wf size (Wumpus4.p_grid P) ∧
    NoDup (placements P) ∧
    Forall (in_bounds size) (placements P) ∧
    (length (Wumpus4.p_wumpus P) ≤ Wumpus4.wumpus settings)%nat ∧
    (length (Wumpus4.p_pits P) ≤ Wumpus4.pits settings)%nat ∧
    (length (Wumpus4.p_obstacles P) ≤ Wumpus4.obstacles settings)%nat ∧
    (length (Wumpus4.p_traps P) ≤ Wumpus4.traps settings)%nat ∧
    (length (Wumpus4.p_teleports P) ≤ Wumpus4.teleports settings)%nat ∧
    shows (Wumpus4.p_grid P) AGENT [Wumpus4.p_agent P] ∧
    shows (Wumpus4.p_grid P) GOLD [Wumpus4.p_gold P] ∧
    shows (Wumpus4.p_grid P) WUMPUS (Wumpus4.p_wumpus P) ∧
    shows (Wumpus4.p_grid P) PIT (Wumpus4.p_pits P) ∧
    shows (Wumpus4.p_grid P) OBSTACLE (Wumpus4.p_obstacles P) ∧
    shows (Wumpus4.p_grid P) TRAP (Wumpus4.p_traps P) ∧
    shows (Wumpus4.p_grid P) TELEPORT (Wumpus4.p_teleports P) ∧
    (∀ q, in_bounds size q → q ∉ placements P →
          grid_at (Wumpus4.p_grid P) q.1 q.2 = Some EMPTY).
Proof.
  intros Hsize. assert (Hpos : 1 <= size) by lia.
  unfold Wumpus4.generate_grid.
  remember Wumpus4.agent_pos as a eqn:Ea. remember (Wumpus4.gold_pos size) as g eqn:Eg.
  assert (Hab : in_bounds size a) by (subst a; unfold in_bounds; simpl; lia).
  assert (Hgb : in_bounds size g) by (subst g; unfold in_bounds; simpl; lia).
  assert (Hag : a ≠ g).
  { subst a g. unfold Wumpus4.agent_pos, Wumpus4.gold_pos. intros [=]. lia. }
  destruct (grid_set_in_bounds size (empty_grid size) a AGENT)
    as (g1 & -> & Hwf1 & Ha1 & Hs1); [apply empty_grid_wf; lia|done|]. simpl.
  destruct (grid_set_in_bounds size g1 g GOLD Hwf1 Hgb) as (g2 & -> & Hwf2 & Hg2 & Hs2).
  simpl.
  destruct (place_spec size rand Hpos (Wumpus4.wumpus settings) WUMPUS [] g2 [] i Hwf2)
    as (g3 & w & i1 & -> & Hwf3 & Hlw & Hndw & Hw & Hs3). simpl.
  destruct (place_spec size rand Hpos (Wumpus4.pits settings) PIT w g3 [] i1 Hwf3)
    as (g4 & pi & i2 & -> & Hwf4 & Hlp & Hndp & Hp & Hs4). simpl.
  destruct (place_spec size rand Hpos (Wumpus4.obstacles settings) OBSTACLE (w ++ pi)
              g4 [] i2 Hwf4)
    as (g5 & o & i3 & -> & Hwf5 & Hlo & Hndo & Ho & Hs5). simpl.
  destruct (place_spec size rand Hpos (Wumpus4.traps settings) TRAP (w ++ pi ++ o)
              g5 [] i3 Hwf5)
    as (g6 & t & i4 & -> & Hwf6 & Hlt & Hndt & Ht & Hs6). simpl.
  destruct (place_spec size rand Hpos (Wumpus4.teleports settings) TELEPORT
              (w ++ pi ++ o ++ t) g6 [] i4 Hwf6)
    as (g7 & tp & i5 & -> & Hwf7 & Hltp & Hndtp & Htp & Hs7). simpl.
  apply place_fresh in Hw as [Hfw Hkw], Hp as [Hfp Hkp], Ho as [Hfo Hko],
    Ht as [Hft Hkt], Htp as [Hftp Hktp].
  rewrite <- Ea, <- Eg in Hfw, Hfp, Hfo, Hft, Hftp.
  eexists. split; [done|]. unfold placements. simpl.
  assert (Hshow_a : ∀ q, q = a ∨ q = g → (q ∉ w) ∧ (q ∉ pi) ∧ (q ∉ o) ∧ (q ∉ t) ∧ (q ∉ tp)).
  { intros q Hq. split_and!; intros Hin;
      [apply Hfw in Hin as [_ Hin]|apply Hfp in Hin as [_ Hin]|
       apply Hfo in Hin as [_ Hin]|apply Hft in Hin as [_ Hin]|
       apply Hftp in Hin as [_ Hin]]; set_solver. }
  split_and!; try done.
  - constructor; [|constructor].
    + destruct (Hshow_a a) as (?&?&?&?&?); [by left|]. set_solver.
    + destruct (Hshow_a g) as (?&?&?&?&?); [by right|]. set_solver.
    + apply NoDup_app. split_and!; [done| |].
      { intros x Hx Hx'. repeat (apply elem_of_app in Hx' as [Hx'|Hx']);
          [apply Hfp in Hx' as [_ Hx']|apply Hfo in Hx' as [_ Hx']|
           apply Hft in Hx' as [_ Hx']|apply Hftp in Hx' as [_ Hx']]; set_solver. }
      apply NoDup_app. split_and!; [done| |].
      { intros x Hx Hx'. repeat (apply elem_of_app in Hx' as [Hx'|Hx']);
          [apply Hfo in Hx' as [_ Hx']|
           apply Hft in Hx' as [_ Hx']|apply Hftp in Hx' as [_ Hx']]; set_solver. }
      apply NoDup_app. split_and!; [done| |].
      { intros x Hx Hx'. repeat (apply elem_of_app in Hx' as [Hx'|Hx']);
          [apply Hft in Hx' as [_ Hx']|apply Hftp in Hx' as [_ Hx']]; set_solver. }
      apply NoDup_app. split_and!; [done| |done].
      intros x Hx Hx'. apply Hftp in Hx' as [_ Hx']. set_solver.
  - constructor; [done|]. constructor; [done|]. rewrite !Forall_app, !Forall_forall.
    split_and!; intros x Hx; [by apply Hfw|by apply Hfp|by apply Hfo|by apply Hft|by apply Hftp].
  - constructor; [|constructor]. destruct (Hshow_a a) as (?&?&?&?&?); [by left|].
    rewrite Hs7, Hs6, Hs5, Hs4, Hs3, Hs2; done.
  - constructor; [|constructor]. destruct (Hshow_a g) as (?&?&?&?&?); [by right|].
    rewrite Hs7, Hs6, Hs5, Hs4, Hs3; done.
  - eapply (shows_kept size g6); [|by intros; apply Hfw| |done].
    2:{ intros x Hx Hx'. apply Hftp in Hx' as [_ Hx']. set_solver. }
    eapply (shows_kept size g5); [|by intros; apply Hfw| |done].
    2:{ intros x Hx Hx'. apply Hft in Hx' as [_ Hx']. set_solver. }
    eapply (shows_kept size g4); [|by intros; apply Hfw| |done].
    2:{ intros x Hx Hx'. apply Hfo in Hx' as [_ Hx']. set_solver. }
    eapply (shows_kept size g3); [done|by intros; apply Hfw| |done].
    intros x Hx Hx'. apply Hfp in Hx' as [_ Hx']. set_solver.
  - eapply (shows_kept size g6); [|by intros; apply Hfp| |done].
    2:{ intros x Hx Hx'. apply Hftp in Hx' as [_ Hx']. set_solver. }
    eapply (shows_kept size g5); [|by intros; apply Hfp| |done].
    2:{ intros x Hx Hx'. apply Hft in Hx' as [_ Hx']. set_solver. }
    eapply (shows_kept size g4); [done|by intros; apply Hfp| |done].
    intros x Hx Hx'. apply Hfo in Hx' as [_ Hx']. set_solver.
  - eapply (shows_kept size g6); [|by intros; apply Hfo| |done].
    2:{ intros x Hx Hx'. apply Hftp in Hx' as [_ Hx']. set_solver. }
    eapply (shows_kept size g5); [done|by intros; apply Hfo| |done].
    intros x Hx Hx'. apply Hft in Hx' as [_ Hx']. set_solver.
  - eapply (shows_kept size g6); [done|by intros; apply Hft| |done].
    intros x Hx Hx'. apply Hftp in Hx' as [_ Hx']. set_solver.
  - intros q Hq Hnq.
    rewrite Hs7, Hs6, Hs5, Hs4, Hs3, Hs2, Hs1; [by apply empty_grid_at|try done; set_solver..].
Qed.

(** ** The custom grid of [wumpus3.py] *)

Section CustomFacts.
Variable GRID_SIZE : Z.
Variable rand : nat → Z.

#[local] Abbreviation draw_wumpus := (Wumpus3.draw_wumpus GRID_SIZE rand).
#[local] Abbreviation place_wumpuses := (Wumpus3.place_wumpuses GRID_SIZE rand).
#[local] Abbreviation draw_pit := (Wumpus3.draw_pit GRID_SIZE rand).
#[local] Abbreviation place_pits := (Wumpus3.place_pits GRID_SIZE rand).

Lemma draw_wumpus_spec fuel a g ws i pos i' :
  draw_wumpus fuel a g ws i = Return (pos, i') →
  in_bounds GRID_SIZE pos ∧ pos ≠ a ∧ pos ≠ g ∧ pos ∉ ws.
Proof.
  revert i. induction fuel as [|fuel IH]; intros i; simpl; [done|].
  destruct (randint rand 0 (GRID_SIZE - 1) i) as [[x i1]|] eqn:Hx; [|done].
  destruct (randint rand 0 (GRID_SIZE - 1) i1) as [[y i2]|] eqn:Hy; [|done].
  apply randint_range in Hx, Hy. case_decide as Hd; [|apply IH].
  intros [= <- _]. by split.
Qed.

Lemma place_wumpuses_spec fuel num a g : ∀ ws i ws' i',
  place_wumpuses fuel num a g ws i = Return (ws', i') →
  ∃ new, ws' = ws ++ new ∧ length new = num ∧ (NoDup ws → NoDup ws') ∧
         Forall (λ p, in_bounds GRID_SIZE p ∧ p ≠ a ∧ p ≠ g) new.
Proof.
  induction num as [|num IH]; intros ws i ws' i'; simpl.
  - intros [= <- _]. exists []. rewrite app_nil_r. split_and!; try done; constructor.
  - destruct (draw_wumpus fuel a g ws i) as [[pos i1]| |] eqn:Hd; [|done..].
    apply draw_wumpus_spec in Hd as (Hb & Ha & Hg & Hn).
    intros Hp. apply IH in Hp as (new & -> & Hlen & Hnd & Hall).
    exists (pos :: new). rewrite <- app_assoc. split_and!; [done|simpl; lia| |by constructor].
    intros Hws. rewrite (app_assoc ws [pos] new). apply Hnd. apply NoDup_app.
    split_and!; [done|set_solver|apply NoDup_singleton].
Qed.

Lemma draw_pit_spec attempts a g ws ps i pos i' :
  draw_pit attempts a g ws ps i = Some (Some pos, i') →
  in_bounds GRID_SIZE pos ∧ pos ≠ a ∧ pos ≠ g ∧ (pos ∉ ws) ∧ (pos ∉ ps).
Proof.
  revert i. induction attempts as [|attempts IH]; intros i; simpl; [done|].
  destruct (randint rand 0 (GRID_SIZE - 1) i) as [[x i1]|] eqn:Hx; [|done]. simpl.
  destruct (randint rand 0 (GRID_SIZE - 1) i1) as [[y i2]|] eqn:Hy; [|done]. simpl.
  apply randint_range in Hx, Hy. case_decide as Hd; [|apply IH].
  intros [= <- _]. destruct Hd as (? & ? & ? & ?). by split_and!.
Qed.

Lemma place_pits_spec num a g ws : ∀ ps i ps' i',
  place_pits num a g ws ps i = Some (ps', i') →
  ∃ new, ps' = ps ++ new ∧ (length new ≤ num)%nat ∧ (NoDup ps → NoDup ps') ∧
         Forall (λ p, in_bounds GRID_SIZE p ∧ p ≠ a ∧ p ≠ g ∧ p ∉ ws) new.
Proof.
  induction num as [|num IH]; intros ps i ps' i'; cbn [Wumpus3.place_pits].
  - intros [= <- _]. exists []. rewrite app_nil_r. split_and!; try done; constructor.
  - destruct (draw_pit 100 a g ws ps i) as [[[pos|] i1]|] eqn:Hd;
      cbn [mbind option_bind]; [| |done].
    + apply draw_pit_spec in Hd as (Hb & Ha & Hg & Hw & Hn).
      intros Hp. apply IH in Hp as (new & -> & Hlen & Hnd & Hall).
      exists (pos :: new). rewrite <- app_assoc.
      split_and!; [done|simpl; lia| |by constructor].
      intros Hps. rewrite (app_assoc ps [pos] new). apply Hnd. apply NoDup_app.
      split_and!; [done|set_solver|apply NoDup_singleton].
    + intros Hp. apply IH in Hp as (new & -> & Hlen & Hnd & Hall).
      exists new. split_and!; [done|lia|done|done].
Qed.

Lemma mark_spec positions kind : ∀ grid,
  grid_wf GRID_SIZE grid → Forall (in_bounds GRID_SIZE) positions →
  ∃ grid', Wumpus3.mark positions kind grid = Some grid' ∧ grid_wf GRID_SIZE grid' ∧
    shows grid' kind positions ∧
    ∀ q, in_bounds GRID_SIZE q → q ∉ positions →
         grid_at grid' q.1 q.2 = grid_at grid q.1 q.2.
Proof.
  induction positions as [|p positions IH]; intros grid Hwf Hall; simpl.
  - exists grid. split_and!; [done|done|constructor|done].
  - apply Forall_cons in Hall as [Hb Hall].
    destruct (grid_set_in_bounds GRID_SIZE grid p kind Hwf Hb) as (g1 & -> & Hwf1 & Hk & Hsame).
    simpl. destruct (IH g1 Hwf1 Hall) as (g' & -> & Hwf' & Hs & Hrest).
    exists g'. split_and!; [done|done| |].
    + constructor; [|done]. destruct (decide (p ∈ positions)) as [Hin|Hin].
      * unfold shows in Hs. rewrite Forall_forall in Hs. by apply Hs.
      * by rewrite Hrest.
    + intros q Hq Hn. rewrite Hrest; [|done|set_solver]. apply Hsame; [done|set_solver].
Qed.

(** What a returned custom grid looks like. *)
Lemma generate_custom_grid_spec fuel agent_in gold_in num_wumpus num_pits i c :
  Wumpus3.generate_custom_grid GRID_SIZE rand fuel agent_in gold_in num_wumpus num_pits i
    = Return c →
  NoDup (Wumpus3.c_wumpus c ++ Wumpus3.c_pits c) ∧
  (Wumpus3.c_agent c ∉ Wumpus3.c_wumpus c ++ Wumpus3.c_pits c) ∧
  (Wumpus3.c_gold c ∉ Wumpus3.c_wumpus c ++ Wumpus3.c_pits c) ∧
  (length (Wumpus3.c_wumpus c) ≤ num_wumpus)%nat ∧
  (length (Wumpus3.c_pits c) ≤ num_pits)%nat ∧
  shows (Wumpus3.c_grid c) GOLD [Wumpus3.c_gold c] ∧
  shows (Wumpus3.c_grid c) WUMPUS (Wumpus3.c_wumpus c) ∧
  shows (Wumpus3.c_grid c) PIT (Wumpus3.c_pits c) ∧
  (Wumpus3.c_agent c ≠ Wumpus3.c_gold c →
   shows (Wumpus3.c_grid c) AGENT [Wumpus3.c_agent c]).
Proof.
  unfold Wumpus3.generate_custom_grid.
  remember (if decide (in_bounds GRID_SIZE agent_in) then agent_in else (0, 0))
    as a eqn:Ea.
  remember (if decide (in_bounds GRID_SIZE gold_in) then gold_in
            else (GRID_SIZE - 1, GRID_SIZE - 1)) as g eqn:Eg.
  destruct (place_wumpuses fuel num_wumpus a g [] i) as [[ws i1]| |] eqn:Hw; [|done..].
  apply place_wumpuses_spec in Hw as (ws' & -> & Hlw & Hndw & Hallw).
  rewrite app_nil_l in *.
  destruct (place_pits num_pits a g ws' [] i1) as [[ps i2]|] eqn:Hp;
    cbn [mbind option_bind]; [|done].
  apply place_pits_spec in Hp as (ps' & -> & Hlp & Hndp & Hallp).
  rewrite app_nil_l in *.
  destruct (grid_set (empty_grid GRID_SIZE) a.1 a.2 AGENT) as [g1|] eqn:H1;
    cbn [mbind option_bind]; [|done].
  destruct (grid_set g1 g.1 g.2 GOLD) as [g2|] eqn:H2; cbn [mbind option_bind]; [|done].
  destruct (Wumpus3.mark ws' WUMPUS g2) as [g3|] eqn:H3; cbn [mbind option_bind]; [|done].
  destruct (Wumpus3.mark ps' PIT g3) as [g4|] eqn:H4; cbn [mbind option_bind]; [|done].
  intros [= <-]. cbn [Wumpus3.c_grid Wumpus3.c_agent Wumpus3.c_gold Wumpus3.c_wumpus
                       Wumpus3.c_pits].
  (* the grid is not empty, since the first write went through *)
  assert (Hpos : 1 <= GRID_SIZE).
  { destruct (decide (1 <= GRID_SIZE)) as [|Hn]; [done|]. exfalso.
    unfold grid_set, empty_grid in H1. replace (Z.to_nat GRID_SIZE) with 0%nat in H1 by lia.
    simpl in H1. unfold py_index in H1. simpl in H1. repeat case_decide; simplify_eq. }
  assert (Hab : in_bounds GRID_SIZE a).
  { subst a. case_decide; [done|]. unfold in_bounds. simpl. lia. }
  assert (Hgb : in_bounds GRID_SIZE g).
  { subst g. case_decide; [done|]. unfold in_bounds. simpl. lia. }
  clear Ea Eg. rewrite Forall_forall in Hallw, Hallp.
  destruct (grid_set_in_bounds GRID_SIZE (empty_grid GRID_SIZE) a AGENT)
    as (g1' & H1' & Hwf1 & Ha1 & Hs1); [apply empty_grid_wf; lia|done|].
  rewrite H1 in H1'. injection H1' as <-.
  destruct (grid_set_in_bounds GRID_SIZE g1 g GOLD Hwf1 Hgb) as (g2' & H2' & Hwf2 & Hg2 & Hs2).
  rewrite H2 in H2'. injection H2' as <-.
  destruct (mark_spec ws' WUMPUS g2 Hwf2) as (g3' & H3' & Hwf3 & Hsh3 & Hs3).
  { apply Forall_forall. intros x Hx. by apply Hallw. }
  rewrite H3 in H3'. injection H3' as <-.
  destruct (mark_spec ps' PIT g3 Hwf3) as (g4' & H4' & Hwf4 & Hsh4 & Hs4).
  { apply Forall_forall. intros x Hx. by apply Hallp. }
  rewrite H4 in H4'. injection H4' as <-.
  assert (Haw : a ∉ ws' ++ ps').
  { intros [Hin|Hin]%elem_of_app; [apply Hallw in Hin|apply Hallp in Hin]; naive_solver. }
  assert (Hgw : g ∉ ws' ++ ps').
  { intros [Hin|Hin]%elem_of_app; [apply Hallw in Hin|apply Hallp in Hin]; naive_solver. }
  split_and!; [|done|done|lia|done| | |done|].
  - apply NoDup_app. split_and!; [by apply Hndw, NoDup_nil|
      |by apply Hndp, NoDup_nil].
    intros x Hx Hx'. apply Hallp in Hx'. naive_solver.
  - constructor; [|constructor]. rewrite Hs4, Hs3; [done|done|set_solver|done|set_solver].
  - eapply (shows_kept GRID_SIZE g3); [done| | |done].
    + intros x Hx. by apply Hallw.
    + intros x Hx Hx'. apply Hallp in Hx'. naive_solver.
  - intros Hne. constructor; [|constructor].
    rewrite Hs4, Hs3, Hs2; [done|done|done|done|set_solver|done|set_solver].
Qed.

End CustomFacts.

(** ** [wumpus4.py]: the A* search finds a path whenever there is one *)

(** Sums of scores over a list of cells. *)
Definition sumZ (l : list Z) : Z := foldr Z.add 0 l.

Lemma sumZ_cons x l : sumZ (x :: l) = x + sumZ l.
Proof. done. Qed.

Lemma sumZ_le {A} (f f' : A → Z) (l : list A) :
  (∀ x, x ∈ l → f' x <= f x) → sumZ (f' <$> l) <= sumZ (f <$> l).
Proof.
  induction l as [|a l IH]; intros H; [done|]. rewrite !fmap_cons, !sumZ_cons.
  pose proof (H a ltac:(left)).
  assert (sumZ (f' <$> l) <= sumZ (f <$> l)) by (apply IH; intros; apply H; by right).
  lia.
Qed.

Lemma sumZ_lt {A} (f f' : A → Z) (l : list A) v :
  (∀ x, x ∈ l → f' x <= f x) → v ∈ l → f' v < f v →
  sumZ (f' <$> l) < sumZ (f <$> l).
Proof.
  induction l as [|a l IH]; intros H Hv Hlt; [by apply elem_of_nil in Hv|].
  rewrite !fmap_cons, !sumZ_cons. pose proof (H a ltac:(left)).
  apply elem_of_cons in Hv as [<-|Hv].
  - pose proof (sumZ_le f f' l ltac:(intros; apply H; by right)). lia.
  - assert (sumZ (f' <$> l) < sumZ (f <$> l)) by (apply IH; [intros; apply H; by right|done..]).
    lia.
Qed.

Lemma sumZ_bound {A} (f : A → Z) (l : list A) b :
  (∀ x, x ∈ l → 0 <= f x <= b) → 0 <= sumZ (f <$> l) <= Z.of_nat (length l) * b.
Proof.
  induction l as [|a l IH]; intros H; [simpl; lia|].
  pose proof (H a ltac:(left)).
  assert (0 <= sumZ (f <$> l) <= Z.of_nat (length l) * b) by (apply IH; intros; apply H; by right).
  rewrite fmap_cons, sumZ_cons, length_cons. nia.
Qed.

Lemma filter_length_drop {A} (P : A → Prop) `{∀ x, Decision (P x)} (l : list A) x :
  x ∈ l → ¬ P x → (length (filter P l) < length l)%nat.
Proof.
  intros Hx HP. induction l as [|a l IH]; [by apply elem_of_nil in Hx|].
  rewrite filter_cons. pose proof (length_filter P l).
  apply elem_of_cons in Hx as [<-|Hx].
  - rewrite decide_False by done. simpl. lia.
  - specialize (IH Hx). case_decide; simpl; lia.
Qed.

Section AStarInv.
Variable GRID_SIZE : Z.
Variable grid : Grid.
Variables agent_pos gold_pos : Pos.

#[local] Abbreviation astep := (Wumpus4.step GRID_SIZE grid).
#[local] Abbreviation achain := (Wumpus4.chain GRID_SIZE grid).
#[local] Abbreviation apath := (Wumpus4.is_path GRID_SIZE grid).
#[local] Abbreviation move_cost := (Wumpus4.move_cost grid).
#[local] Abbreviation relax_one := (Wumpus4.relax_one grid gold_pos).
#[local] Abbreviation relax := (Wumpus4.relax grid gold_pos).
#[local] Abbreviation get_neighbors := (Wumpus4.get_neighbors GRID_SIZE grid).
#[local] Abbreviation g_score := Wumpus4.g_score.
#[local] Abbreviation came_from := Wumpus4.came_from.
#[local] Abbreviation open_set := Wumpus4.open_set.

Lemma move_cost_bounds q : 1 <= move_cost q <= 2.
Proof.
  unfold Wumpus4.move_cost. destruct (grid_at grid q.1 q.2) as [[]|]; lia.
Qed.

Lemma astep_neq p q : astep p q → q ≠ p.
Proof.
  intros [Hin _] ->. unfold Wumpus4.neighbours_of, Wumpus4.DIRS in Hin.
  destruct p as [r c]. simpl in Hin.
  repeat (apply elem_of_cons in Hin as [Hin|Hin]; [injection Hin; lia|]).
  by apply elem_of_nil in Hin.
Qed.

Lemma astep_in_bounds p q : astep p q → in_bounds GRID_SIZE q.
Proof. by intros [_ [? _]]. Qed.

Lemma min_by_key_in best l : Wumpus4.min_by_key best l ∈ best :: l.
Proof.
  revert best. induction l as [|x l IH]; intros best; simpl; [left|].
  specialize (IH (if decide (x.1 < best.1) then x else best)).
  case_decide; set_solver.
Qed.

Lemma achain_snoc2 l u t : achain (l ++ [u; t]) ↔ achain (l ++ [u]) ∧ astep u t.
Proof.
  induction l as [|a l IH]; simpl; [tauto|].
  destruct l as [|b l]; simpl in *; tauto.
Qed.

Lemma apath_snoc s u v l : apath s u l → astep u v → apath s v (l ++ [v]).
Proof.
  intros (Hh & Hl & Hc) Hs.
  destruct l as [|x l _] using rev_ind; [done|].
  rewrite last_snoc in Hl. injection Hl as ->. split_and!.
  - destruct l; simpl in *; done.
  - by rewrite last_snoc.
  - rewrite <- app_assoc. simpl. apply achain_snoc2. done.
Qed.

(** Cells reached from the agent by moves A* may take. *)
Inductive reach : Pos → Prop :=
  | reach_start : reach agent_pos
  | reach_step p q : reach p → astep p q → reach q.

Lemma apath_reach l t : apath agent_pos t l → reach t.
Proof.
  revert t. induction l as [|t' l IH] using rev_ind; intros t (Hh & Hl & Hc).
  - done.
  - rewrite last_snoc in Hl. injection Hl as ->.
    destruct l as [|u l _] using rev_ind.
    + simpl in *. injection Hh as ->. constructor.
    + rewrite <- app_assoc in Hc. simpl in Hc. apply achain_snoc2 in Hc as [Hc Hs].
      eapply reach_step; [|exact Hs]. apply IH. split_and!; [|by rewrite last_snoc|done].
      destruct l; simpl in *; done.
Qed.

(** The cells that can ever be scored, and the bound on their number. *)
Definition astar_cells : list Pos := agent_pos :: all_cells GRID_SIZE.

Definition astar_bound : Z := GRID_SIZE * GRID_SIZE + 1.

Lemma astar_cells_length : Z.of_nat (length astar_cells) = astar_bound.
Proof.
  unfold astar_cells, astar_bound, all_cells. simpl length.
  rewrite length_fmap, length_seqZ. pose proof (Z.square_nonneg GRID_SIZE). lia.
Qed.

Definition unscored (g : gmap Pos Z) : Z :=
  Z.of_nat (length (filter (λ v, g !! v = None) astar_cells)).

(** The score of a cell, or a value above every score when it has none. *)
Definition level (g : gmap Pos Z) (v : Pos) : Z :=
  default (2 * astar_bound + 1) (g !! v).

(** What bounds the iterations left: every one removes an entry of the
    open set or lowers a score. *)
Definition work (st : Wumpus4.AStar) : Z :=
  2 * sumZ (level (g_score st) <$> astar_cells) + Z.of_nat (length (open_set st)).

(** The invariant of the [while open_set] loop; inside the [for] loop
    over the neighbours, [cur] is the cell being expanded. *)
Record AInv (cur : option Pos) (st : Wumpus4.AStar) : Prop := {
  ainv_start : g_score st !! agent_pos = Some 0 ∧ came_from st !! agent_pos = None;
  ainv_link : ∀ v u, came_from st !! v = Some u →
    ∃ gu gv, g_score st !! u = Some gu ∧ g_score st !! v = Some gv ∧ gu < gv ∧ astep u v;
  ainv_scored : ∀ v gv, g_score st !! v = Some gv →
    0 <= gv ∧ (v = agent_pos ∨ is_Some (came_from st !! v)) ∧ v ∈ astar_cells ∧
    gv + 2 * unscored (g_score st) <= 2 * astar_bound;
  ainv_open : ∀ x, x ∈ open_set st → is_Some (g_score st !! x.2);
  ainv_closed : ∀ v w, is_Some (g_score st !! v) → v ∉ (open_set st).*2 →
    Some v ≠ cur → astep v w → is_Some (g_score st !! w);
  ainv_gold : is_Some (g_score st !! gold_pos) → gold_pos ∈ (open_set st).*2;
  ainv_cur : ∀ c, cur = Some c → is_Some (g_score st !! c)
}.

Lemma unscored_nonneg g : 0 <= unscored g.
Proof. unfold unscored. lia. Qed.

Lemma insert_unscored (g : gmap Pos Z) w t y : <[w := t]> g !! y = None → g !! y = None.
Proof.
  destruct (decide (y = w)) as [->|]; [by rewrite lookup_insert_eq|by rewrite lookup_insert_ne].
Qed.

Lemma unscored_insert_le g w t : unscored (<[w := t]> g) <= unscored g.
Proof.
  unfold unscored. apply inj_le. induction astar_cells as [|a l IH]; [done|].
  rewrite !filter_cons. pose proof (insert_unscored g w t a).
  repeat case_decide; simpl; try lia. tauto.
Qed.

Lemma unscored_insert_lt g w t :
  w ∈ astar_cells → g !! w = None → unscored (<[w := t]> g) + 1 <= unscored g.
Proof.
  intros Hw Hg. unfold unscored.
  assert (length (filter (λ v, <[w:=t]> g !! v = None) astar_cells)
          < length (filter (λ v, g !! v = None) astar_cells))%nat; [|lia].
  apply (filter_length_lt _ _ _ w); [|done|done|by rewrite lookup_insert_eq].
  intros y. apply insert_unscored.
Qed.

Hypothesis Hwf : grid_wf GRID_SIZE grid.

Lemma astep_cells p q : astep p q → q ∈ astar_cells.
Proof. intros Hs. right. apply in_bounds_all_cells. by eapply astep_in_bounds. Qed.

Lemma level_insert_le g w t v :
  (∀ gw, g !! w = Some gw → t <= gw) → t <= 2 * astar_bound + 1 →
  level (<[w := t]> g) v <= level g v.
Proof.
  intros Hlt Hb. unfold level. destruct (decide (v = w)) as [->|].
  - rewrite lookup_insert_eq. simpl. destruct (g !! w) as [gw|]; simpl; [by apply Hlt|done].
  - by rewrite lookup_insert_ne.
Qed.

Lemma relax_one_inv cur w st :
  AInv (Some cur) st → astep cur w →
  ∃ st', relax_one cur w st = Some st' ∧ AInv (Some cur) st' ∧
    is_Some (g_score st' !! w) ∧
    (∀ v, is_Some (g_score st !! v) → is_Some (g_score st' !! v)) ∧
    work st' <= work st.
Proof.
  intros HI Hs.
  destruct (ainv_cur _ _ HI cur eq_refl) as [gc Hgc].
  destruct (grid_at_in_bounds _ _ w Hwf (astep_in_bounds _ _ Hs)) as [e He].
  destruct (tentative_g_cost grid st cur w e gc He Hgc) as [Ht _].
  pose proof (move_cost_bounds w) as Hmc.
  destruct (ainv_scored _ _ HI cur gc Hgc) as (Hgc0 & _ & _ & Hgcb).
  unfold Wumpus4.relax_one. rewrite Ht. simpl.
  set (t := gc + move_cost w) in *.
  destruct (Wumpus4.improves st w t) eqn:Him.
  2: { exists st. split_and!; [done|done| |done|lia].
       unfold Wumpus4.improves in Him. by destruct (g_score st !! w). }
  assert (Hwa : w ≠ agent_pos).
  { intros ->. unfold Wumpus4.improves in Him. destruct (ainv_start _ _ HI) as [Hg0 _].
    rewrite Hg0 in Him. apply bool_decide_eq_true in Him. lia. }
  assert (Hwc : w ≠ cur) by by eapply astep_neq.
  assert (Hlow : ∀ gw, g_score st !! w = Some gw → t < gw).
  { intros gw Hgw. unfold Wumpus4.improves in Him. rewrite Hgw in Him.
    by apply bool_decide_eq_true in Him. }
  assert (Hcell : w ∈ astar_cells) by by eapply astep_cells.
  assert (Htb : t + 2 * unscored (<[w := t]> (g_score st)) <= 2 * astar_bound).
  { destruct (g_score st !! w) as [gw|] eqn:Hgw.
    - destruct (ainv_scored _ _ HI w gw Hgw) as (_ & _ & _ & Hb).
      pose proof (unscored_insert_le (g_score st) w t). specialize (Hlow gw eq_refl). lia.
    - pose proof (unscored_insert_lt (g_score st) w t Hcell Hgw). lia. }
  pose proof (unscored_nonneg (<[w := t]> (g_score st))) as Hun.
  eexists. split; [done|]. split_and!.
  - constructor; simpl.
    + destruct (ainv_start _ _ HI). by rewrite !lookup_insert_ne.
    + intros v u. destruct (decide (v = w)) as [->|Hvw].
      * rewrite !lookup_insert_eq. intros [= <-]. rewrite lookup_insert_ne by done.
        exists gc, t. split_and!; try done. lia.
      * rewrite (lookup_insert_ne _ w v) by done. intros Hcf.
        destruct (ainv_link _ _ HI v u Hcf) as (gu & gv & Hgu & Hgv & Hlt & Hst).
        rewrite (lookup_insert_ne _ w v) by done.
        destruct (decide (u = w)) as [->|Huw].
        -- rewrite lookup_insert_eq. exists t, gv. split_and!; try done.
           specialize (Hlow gu Hgu). lia.
        -- rewrite lookup_insert_ne by done. by exists gu, gv.
    + intros v gv. destruct (decide (v = w)) as [->|Hvw].
      * rewrite !lookup_insert_eq. intros [= <-]. split_and!; [lia|by right|done|done].
      * rewrite !(lookup_insert_ne _ w v) by done. intros Hgv.
        destruct (ainv_scored _ _ HI v gv Hgv) as (? & ? & ? & ?).
        pose proof (unscored_insert_le (g_score st) w t). split_and!; try done. lia.
    + intros x Hx.
      assert (x ∈ open_set st ∨ x.2 = w) as [Hx' | Hx'].
      { destruct (existsb _ _); [by left|]. apply elem_of_app in Hx as [?|Hx]; [by left|].
        apply list_elem_of_singleton in Hx as ->. by right. }
      * destruct (decide (x.2 = w)) as [->|]; [by rewrite lookup_insert_eq|].
        rewrite lookup_insert_ne by done. by apply (ainv_open _ _ HI).
      * rewrite Hx'. by rewrite lookup_insert_eq.
    + intros v x Hv Hno Hvc Hvx.
      assert (Hvw : v ≠ w).
      { intros ->. apply Hno. destruct (existsb _ _) eqn:Hex.
        - apply existsb_exists in Hex as (y & Hy & Heq). apply bool_decide_eq_true in Heq.
          apply list_elem_of_fmap. exists y. split; [done|]. by apply list_elem_of_In.
        - rewrite fmap_app. apply elem_of_app. right. simpl. left. }
      rewrite lookup_insert_ne in Hv by done.
      assert (is_Some (g_score st !! x)).
      { apply (ainv_closed _ _ HI v x); try done. intros Hin. apply Hno.
        destruct (existsb _ _); [done|]. rewrite fmap_app. apply elem_of_app. by left. }
      destruct (decide (x = w)) as [->|]; [by rewrite lookup_insert_eq|].
      by rewrite lookup_insert_ne.
    + intros Hg.
      destruct (decide (gold_pos = w)) as [->|Hgw].
      * destruct (existsb _ _) eqn:Hex.
        -- apply existsb_exists in Hex as (y & Hy & Heq). apply bool_decide_eq_true in Heq.
           apply list_elem_of_fmap. exists y. split; [done|]. by apply list_elem_of_In.
        -- rewrite fmap_app. apply elem_of_app. right. simpl. left.
      * rewrite lookup_insert_ne in Hg by done. pose proof (ainv_gold _ _ HI Hg).
        destruct (existsb _ _); [done|]. rewrite fmap_app. apply elem_of_app. by left.
    + intros c [= <-]. rewrite lookup_insert_ne by done. by eexists.
  - simpl. by rewrite lookup_insert_eq.
  - simpl. intros v Hv. destruct (decide (v = w)) as [->|]; [by rewrite lookup_insert_eq|].
    by rewrite lookup_insert_ne.
  - unfold work. cbn [Wumpus4.g_score Wumpus4.open_set].
    assert (sumZ (level (<[w:=t]> (g_score st)) <$> astar_cells)
            < sumZ (level (g_score st) <$> astar_cells)).
    { apply (sumZ_lt _ _ _ w); [|done|].
      - intros x _. apply level_insert_le; [|lia]. intros gw Hgw. specialize (Hlow gw Hgw). lia.
      - unfold level. rewrite lookup_insert_eq. simpl.
        destruct (g_score st !! w) as [gw|]; simpl; [by apply Hlow|lia]. }
    destruct (existsb _ _); [lia|]. rewrite length_app. cbn [length]. lia.
Qed.

Lemma relax_inv nbrs cur st :
  AInv (Some cur) st → Forall (astep cur) nbrs →
  ∃ st', relax nbrs cur st = Some st' ∧ AInv (Some cur) st' ∧
    Forall (λ w, is_Some (g_score st' !! w)) nbrs ∧
    (∀ v, is_Some (g_score st !! v) → is_Some (g_score st' !! v)) ∧
    work st' <= work st.
Proof.
  revert st. induction nbrs as [|w nbrs IH]; intros st HI Hall.
  - exists st. by split_and!.
  - apply Forall_cons in Hall as [Hw Hall].
    destruct (relax_one_inv cur w st HI Hw) as (st1 & Hr1 & HI1 & Hw1 & Hmono1 & Hwork1).
    destruct (IH st1 HI1 Hall) as (st2 & Hr2 & HI2 & Hn2 & Hmono2 & Hwork2).
    exists st2. simpl. rewrite Hr1. simpl. split_and!; try done.
    + apply Forall_cons. split; [by apply Hmono2|done].
    + intros v Hv. by apply Hmono2, Hmono1.
    + lia.
Qed.

Lemma level_bounds cur st v :
  AInv cur st → 0 <= level (g_score st) v <= 2 * astar_bound + 1.
Proof.
  intros HI. unfold level. destruct (g_score st !! v) as [gv|] eqn:Hg; simpl.
  - destruct (ainv_scored _ _ HI v gv Hg) as (? & _ & _ & ?).
    pose proof (unscored_nonneg (g_score st)). lia.
  - pose proof astar_cells_length. lia.
Qed.

Lemma work_nonneg cur st : AInv cur st → 0 <= work st.
Proof.
  intros HI. unfold work.
  pose proof (sumZ_bound (level (g_score st)) astar_cells (2 * astar_bound + 1)
                (λ x _, level_bounds cur st x HI)). lia.
Qed.

(** Following [came_from] from a scored cell leads back to the agent
    along moves the search may take, through cells of ever lower score. *)
Lemma reconstruct_ok cur st fuel v gv acc :
  AInv cur st → g_score st !! v = Some gv → gv < Z.of_nat fuel →
  ∃ p, Wumpus4.reconstruct fuel (came_from st) v acc = Return (acc ++ p) ∧
       apath agent_pos v (reverse (p ++ [agent_pos])) ∧
       NoDup (p ++ [agent_pos]) ∧
       Forall (λ x, ∃ gx, g_score st !! x = Some gx ∧ gx <= gv) (p ++ [agent_pos]).
Proof.
  intros HI. revert v gv acc. induction fuel as [|fuel IH]; intros v gv acc Hg Hlt.
  - destruct (ainv_scored _ _ HI v gv Hg). lia.
  - simpl. destruct (came_from st !! v) as [u|] eqn:Hcf.
    + destruct (ainv_link _ _ HI v u Hcf) as (gu & gv' & Hgu & Hgv & Hlt' & Hst).
      assert (gv' = gv) as -> by congruence.
      destruct (IH u gu (acc ++ [v]) Hgu ltac:(lia)) as (p & -> & Hp & Hnd & Hall).
      exists (v :: p). split; [by rewrite <- app_assoc|]. split_and!.
      * simpl. rewrite reverse_cons. by eapply apath_snoc.
      * simpl. apply NoDup_cons. split; [|done]. intros Hin.
        rewrite Forall_forall in Hall. destruct (Hall v Hin) as (gx & Hgx & Hle).
        assert (gx = gv) by congruence. lia.
      * simpl. constructor; [exists gv; split; [done|lia]|].
        eapply Forall_impl; [exact Hall|]. intros x (gx & Hgx & Hle).
        exists gx. split; [done|lia].
    + destruct (ainv_scored _ _ HI v gv Hg) as (_ & [->|[? ?]] & _); [|congruence].
      exists []. split; [by rewrite app_nil_r|]. split_and!; [done|apply NoDup_singleton|].
      constructor; [|constructor]. exists gv. split; [done|lia].
Qed.

(** Once the open set is empty every reachable cell has a score. *)
Lemma closed_reach st v :
  AInv None st → open_set st = [] → reach v → is_Some (g_score st !! v).
Proof.
  intros HI Ho. induction 1 as [|p q _ IH Hs].
  - destruct (ainv_start _ _ HI) as [-> _]. by eexists.
  - apply (ainv_closed _ _ HI p q); try done. rewrite Ho. apply not_elem_of_nil.
Qed.

(** What [calculate_path] answers. *)
Definition astar_post (r : outcome (list Pos)) : Prop :=
  ∃ path, r = Return path ∧
    ((path = [] ∧ ¬ reach gold_pos) ∨ (apath agent_pos gold_pos path ∧ NoDup path)).

Lemma astar_loop_ok fuel st :
  AInv None st → work st < Z.of_nat fuel →
  astar_post (Wumpus4.astar_loop GRID_SIZE grid agent_pos gold_pos fuel st).
Proof.
  revert st. induction fuel as [|fuel IH]; intros st HI Hw.
  - pose proof (work_nonneg _ _ HI). lia.
  - cbn [Wumpus4.astar_loop]. destruct (open_set st) as [|x xs] eqn:Ho.
    + exists []. split; [done|]. left. split; [done|]. intros Hr.
      pose proof (ainv_gold _ _ HI (closed_reach _ _ HI Ho Hr)) as Hin.
      rewrite Ho in Hin. by apply elem_of_nil in Hin.
    + set (current := (Wumpus4.min_by_key x xs).2).
      assert (Hcur : Wumpus4.min_by_key x xs ∈ open_set st).
      { rewrite Ho. apply min_by_key_in. }
      destruct (ainv_open _ _ HI _ Hcur) as [gc Hgc]. fold current in Hgc.
      case_decide as Hgold.
      * destruct (ainv_scored _ _ HI _ _ Hgc) as (? & _ & _ & ?).
        pose proof (unscored_nonneg (g_score st)).
        destruct (reconstruct_ok None st (Wumpus4.reconstruct_fuel GRID_SIZE) current gc [] HI Hgc)
          as (p & -> & Hp & Hnd & _).
        { unfold Wumpus4.reconstruct_fuel, astar_bound in *. lia. }
        eexists. split; [done|]. right. rewrite <- Hgold. split; [done|].
        by rewrite reverse_Permutation.
      * destruct (get_neighbors_wf GRID_SIZE grid current Hwf) as [nbrs Hn]. rewrite Hn.
        set (st1 := Wumpus4.mkAStar _ _ _ _).
        assert (HI1 : AInv (Some current) st1).
        { constructor; subst st1; cbn [Wumpus4.open_set Wumpus4.came_from Wumpus4.g_score].
          - apply HI.
          - apply HI.
          - apply HI.
          - intros y Hy. rewrite <- Ho in Hy. apply list_elem_of_filter in Hy as [_ Hy].
            by apply (ainv_open _ _ HI).
          - intros v w Hv Hno Hvc Hvw. apply (ainv_closed _ _ HI v w); try done.
            intros Hin. apply Hno. apply list_elem_of_fmap in Hin as (y & -> & Hy).
            apply list_elem_of_fmap. exists y. split; [done|]. rewrite <- Ho.
            apply list_elem_of_filter. split; [|done]. intros Heq. apply Hvc. by f_equal.
          - intros Hg. pose proof (ainv_gold _ _ HI Hg) as Hin.
            apply list_elem_of_fmap in Hin as (y & Hy2 & Hy).
            apply list_elem_of_fmap. exists y. split; [done|]. rewrite <- Ho.
            apply list_elem_of_filter. split; [|done]. intros Heq. apply Hgold. congruence.
          - intros c [= <-]. by eexists. }
        assert (Hw1 : work st1 < work st).
        { unfold work. subst st1. cbn [Wumpus4.open_set Wumpus4.g_score]. rewrite <- Ho.
          assert (length (filter (λ y : Z * Pos, y.2 ≠ current) (open_set st))
                  < length (open_set st))%nat as Hlt; [|lia].
          apply (filter_length_drop _ _ (Wumpus4.min_by_key x xs)); [done|]. by intros ?. }
        destruct (relax_inv nbrs current st1 HI1) as (st2 & -> & HI2 & Hn2 & Hmono & Hw2).
        { apply Forall_forall. intros w Hw'. by apply (elem_of_get_neighbors _ _ _ _ _ Hn). }
        apply IH; [|lia]. constructor; try apply HI2.
        -- intros v w Hv Hno _ Hvw. destruct (decide (v = current)) as [->|Hvc].
           ++ rewrite Forall_forall in Hn2. apply Hn2.
              by apply (elem_of_get_neighbors _ _ _ _ _ Hn).
           ++ apply (ainv_closed _ _ HI2 v w); try done. congruence.
        -- done.
Qed.

Lemma astar_init_inv : AInv None (Wumpus4.astar_init agent_pos gold_pos).
Proof.
  constructor; unfold Wumpus4.astar_init; cbn [Wumpus4.open_set Wumpus4.came_from Wumpus4.g_score].
  - by rewrite lookup_singleton_eq, lookup_empty.
  - intros v u. by rewrite lookup_empty.
  - intros v gv [<- <-]%lookup_singleton_Some. split_and!; [done|by left|left|].
    unfold unscored. pose proof (length_filter (λ v, ({[agent_pos := 0]} : gmap Pos Z) !! v = None) astar_cells).
    pose proof astar_cells_length. lia.
  - intros x ->%list_elem_of_singleton. simpl. rewrite lookup_singleton_eq. by eexists.
  - intros v w [gv [<- _]%lookup_singleton_Some] Hno. destruct Hno. simpl. left.
  - intros [gv [Heq _]%lookup_singleton_Some]. rewrite <- Heq. simpl. left.
  - done.
Qed.

Lemma astar_init_work :
  work (Wumpus4.astar_init agent_pos gold_pos) < Z.of_nat (Wumpus4.astar_fuel GRID_SIZE).
Proof.
  unfold work.
  pose proof (sumZ_bound (level (g_score (Wumpus4.astar_init agent_pos gold_pos)))
    astar_cells (2 * astar_bound + 1) (λ x _, level_bounds None _ x astar_init_inv)) as Hs.
  rewrite astar_cells_length in Hs. unfold Wumpus4.astar_fuel.
  cbn [Wumpus4.open_set Wumpus4.astar_init length]. unfold astar_bound in *.
  pose proof (Z.square_nonneg GRID_SIZE). nia.
Qed.

Lemma calculate_path_ok :
  0 < GRID_SIZE →
  astar_post (Wumpus4.calculate_path GRID_SIZE grid agent_pos gold_pos).
Proof.
  intros Hn.
  assert (Hg : grid ≠ []).
  { intros Hg. destruct Hwf as [Hlen _]. rewrite Hg in Hlen. simpl in Hlen. lia. }
  assert (Hm : ∀ (g' : Grid) (r : outcome (list Pos)),
             g' ≠ [] → match g' with [] => Return [] | _ => r end = r).
  { by intros [|]. }
  unfold Wumpus4.calculate_path. rewrite Hm by done.
  apply astar_loop_ok; [apply astar_init_inv|apply astar_init_work].
Qed.

End AStarInv.

(** ** [wumpus4.py]: the heuristic never overestimates *)

Lemma heuristic_neighbour p q t :
  q ∈ Wumpus4.neighbours_of p → Wumpus4.heuristic p t <= 1 + Wumpus4.heuristic q t.
Proof.
  unfold Wumpus4.neighbours_of, Wumpus4.DIRS, Wumpus4.heuristic.
  destruct p as [r c], t as [tr tc]. simpl.
  intros Hin. repeat (apply elem_of_cons in Hin as [->|Hin]; [simpl; lia|]).
  by apply elem_of_nil in Hin.
Qed.

Lemma heuristic_chain GRID_SIZE grid t l : ∀ s,
  Wumpus4.is_path GRID_SIZE grid s t l →
  Wumpus4.heuristic s t <= Z.of_nat (length l) - 1 ∧
  Z.of_nat (length l) - 1 <= Wumpus4.path_cost grid l.
Proof.
  induction l as [|p l IH]; intros s (Hh & Hl & Hc); [done|].
  injection Hh as ->. destruct l as [|q l].
  - injection Hl as ->. unfold Wumpus4.heuristic, Wumpus4.path_cost. simpl. lia.
  - destruct Hc as [[Hn _] Hc].
    destruct (IH q) as [IH1 IH2]; [by split_and!|].
    pose proof (heuristic_neighbour s q t Hn).
    pose proof (move_cost_bounds grid q).
    unfold Wumpus4.path_cost in *. cbn [tail foldr length] in *. lia.
Qed.

(** ** [snake3.py]: the snake stays valid and reaches the food *)

Lemma NoDup_removelast {A} (l : list A) : NoDup l → NoDup (removelast l).
Proof.
  induction l as [|a l IH] using rev_ind; [done|]. rewrite removelast_last.
  by intros [? _]%NoDup_app.
Qed.

Lemma elem_of_removelast {A} (l : list A) x : x ∈ removelast l → x ∈ l.
Proof.
  induction l as [|a l IH] using rev_ind; [done|]. rewrite removelast_last.
  intros. apply elem_of_app. by left.
Qed.

Lemma length_removelast {A} (l : list A) : length (removelast l) = pred (length l).
Proof.
  induction l as [|a l IH] using rev_ind; [done|]. rewrite removelast_last, length_app.
  simpl. lia.
Qed.

Section SnakeMoveFacts.
Variables WIDTH HEIGHT GRID_SIZE : Z.
Variable rand : nat → Z.

#[local] Abbreviation in_window := (Snake3.in_window WIDTH HEIGHT).
#[local] Abbreviation move_snake := (Snake3.move_snake WIDTH HEIGHT GRID_SIZE rand).
#[local] Abbreviation tick := (Snake3.tick WIDTH HEIGHT GRID_SIZE rand).
#[local] Abbreviation ticks := (Snake3.ticks WIDTH HEIGHT GRID_SIZE rand).
#[local] Abbreviation sroute := (Snake3.route WIDTH HEIGHT GRID_SIZE).
#[local] Abbreviation sfree := (Snake3.free WIDTH HEIGHT).
#[local] Abbreviation target := (Snake3.target GRID_SIZE).

Lemma random_food_spec i f j :
  0 < GRID_SIZE →
  Snake3.random_food WIDTH HEIGHT GRID_SIZE rand i = Some (f, j) →
  in_window f ∧ f.1 `mod` GRID_SIZE = 0 ∧ f.2 `mod` GRID_SIZE = 0.
Proof.
  intros HG. unfold Snake3.random_food, Snake3.floordiv.
  destruct (decide (GRID_SIZE = 0)) as [|_]; [lia|]. simpl.
  destruct (randint rand 0 (WIDTH `div` GRID_SIZE - 1) i) as [[x i1]|] eqn:Hx; simpl; [|done].
  destruct (randint rand 0 (HEIGHT `div` GRID_SIZE - 1) i1) as [[y i2]|] eqn:Hy; simpl; [|done].
  intros [= <- <-].
  apply randint_range in Hx. apply randint_range in Hy.
  pose proof (Z.mul_div_le WIDTH GRID_SIZE HG).
  pose proof (Z.mul_div_le HEIGHT GRID_SIZE HG).
  unfold Snake3.in_window. simpl. rewrite !Z.mod_mul by lia. split_and!; try done; nia.
Qed.

Lemma random_food_total i :
  0 < GRID_SIZE <= WIDTH → GRID_SIZE <= HEIGHT →
  is_Some (Snake3.random_food WIDTH HEIGHT GRID_SIZE rand i).
Proof.
  intros HG HH. unfold Snake3.random_food, Snake3.floordiv.
  destruct (decide (GRID_SIZE = 0)) as [|_]; [lia|]. simpl.
  assert (1 <= WIDTH `div` GRID_SIZE) by (apply Z.div_le_lower_bound; lia).
  assert (1 <= HEIGHT `div` GRID_SIZE) by (apply Z.div_le_lower_bound; lia).
  destruct (randint_total rand (WIDTH `div` GRID_SIZE) i) as [x ->]; [lia|].
  simpl.
  destruct (randint_total rand (HEIGHT `div` GRID_SIZE) (S i)) as [y ->]; [lia|].
  by eexists.
Qed.

(** The snake neither overlaps itself nor leaves the window. *)
Lemma move_snake_valid g g' :
  0 < GRID_SIZE →
  NoDup (Snake3.snake g) → Forall in_window (Snake3.snake g) → in_window (Snake3.food g) →
  move_snake g = Some g' →
  NoDup (Snake3.snake g') ∧ Forall in_window (Snake3.snake g') ∧
  in_window (Snake3.food g') ∧
  (length (Snake3.snake g) ≤ length (Snake3.snake g') ≤ S (length (Snake3.snake g)))%nat ∧
  (length (Snake3.snake g') = S (length (Snake3.snake g)) ↔
     ∃ h b, Snake3.snake g = h :: b ∧ target h (Snake3.direction g) = Snake3.food g ∧
            Snake3.food g ∉ Snake3.snake g).
Proof.
  intros HG Hnd Hwin Hfood. unfold Snake3.move_snake.
  destruct (Snake3.snake g) as [|h b] eqn:Hs.
  { intros [= <-]. rewrite Hs. split_and!; try done; [simpl; lia|].
    split; [simpl; lia|]. by intros (? & ? & ? & _). }
  set (q := target h (Snake3.direction g)).
  destruct (decide (q ∈ h :: b ∨ ¬ in_window q)) as [Hblocked|Hfree].
  { intros [= <-]. simpl. split_and!; try done; [simpl; lia..|].
    split; [simpl; lia|]. intros (h' & b' & [= <- <-] & Ht & Hno).
    fold q in Ht. rewrite <- Ht in Hno, Hfood. tauto. }
  assert (Hq : q ∉ h :: b) by tauto.
  assert (Hqw : in_window q) by (destruct (decide (in_window q)); tauto).
  destruct (decide (q = Snake3.food g)) as [Heat|Hno].
  - destruct (Snake3.random_food _ _ _ _ _) as [[f i]|] eqn:Hf; simpl; [|done].
    intros [= <-]. simpl. apply random_food_spec in Hf as (Hfw & _); [|done].
    split_and!; try done.
    + by apply NoDup_cons.
    + by apply Forall_cons.
    + lia.
    + split; [|done]. intros _. exists h, b. split_and!; [done|done|by rewrite <- Heat].
  - remember (removelast (q :: h :: b)) as l' eqn:El.
    intros [= <-]. cbn [Snake3.snake Snake3.food]. subst l'.
    assert (Hnd' : NoDup (q :: h :: b)) by by apply NoDup_cons.
    split_and!; try done.
    + by apply NoDup_removelast.
    + apply Forall_forall. intros x Hx%elem_of_removelast.
      revert x Hx. apply Forall_forall. by apply Forall_cons.
    + rewrite length_removelast. simpl. lia.
    + rewrite length_removelast. simpl. lia.
    + rewrite length_removelast. split; [simpl; lia|].
      intros (h' & b' & [= <- <-] & Ht & _). done.
Qed.

(** *** Routes when the snake has moved *)

Lemma route_antitone (snake snake' : list Pos) p path v :
  (∀ x, x ∈ snake' → x ∈ snake) →
  sroute snake p path = Some v → sroute snake' p path = Some v.
Proof.
  intros Hsub. revert p. induction path as [|d path IH]; intros p; simpl; [done|].
  destruct (decide (sfree snake (target p d))) as [Hf|]; [|done]. intros Hr. rewrite decide_True; [by apply IH|].
  destruct Hf as (? & ? & Hn). split_and!; try lia. intros Hin. by apply Hn, Hsub.
Qed.

(** A route can be cut so that it never comes back to a given position. *)
Lemma route_avoiding (snake : list Pos) q v path : ∀ p,
  sroute snake p path = Some v →
  (∃ b, (length b ≤ length path)%nat ∧ sroute (q :: snake) p b = Some v) ∨
  (∃ b, (length b < length path)%nat ∧ sroute (q :: snake) q b = Some v).
Proof.
  induction path as [|d path IH]; intros p; simpl.
  - intros [= <-]. left. by exists [].
  - case_decide as Hf; [|done]. intros Hr.
    destruct (IH _ Hr) as [(b & Hlen & Hb)|(b & Hlen & Hb)].
    + destruct (decide (target p d = q)) as [Heq|Hne].
      * right. exists b. rewrite Heq in Hb. split; [lia|done].
      * left. exists (d :: b). split; [simpl; lia|]. simpl.
        rewrite decide_True; [done|]. destruct Hf as (? & ? & Hn).
        split_and!; try lia. rewrite not_elem_of_cons. done.
    + right. exists b. split; [lia|done].
Qed.

Lemma bfs_search_shortest start body food path :
  sroute (start :: body) start path = Some food →
  ∃ p, Snake3.bfs_search WIDTH HEIGHT GRID_SIZE (start :: body) food = Return p ∧
       sroute (start :: body) start p = Some food ∧ (length p ≤ length path)%nat.
Proof.
  intros Hr. assert (Hin : start ∈ start :: body) by left.
  pose proof (snake_loop_ok WIDTH HEIGHT GRID_SIZE _ food start Hin) as Hok.
  unfold Snake3.bfs_search.
  destruct (Snake3.bfs_loop _ _ _ _ _ _ _ _) as [p| |]; simpl in Hok; [|done|done].
  exists p. split; [done|]. destruct Hok as [[Hp Hmin]|[_ Hno]].
  - split; [done|]. apply Hmin. by eapply route_walk.
  - destruct (Hno (length path)). by eapply route_walk.
Qed.

(** One round of the loop while the food can be reached: the snake eats
    it, or moves on and keeps a route that is shorter by a move. *)
Lemma tick_progress g h b path :
  0 < GRID_SIZE <= WIDTH → GRID_SIZE <= HEIGHT →
  Snake3.running g = true → Snake3.paused g = false →
  Snake3.snake g = h :: b → Snake3.food g ≠ h →
  sroute (h :: b) h path = Some (Snake3.food g) →
  ∃ g', tick g = Return g' ∧ Snake3.running g' = true ∧ Snake3.paused g' = false ∧
    ((head (Snake3.snake g') = Some (Snake3.food g) ∧
      length (Snake3.snake g') = S (length (Snake3.snake g))) ∨
     (Snake3.food g' = Snake3.food g ∧
      length (Snake3.snake g') = length (Snake3.snake g) ∧
      ∃ h' b' path', Snake3.snake g' = h' :: b' ∧ h' ≠ Snake3.food g ∧
        sroute (h' :: b') h' path' = Some (Snake3.food g) ∧
        (S (length path') ≤ length path)%nat)).
Proof.
  intros HG HH Hrun Hp Hs Hfh Hr. unfold Snake3.tick. rewrite Hrun, Hp, Hs. cbn [andb negb].
  destruct (bfs_search_shortest h b (Snake3.food g) path Hr) as (p & -> & Hrp & Hlen).
  destruct p as [|d p]; [simpl in Hrp; congruence|].
  simpl in Hrp. case_decide as Hf; [|done].
  unfold Snake3.move_snake. cbn [Snake3.snake Snake3.direction Snake3.food
    Snake3.running Snake3.paused Snake3.frames Snake3.rng].
  set (q := target h d) in *. destruct Hf as (Hx & Hy & Hq).
  rewrite decide_False; [|unfold Snake3.in_window; tauto].
  destruct (decide (q = Snake3.food g)) as [Heat|Hno].
  - destruct (random_food_total (Snake3.rng g) HG HH) as [[f i] ->]. simpl.
    eexists. split; [done|]. simpl. split_and!; [done..|]. left. by rewrite Heat.
  - eexists. split; [done|]. cbn [Snake3.snake Snake3.food Snake3.running Snake3.paused].
    split_and!; [done..|]. right. split_and!; [done|by rewrite length_removelast|].
    exists q, (removelast (h :: b)).
    destruct (route_avoiding (h :: b) q _ _ _ Hrp) as [(p' & Hl' & Hp')|(p' & Hl' & Hp')].
    + exists p'. split_and!; [done|done| |simpl in Hlen; lia].
      eapply route_antitone; [|exact Hp']. intros x [->|Hin]%elem_of_cons; [left|right].
      by apply elem_of_removelast.
    + exists p'. split_and!; [done|done| |simpl in Hlen; lia].
      eapply route_antitone; [|exact Hp']. intros x [->|Hin]%elem_of_cons; [left|right].
      by apply elem_of_removelast.
Qed.

Lemma snake_reaches_food_aux n : ∀ g h b path,
  0 < GRID_SIZE <= WIDTH → GRID_SIZE <= HEIGHT →
  Snake3.running g = true → Snake3.paused g = false →
  Snake3.snake g = h :: b → Snake3.food g ≠ h →
  sroute (h :: b) h path = Some (Snake3.food g) → (length path ≤ n)%nat →
  ∃ k g', (1 ≤ k ≤ n)%nat ∧ ticks k g = Return g' ∧ Snake3.running g' = true ∧
    head (Snake3.snake g') = Some (Snake3.food g) ∧
    length (Snake3.snake g') = S (length (Snake3.snake g)).
Proof.
  induction n as [|n IH]; intros g h b path HG HH Hrun Hp Hs Hfh Hr Hlen.
  - destruct path; [simpl in Hr; congruence|simpl in Hlen; lia].
  - destruct (tick_progress g h b path HG HH Hrun Hp Hs Hfh Hr)
      as (g1 & Ht & Hrun1 & Hp1 & [[Hhd Hl]|(Hfood & Hl & h' & b' & path' & Hs1 & Hne & Hr1 & Hlen1)]).
    + exists 1%nat, g1. split_and!; [lia|lia| |done..]. simpl. by rewrite Ht.
    + destruct (IH g1 h' b' path' HG HH Hrun1 Hp1 Hs1) as (k & g' & Hk & Htk & Hrun' & Hhd & Hl');
        [by rewrite Hfood|by rewrite Hfood|lia|].
      exists (S k), g'. split_and!; [lia|lia| |done|by rewrite <- Hfood|lia].
      simpl. by rewrite Ht.
Qed.

End SnakeMoveFacts.

(** *** Routes on a window with a snake of one cell *)

Section SnakeOpenFacts.
Variables WIDTH HEIGHT GRID_SIZE : Z.

#[local] Abbreviation sroute := (Snake3.route WIDTH HEIGHT GRID_SIZE).
#[local] Abbreviation sfree := (Snake3.free WIDTH HEIGHT).
#[local] Abbreviation target := (Snake3.target GRID_SIZE).

Lemma route_app snake a b : ∀ p,
  sroute snake p (a ++ b) = sroute snake p a ≫= λ v, sroute snake v b.
Proof.
  induction a as [|d a IH]; intros p; simpl; [done|].
  destruct (decide (sfree snake (target p d))); [apply IH|done].
Qed.

(** [n] moves in the same direction. *)
Lemma route_straight snake d n : ∀ p,
  (∀ k, 1 <= k <= Z.of_nat n →
     sfree snake (p.1 + k * ((Snake3.DIRECTIONS d).1 * GRID_SIZE),
                  p.2 + k * ((Snake3.DIRECTIONS d).2 * GRID_SIZE))) →
  sroute snake p (replicate n d)
  = Some (p.1 + Z.of_nat n * ((Snake3.DIRECTIONS d).1 * GRID_SIZE),
          p.2 + Z.of_nat n * ((Snake3.DIRECTIONS d).2 * GRID_SIZE)).
Proof.
  induction n as [|n IH]; intros p Hfree.
  - simpl. destruct p. f_equal. simpl. f_equal; lia.
  - cbn [replicate Snake3.route].
    assert (Hf : sfree snake (target p d)).
    { specialize (Hfree 1 ltac:(lia)). unfold Snake3.target.
      by rewrite !Z.mul_1_l in Hfree. }
    rewrite decide_True by done. rewrite IH.
    + unfold Snake3.target. cbn [fst snd]. f_equal. f_equal; lia.
    + intros k Hk. specialize (Hfree (k + 1) ltac:(lia)).
      unfold Snake3.target. cbn [fst snd].
      replace (p.1 + (Snake3.DIRECTIONS d).1 * GRID_SIZE
               + k * ((Snake3.DIRECTIONS d).1 * GRID_SIZE))
        with (p.1 + (k + 1) * ((Snake3.DIRECTIONS d).1 * GRID_SIZE)) by lia.
      replace (p.2 + (Snake3.DIRECTIONS d).2 * GRID_SIZE
               + k * ((Snake3.DIRECTIONS d).2 * GRID_SIZE))
        with (p.2 + (k + 1) * ((Snake3.DIRECTIONS d).2 * GRID_SIZE)) by lia.
      done.
Qed.

(** With a snake of one cell every position of the window that lies a
    whole number of steps away is reached by going along the row, then
    along the column. *)
Lemma open_route h f :
  0 < GRID_SIZE →
  Snake3.in_window WIDTH HEIGHT h → Snake3.in_window WIDTH HEIGHT f →
  (GRID_SIZE | f.1 - h.1) → (GRID_SIZE | f.2 - h.2) →
  ∃ path, sroute [h] h path = Some f ∧
    Z.of_nat (length path) * GRID_SIZE = Z.abs (f.1 - h.1) + Z.abs (f.2 - h.2).
Proof.
  intros HG [Hh1 Hh2] [Hf1 Hf2] [a Ha] [b Hb].
  set (dh := if decide (0 <= a) then Snake3.RIGHT else Snake3.LEFT).
  set (dv := if decide (0 <= b) then Snake3.DOWN else Snake3.UP).
  exists (replicate (Z.to_nat (Z.abs a)) dh ++ replicate (Z.to_nat (Z.abs b)) dv).
  assert (Hmid : sroute [h] h (replicate (Z.to_nat (Z.abs a)) dh) = Some (f.1, h.2)).
  { rewrite route_straight.
    - f_equal. unfold dh. case_decide; simpl; f_equal; nia.
    - intros k Hk. unfold Snake3.free. cbn [fst snd]. split; [|split].
      + unfold dh. case_decide; simpl; nia.
      + unfold dh. case_decide; simpl; nia.
      + rewrite not_elem_of_cons. split; [|apply not_elem_of_nil].
        destruct h as [h1 h2]. intros [= Heq _]. unfold dh in Heq. simpl in Heq.
        case_decide; simpl in Heq; nia. }
  assert (Hend : sroute [h] (f.1, h.2) (replicate (Z.to_nat (Z.abs b)) dv) = Some f).
  { rewrite route_straight.
    - destruct f as [f1 f2]. f_equal. unfold dv. cbn [fst snd] in *.
      case_decide; simpl; f_equal; nia.
    - intros k Hk. unfold Snake3.free. cbn [fst snd]. split; [|split].
      + unfold dv. case_decide; simpl; nia.
      + unfold dv. case_decide; simpl; nia.
      + rewrite not_elem_of_cons. split; [|apply not_elem_of_nil].
        destruct h as [h1 h2]. intros [= _ Heq]. unfold dv in Heq. simpl in Heq.
        case_decide; simpl in Heq; nia. }
  split.
  - rewrite route_app, Hmid. simpl. exact Hend.
  - rewrite length_app, !length_replicate. nia.
Qed.

End SnakeOpenFacts.

(** ** [wumpus3.py]: the random grid and the animation of the agent *)

Section RandomFacts.
Variable GRID_SIZE : Z.
Variable rand : nat → Z.

#[local] Abbreviation random_wumpus := (Wumpus3.random_wumpus GRID_SIZE rand).
#[local] Abbreviation random_pits := (Wumpus3.random_pits GRID_SIZE rand).

Lemma random_wumpus_spec fuel a g : ∀ i pos i',
  random_wumpus fuel a g i = Return (pos, i') →
  in_bounds GRID_SIZE pos ∧ pos ≠ a ∧ pos ≠ g.
Proof.
  induction fuel as [|fuel IH]; intros i pos i'; simpl; [done|].
  destruct (randint rand 0 (GRID_SIZE - 1) i) as [[x i1]|] eqn:Hx; [|done].
  destruct (randint rand 0 (GRID_SIZE - 1) i1) as [[y i2]|] eqn:Hy; [|done].
  apply randint_range in Hx, Hy. case_decide as Hd; [|apply IH].
  intros [= <- _]. by split.
Qed.

Lemma random_wumpus_safe fuel a g : ∀ i,
  1 <= GRID_SIZE → random_wumpus fuel a g i ≠ Raise.
Proof.
  induction fuel as [|fuel IH]; intros i Hn; simpl; [done|].
  destruct (randint_total rand GRID_SIZE i Hn) as [x ->].
  destruct (randint_total rand GRID_SIZE (S i) Hn) as [y ->].
  case_decide; [done|by apply IH].
Qed.

Lemma random_pits_spec fuel a g w : ∀ pits i pits' i',
  random_pits fuel a g w pits i = Return (pits', i') →
  (size pits ≤ 9)%nat →
  (∀ p, p ∈ pits → in_bounds GRID_SIZE p ∧ p ≠ a ∧ p ≠ g ∧ p ≠ w) →
  size pits' = 9%nat ∧
  (∀ p, p ∈ pits' → in_bounds GRID_SIZE p ∧ p ≠ a ∧ p ≠ g ∧ p ≠ w).
Proof.
  induction fuel as [|fuel IH]; intros pits i pits' i'; simpl; [done|].
  case_decide as Hlt.
  2:{ intros [= <- _] Hle Hall. split; [lia|done]. }
  destruct (randint rand 0 (GRID_SIZE - 1) i) as [[x i1]|] eqn:Hx; [|done].
  destruct (randint rand 0 (GRID_SIZE - 1) i1) as [[y i2]|] eqn:Hy; [|done].
  apply randint_range in Hx, Hy. intros Hr Hle Hall. apply IH in Hr; [done| |].
  - case_decide; [|done]. destruct (decide ((x, y) ∈ pits)) as [Hin|Hin].
    + replace ({[(x, y)]} ∪ pits) with pits by set_solver. lia.
    + rewrite size_union by set_solver. rewrite size_singleton. lia.
  - case_decide as Hd; [|done]. intros p [->%elem_of_singleton|Hp]%elem_of_union; [|by apply Hall].
    by split.
Qed.

Lemma random_pits_safe fuel a g w : ∀ pits i,
  1 <= GRID_SIZE → random_pits fuel a g w pits i ≠ Raise.
Proof.
  induction fuel as [|fuel IH]; intros pits i Hn; simpl; [done|].
  case_decide; [|done].
  destruct (randint_total rand GRID_SIZE i Hn) as [x ->].
  destruct (randint_total rand GRID_SIZE (S i) Hn) as [y ->].
  by apply IH.
Qed.

(** What a cell of the random grid holds. *)
Definition random_cell (R : Wumpus3.Random) (q : Pos) : Entity :=
  if decide (q ∈ Wumpus3.r_pits R) then PIT
  else if decide (q = Wumpus3.r_wumpus R) then WUMPUS
  else if decide (q = Wumpus3.r_gold R) then GOLD
  else if decide (q = Wumpus3.r_agent R) then AGENT
  else EMPTY.

Lemma generate_random_grid_spec fuel i :
  1 <= GRID_SIZE →
  Wumpus3.generate_random_grid GRID_SIZE rand fuel i ≠ Raise ∧
  ∀ R, Wumpus3.generate_random_grid GRID_SIZE rand fuel i = Return R →
    Wumpus3.r_agent R = (0, 0) ∧ Wumpus3.r_gold R = (GRID_SIZE - 1, GRID_SIZE - 1) ∧
    Wumpus3.r_agent R ≠ Wumpus3.r_gold R ∧
    in_bounds GRID_SIZE (Wumpus3.r_wumpus R) ∧
    Wumpus3.r_wumpus R ≠ Wumpus3.r_agent R ∧ Wumpus3.r_wumpus R ≠ Wumpus3.r_gold R ∧
    size (Wumpus3.r_pits R) = 9%nat ∧
    (∀ p, p ∈ Wumpus3.r_pits R →
       in_bounds GRID_SIZE p ∧ p ≠ Wumpus3.r_agent R ∧ p ≠ Wumpus3.r_gold R ∧
       p ≠ Wumpus3.r_wumpus R) ∧
    grid_wf GRID_SIZE (Wumpus3.r_grid R) ∧
    ∀ q, in_bounds GRID_SIZE q →
      grid_at (Wumpus3.r_grid R) q.1 q.2 = Some (random_cell R q).
Proof.
  intros Hn. unfold Wumpus3.generate_random_grid.
  set (a := (0, 0)). set (g := (GRID_SIZE - 1, GRID_SIZE - 1)).
  assert (Ha : in_bounds GRID_SIZE a) by (unfold in_bounds; simpl; lia).
  assert (Hg : in_bounds GRID_SIZE g) by (unfold in_bounds; simpl; lia).
  pose proof (random_wumpus_safe fuel a g i Hn) as Hws.
  destruct (random_wumpus fuel a g i) as [[w i1]| |] eqn:Hw; [|done|done].
  apply random_wumpus_spec in Hw as (Hwb & Hwa & Hwg).
  pose proof (random_pits_safe fuel a g w ∅ i1 Hn) as Hps.
  destruct (random_pits fuel a g w ∅ i1) as [[pits i2]| |] eqn:Hp; [|done|done].
  apply random_pits_spec in Hp as (Hsize & Hpits); [|rewrite size_empty; lia|set_solver].
  destruct (grid_set_in_bounds GRID_SIZE (empty_grid GRID_SIZE) a AGENT)
    as (g1 & Hg1 & Hwf1 & Hat1 & Hsame1); [apply empty_grid_wf; lia|done|].
  destruct (grid_set_in_bounds GRID_SIZE g1 g GOLD Hwf1 Hg) as (g2 & Hg2 & Hwf2 & Hat2 & Hsame2).
  destruct (grid_set_in_bounds GRID_SIZE g2 w WUMPUS Hwf2 Hwb) as (g3 & Hg3 & Hwf3 & Hat3 & Hsame3).
  destruct (mark_spec GRID_SIZE (elements pits) PIT g3 Hwf3) as (g4 & Hg4 & Hwf4 & Hshow & Hsame4).
  { apply Forall_forall. intros p Hp%elem_of_elements. by apply Hpits. }
  rewrite Hg1. cbn [mbind option_bind]. rewrite Hg2. cbn [mbind option_bind].
  rewrite Hg3. cbn [mbind option_bind]. rewrite Hg4. cbn [mbind option_bind].
  split; [done|]. intros R [= <-]. cbn [Wumpus3.r_agent Wumpus3.r_gold Wumpus3.r_wumpus
    Wumpus3.r_pits Wumpus3.r_grid].
  assert (Hag : a ≠ g).
  { intros Heq. destruct (decide (GRID_SIZE = 1)) as [H1|H1].
    - destruct Hwb as [? ?]. apply Hwa. destruct w as [wr wc]. unfold a. simpl in *.
      f_equal; lia.
    - injection Heq. lia. }
  split_and!; try done.
  intros q Hq. unfold random_cell. cbn [Wumpus3.r_agent Wumpus3.r_gold Wumpus3.r_wumpus
    Wumpus3.r_pits].
  destruct (decide (q ∈ pits)) as [Hin|Hin].
  { unfold shows in Hshow. rewrite Forall_forall in Hshow. apply Hshow.
    by apply elem_of_elements. }
  rewrite Hsame4; [|done|by rewrite elem_of_elements].
  destruct (decide (q = w)) as [->|Hqw]; [done|]. rewrite Hsame3 by done.
  destruct (decide (q = g)) as [->|Hqg]; [done|]. rewrite Hsame2 by done.
  destruct (decide (q = a)) as [->|Hqa]; [done|]. rewrite Hsame1 by done.
  by apply empty_grid_at.
Qed.

End RandomFacts.

(** *** The frames of [move_agent] *)

Section MoveAgentFacts.
Variable GRID_SIZE : Z.

(** The only agent drawn on the grid is the one at [p]. *)
Definition sole_agent (grid : Grid) (p : Pos) : Prop :=
  ∀ q, in_bounds GRID_SIZE q → grid_at grid q.1 q.2 = Some AGENT ↔ q = p.

Lemma move_agent_loop_spec path : ∀ grid prev,
  grid_wf GRID_SIZE grid → Forall (in_bounds GRID_SIZE) path →
  match prev with
  | Some p => in_bounds GRID_SIZE p ∧
      ∀ q, in_bounds GRID_SIZE q → grid_at grid q.1 q.2 = Some AGENT → q = p
  | None => ∀ q, in_bounds GRID_SIZE q → grid_at grid q.1 q.2 = Some AGENT →
      head path = Some q
  end →
  ∃ frames, Wumpus3.move_agent_loop grid prev path = Some frames ∧
    length frames = length path ∧
    ∀ i frame p, frames !! i = Some frame → path !! i = Some p →
      grid_wf GRID_SIZE frame ∧ sole_agent frame p ∧
      ∀ q, in_bounds GRID_SIZE q → q ∉ path → prev ≠ Some q →
           grid_at frame q.1 q.2 = grid_at grid q.1 q.2.
Proof.
  induction path as [|pos rest IH]; intros grid prev Hwf Hall Hpre; simpl.
  { exists []. split_and!; [done|done|]. intros i frame p Hf. by rewrite lookup_nil in Hf. }
  apply Forall_cons in Hall as [Hpos Hall].
  assert (∃ g1, match prev with
                | Some prev_pos => grid_set grid prev_pos.1 prev_pos.2 EMPTY
                | None => Some grid
                end = Some g1 ∧ grid_wf GRID_SIZE g1 ∧
                (∀ q, in_bounds GRID_SIZE q → grid_at g1 q.1 q.2 = Some AGENT → q = pos) ∧
                (∀ q, in_bounds GRID_SIZE q → prev ≠ Some q →
                      grid_at g1 q.1 q.2 = grid_at grid q.1 q.2))
    as (g1 & -> & Hwf1 & Hno1 & Hsame1).
  { destruct prev as [p|].
    - destruct Hpre as [Hp Hpre].
      destruct (grid_set_in_bounds GRID_SIZE grid p EMPTY Hwf Hp) as (g1 & -> & Hwf1 & Hat & Hsame).
      exists g1. split_and!; [done|done| |].
      + intros q Hq Hag. destruct (decide (q = p)) as [->|Hne]; [congruence|].
        rewrite Hsame in Hag by done. by destruct Hne; apply Hpre.
      + intros q Hq Hne. apply Hsame; [done|congruence].
    - exists grid. split_and!; [done|done| |done].
      intros q Hq Hag. specialize (Hpre q Hq Hag). simpl in Hpre. congruence. }
  cbn [mbind option_bind].
  destruct (grid_set_in_bounds GRID_SIZE g1 pos AGENT Hwf1 Hpos) as (g2 & -> & Hwf2 & Hat2 & Hsame2).
  cbn [mbind option_bind].
  assert (Hsole : sole_agent g2 pos).
  { intros q Hq. split; [|by intros ->]. intros Hag.
    destruct (decide (q = pos)) as [|Hne]; [done|]. rewrite Hsame2 in Hag by done.
    by apply Hno1. }
  destruct (IH g2 (Some pos) Hwf2 Hall) as (frames & -> & Hlen & Hfr).
  { split; [done|]. intros q Hq Hag. by apply Hsole. }
  cbn [mbind option_bind]. eexists. split; [done|]. split; [simpl; lia|].
  intros [|i] frame p; simpl.
  - intros [= <-] [= <-]. split_and!; [done|done|].
    intros q Hq Hnot Hprev. rewrite Hsame2; [by apply Hsame1|done|]. set_solver.
  - intros Hf Hp. destruct (Hfr i frame p Hf Hp) as (Hwff & Hsf & Hsamef).
    split_and!; [done|done|]. intros q Hq Hnot Hprev.
    rewrite Hsamef; [|done|set_solver|set_solver].
    rewrite Hsame2; [by apply Hsame1|done|set_solver].
Qed.

End MoveAgentFacts.

Lemma chain_in_bounds GRID_SIZE grid l :
  Wumpus3.chain GRID_SIZE grid l →
  (∀ p, head l = Some p → in_bounds GRID_SIZE p) →
  Forall (in_bounds GRID_SIZE) l.
Proof.
  induction l as [|p l IH]; intros Hc Hh; [constructor|].
  constructor; [by apply Hh|]. destruct l as [|q l]; [constructor|].
  destruct Hc as [[_ Hs] Hc]. apply IH; [done|]. intros ? [= <-].
  unfold Wumpus3.may_enter in Hs. by case_decide.
Qed.

(** ** [wumpus4.py]: the replay driver over many frames *)

(** The game after the frames at the given times; [None] is an exception. *)
Fixpoint run_frames (apply_challenge_update : Wumpus4.Game → Wumpus4.Game)
    (times : list Z) (g : Wumpus4.Game) : option Wumpus4.Game :=
  match times with
  | [] => Some g
  | t :: times' =>
      g' ← Wumpus4.update apply_challenge_update t g;
      run_frames apply_challenge_update times' g'
  end.

(** What a frame can change when nothing is to be done: the clock. *)
Definition same_play (g g' : Wumpus4.Game) : Prop :=
  Wumpus4.running g' = Wumpus4.running g ∧
  Wumpus4.grid g' = Wumpus4.grid g ∧
  Wumpus4.agent g' = Wumpus4.agent g ∧
  Wumpus4.path g' = Wumpus4.path g ∧
  Wumpus4.animation g' = Wumpus4.animation g ∧
  Wumpus4.animations g' = Wumpus4.animations g ∧
  Wumpus4.score g' = Wumpus4.score g ∧
  Wumpus4.steps_taken g' = Wumpus4.steps_taken g ∧
  Wumpus4.gold_collected g' = Wumpus4.gold_collected g ∧
  Wumpus4.game_over g' = Wumpus4.game_over g ∧
  Wumpus4.game_won g' = Wumpus4.game_won g ∧
  Wumpus4.challenge_mode g' = Wumpus4.challenge_mode g.

Lemma same_play_clock now g : same_play g (Wumpus4.set_clock now g).
Proof. unfold Wumpus4.set_clock, same_play. by case_decide. Qed.

Lemma update_stalled acu now g a :
  Wumpus4.challenge_mode g = false →
  Wumpus4.animation g = Some a → Wumpus4.animations g = [] →
  (length (Wumpus4.path g) ≤ 1)%nat →
  Wumpus4.update acu now g = Some (if Wumpus4.running g then Wumpus4.set_clock now g else g).
Proof.
  intros Hc Ha Has Hp. unfold Wumpus4.update. destruct (Wumpus4.running g); [|done].
  destruct (same_play_clock now g) as (_ & _ & _ & Hp' & _ & Has' & _ & _ & _ & _ & _ & Hc').
  unfold Wumpus4.challenge. rewrite Hc', Hc. simpl. rewrite Has'. rewrite Has.
  f_equal. unfold Wumpus4.next_move. rewrite Hp'.
  destruct (Wumpus4.path g) as [|? [|? ?]]; try done. simpl in Hp. lia.
Qed.

Lemma run_frames_stalled acu times : ∀ g a,
  Wumpus4.challenge_mode g = false →
  Wumpus4.animation g = Some a → Wumpus4.animations g = [] →
  (length (Wumpus4.path g) ≤ 1)%nat →
  ∃ g', run_frames acu times g = Some g' ∧ same_play g g'.
Proof.
  induction times as [|t times IH]; intros g a Hc Ha Has Hp; simpl.
  - exists g. by split.
  - rewrite (update_stalled acu t g a) by done. simpl.
    set (g1 := if Wumpus4.running g then Wumpus4.set_clock t g else g).
    assert (H1 : same_play g g1).
    { unfold g1. destruct (Wumpus4.running g); [apply same_play_clock|done]. }
    destruct H1 as (H1 & H2 & H3 & H4 & H5 & H6 & H7 & H8 & H9 & H10 & H11 & H12).
    destruct (IH g1 a) as (g' & Hr & Hs); [congruence..|by rewrite H4|].
    exists g'. split; [done|].
    destruct Hs as (? & ? & ? & ? & ? & ? & ? & ? & ? & ? & ? & ?).
    split_and!; congruence.
Qed.

(** *** One agent on the grid, frame after frame *)

Section UpdateFacts.
Variable GRID_SIZE : Z.

(** The state the driver keeps: a well-formed grid that shows the agent
    on its own cell and nowhere else, a path, pending moves and teleport
    destinations inside the grid. *)
Definition game_sound (g : Wumpus4.Game) : Prop :=
  grid_wf GRID_SIZE (Wumpus4.grid g) ∧
  (∃ p, Wumpus4.agent g = Some p ∧ in_bounds GRID_SIZE p ∧
        sole_agent GRID_SIZE (Wumpus4.grid g) p) ∧
  Forall (in_bounds GRID_SIZE) (Wumpus4.path g) ∧
  (∀ a, Wumpus4.animation g = Some a → in_bounds GRID_SIZE (Wumpus4.end_pos a)) ∧
  Forall (λ a, in_bounds GRID_SIZE (Wumpus4.end_pos a)) (Wumpus4.animations g) ∧
  (∀ a b, Wumpus4.teleport_destinations g !! a = Some b → in_bounds GRID_SIZE b).

(** The same, in a form that can be checked by evaluation. *)
Definition game_ok (g : Wumpus4.Game) : Prop :=
  grid_wf GRID_SIZE (Wumpus4.grid g) ∧
  match Wumpus4.agent g with
  | Some p => in_bounds GRID_SIZE p ∧
      Forall (λ q, grid_at (Wumpus4.grid g) q.1 q.2 = Some AGENT ↔ q = p)
        (row_major GRID_SIZE)
  | None => False
  end ∧
  Forall (in_bounds GRID_SIZE) (Wumpus4.path g) ∧
  match Wumpus4.animation g with
  | Some a => in_bounds GRID_SIZE (Wumpus4.end_pos a)
  | None => True
  end ∧
  Forall (λ a, in_bounds GRID_SIZE (Wumpus4.end_pos a)) (Wumpus4.animations g) ∧
  map_Forall (λ _ b, in_bounds GRID_SIZE b) (Wumpus4.teleport_destinations g).

#[global] Instance game_ok_dec g : Decision (game_ok g).
Proof.
  unfold game_ok, grid_wf.
  destruct (Wumpus4.agent g), (Wumpus4.animation g); apply _.
Defined.

Lemma game_ok_sound g : game_ok g ↔ game_sound g.
Proof.
  unfold game_ok, game_sound, sole_agent. split.
  - intros (Hwf & Hag & Hp & Han & Hans & Htp). split_and!; try done.
    + destruct (Wumpus4.agent g) as [p|]; [|done]. destruct Hag as [Hb Hall].
      exists p. split_and!; [done|done|]. intros q Hq. rewrite Forall_forall in Hall.
      by apply Hall, elem_of_row_major.
    + intros a Ha. by rewrite Ha in Han.
  - intros (Hwf & (p & Hp & Hb & Hsole) & Hpath & Han & Hans & Htp). split_and!; try done.
    + rewrite Hp. split; [done|]. apply Forall_forall. intros q Hq.
      by apply Hsole, elem_of_row_major.
    + destruct (Wumpus4.animation g) as [a|]; [by apply Han|done].
Qed.

Lemma arrive_ok now new_pos rest g :
  game_sound g → in_bounds GRID_SIZE new_pos →
  Forall (λ a, in_bounds GRID_SIZE (Wumpus4.end_pos a)) rest →
  ∃ g', Wumpus4.arrive now new_pos rest g = Some g' ∧ game_sound g' ∧
    Wumpus4.agent g' = Some new_pos ∧
    Wumpus4.steps_taken g' = Wumpus4.steps_taken g + 1 ∧
    Wumpus4.path g' = Wumpus4.path g ∧
    Wumpus4.challenge_mode g' = Wumpus4.challenge_mode g.
Proof.
  intros (Hwf & (old & Hold & Hob & Hsole) & Hpath & _ & _ & Htp) Hnew Hrest.
  unfold Wumpus4.arrive. rewrite Hold. cbn [mbind option_bind].
  destruct (grid_set_in_bounds GRID_SIZE _ old TRAIL Hwf Hob)
    as (grid1 & -> & Hwf1 & Hat1 & Hsame1).
  cbn [mbind option_bind].
  destruct (grid_at_in_bounds GRID_SIZE grid1 new_pos Hwf1 Hnew) as [e He]. rewrite He.
  cbn [mbind option_bind].
  destruct (grid_set_in_bounds GRID_SIZE grid1 new_pos AGENT Hwf1 Hnew)
    as (grid2 & -> & Hwf2 & Hat2 & Hsame2).
  cbn [mbind option_bind].
  assert (Hsole2 : sole_agent GRID_SIZE grid2 new_pos).
  { intros q Hq. split; [|by intros ->]. intros Hag.
    destruct (decide (q = new_pos)) as [|Hne]; [done|]. rewrite Hsame2 in Hag by done.
    destruct (decide (q = old)) as [->|Hne']; [congruence|].
    rewrite Hsame1 in Hag by done. by apply Hsole in Hag. }
  assert (Hins : ∀ i (a : Wumpus4.Animation) l,
    in_bounds GRID_SIZE (Wumpus4.end_pos a) →
    Forall (λ a, in_bounds GRID_SIZE (Wumpus4.end_pos a)) l →
    Forall (λ a, in_bounds GRID_SIZE (Wumpus4.end_pos a)) (Wumpus4.py_insert i a l)).
  { intros i a l Ha Hl. unfold Wumpus4.py_insert. apply Forall_app. split.
    - by apply Forall_take.
    - constructor; [done|by apply Forall_drop]. }
  eexists. split; [done|].
  assert (Hgoal : ∀ anims sc gold won over,
    Forall (λ a, in_bounds GRID_SIZE (Wumpus4.end_pos a)) anims →
    let g' := Wumpus4.mkGame (Wumpus4.running g) grid2 (Some new_pos) (Wumpus4.path g) None
      anims (Wumpus4.teleport_destinations g) (Wumpus4.animation_speed g) sc
      (Wumpus4.steps_taken g + 1) gold over won (Wumpus4.game_start_time g)
      (Wumpus4.game_time_elapsed g) (Wumpus4.challenge_mode g)
      (Wumpus4.challenge_interval g) (Wumpus4.challenge_next_change g) in
    game_sound g' ∧ Wumpus4.agent g' = Some new_pos ∧
    Wumpus4.steps_taken g' = Wumpus4.steps_taken g + 1 ∧
    Wumpus4.path g' = Wumpus4.path g ∧
    Wumpus4.challenge_mode g' = Wumpus4.challenge_mode g).
  { intros anims sc gold won over Han. simpl. split_and!; try done.
    unfold game_sound. simpl. split_and!; try done. by exists new_pos. }
  destruct e; try (apply Hgoal; done).
  - apply Hgoal. by apply Hins.
  - apply Hgoal. by apply Hins.
  - destruct (Wumpus4.teleport_destinations g !! new_pos) as [dest|] eqn:Hd;
      [|by apply Hgoal].
    apply Hgoal. apply Hins; [simpl; by eapply Htp|]. by apply Hins.
Qed.

Lemma update_ok acu now g :
  game_sound g → Wumpus4.challenge_mode g = false →
  ∃ g', Wumpus4.update acu now g = Some g' ∧ game_sound g' ∧
    Wumpus4.challenge_mode g' = false ∧
    (Wumpus4.steps_taken g' = Wumpus4.steps_taken g ∨
     Wumpus4.steps_taken g' = Wumpus4.steps_taken g + 1).
Proof.
  intros Hok Hc. unfold Wumpus4.update.
  destruct (Wumpus4.running g); [|exists g; by split_and!; [..|left]].
  set (g0 := Wumpus4.set_clock now g).
  assert (H0 : game_sound g0 ∧ Wumpus4.challenge_mode g0 = false ∧
               Wumpus4.steps_taken g0 = Wumpus4.steps_taken g).
  { unfold g0, Wumpus4.set_clock. by case_decide. }
  destruct H0 as (Hok0 & Hc0 & Hst0).
  unfold Wumpus4.challenge. rewrite Hc0. cbn [andb].
  rewrite <- Hst0. clearbody g0. clear g Hok Hc Hst0.
  destruct Hok0 as (Hwf & Hag & Hpath & Han & Hans & Htp).
  destruct (Wumpus4.animations g0) as [|a0 rest0] eqn:Has.
  - eexists. split; [done|]. unfold Wumpus4.next_move.
    destruct (Wumpus4.path g0) as [|cur [|nxt tl]] eqn:Hp;
      [split_and!; [by unfold game_sound; rewrite Has, Hp|done|by left]..|].
    destruct (Wumpus4.game_over g0 || Wumpus4.game_won g0);
      [split_and!; [by unfold game_sound; rewrite Has, Hp|done|by left]|].
    split_and!; [|done|by left]. unfold game_sound. simpl. rewrite Has.
    apply Forall_cons in Hpath as [_ Hpath].
    split_and!; try done. simpl. constructor; [|done]. simpl. by apply Forall_cons in Hpath as [? _].
  - unfold Wumpus4.process_animations. rewrite Has.
    set (cr := match Wumpus4.animation g0 with
               | Some a => (Some a, a0 :: rest0)
               | None => (head (a0 :: rest0), tail (a0 :: rest0))
               end).
    assert (∃ a rest, cr = (Some a, rest) ∧ in_bounds GRID_SIZE (Wumpus4.end_pos a) ∧
              Forall (λ a, in_bounds GRID_SIZE (Wumpus4.end_pos a)) rest)
      as (a & rest & -> & Hab & Hrest).
    { unfold cr. destruct (Wumpus4.animation g0) as [a|].
      - exists a, (a0 :: rest0). split_and!; [done|by apply Han|done].
      - apply Forall_cons in Hans as [? ?]. by exists a0, rest0. }
    destruct (Wumpus4.animation_done now a).
    + case_decide.
      * destruct (arrive_ok now (Wumpus4.end_pos a) rest g0)
          as (g' & -> & Hok' & Hag' & Hst' & _ & Hc');
          [by unfold game_sound; rewrite Has|done|done|].
        exists g'. split_and!; [done|done|congruence|by right].
      * eexists. split; [done|]. split_and!; [|done|by left].
        unfold game_sound. simpl. by split_and!.
    + eexists. split; [done|]. split_and!; [|done|by left].
      unfold game_sound. simpl. split_and!; try done. by intros ? [= <-].
Qed.

Lemma run_frames_ok acu times : ∀ g,
  game_sound g → Wumpus4.challenge_mode g = false →
  ∃ g', run_frames acu times g = Some g' ∧ game_sound g' ∧
    Wumpus4.challenge_mode g' = false ∧
    Wumpus4.steps_taken g <= Wumpus4.steps_taken g'
      <= Wumpus4.steps_taken g + Z.of_nat (length times).
Proof.
  induction times as [|t times IH]; intros g Hok Hc; simpl.
  - exists g. split_and!; [done|done|done|lia|lia].
  - destruct (update_ok acu t g Hok Hc) as (g1 & -> & Hok1 & Hc1 & Hst).
    cbn [mbind option_bind].
    destruct (IH g1 Hok1 Hc1) as (g' & -> & Hok' & Hc' & Hst').
    exists g'. split_and!; [done|done|done|lia|lia].
Qed.

End UpdateFacts.

(** ** [wumpus4.py]: the changes of the challenge mode *)

Section ChallengeFacts.
Variable GRID_SIZE : Z.
Variable rand : nat → Z.
Hypothesis size_pos : 1 <= GRID_SIZE.

#[local] Abbreviation far_position := (Wumpus4.far_position GRID_SIZE rand).
#[local] Abbreviation choice := (Wumpus4.choice rand).

(** Both coordinates are more than [safe_distance] away from the agent. *)
Definition far_from (agent_pos q : Pos) : Prop :=
  Z.abs (q.1 - agent_pos.1) > 2 ∧ Z.abs (q.2 - agent_pos.2) > 2.

Lemma choice_spec {A} (seq : list A) i :
  seq ≠ [] → ∃ x, choice seq i = Some (x, S i) ∧ x ∈ seq.
Proof.
  intros Hne. unfold Wumpus4.choice.
  assert (0 < Z.of_nat (length seq)) by (destruct seq; [done|simpl; lia]).
  pose proof (Z.mod_pos_bound (rand i) (Z.of_nat (length seq)) ltac:(lia)).
  destruct (lookup_lt_is_Some_2 seq (Z.to_nat (rand i `mod` Z.of_nat (length seq))))
    as [x Hx]; [lia|].
  exists x. rewrite Hx. split; [done|]. by eapply list_elem_of_lookup_2.
Qed.

Lemma py_remove_spec x l :
  x ∈ l → ∃ l', Wumpus4.py_remove x l = Some l' ∧ length l = S (length l') ∧
               ∀ y, y ∈ l' → y ∈ l.
Proof.
  induction l as [|y l IH]; [by intros ?%elem_of_nil|]. simpl.
  intros Hin. case_decide as Heq.
  - exists l. split_and!; [done|done|]. intros z Hz. by right.
  - apply elem_of_cons in Hin as [?|Hin]; [done|].
    destruct (IH Hin) as (l' & -> & Hlen & Hsub). simpl.
    exists (y :: l'). split_and!; [done|simpl; lia|]. set_solver.
Qed.

Lemma far_position_spec attempts grid agent_pos : ∀ i,
  grid_wf GRID_SIZE grid →
  ∃ r i', far_position attempts grid agent_pos i = Some (r, i') ∧
    ∀ p, r = Some p →
      in_bounds GRID_SIZE p ∧ grid_at grid p.1 p.2 = Some EMPTY ∧ far_from agent_pos p.
Proof.
  intros i Hwf. revert i. induction attempts as [|attempts IH]; intros i; simpl.
  { by exists None, i. }
  destruct (randint_total rand GRID_SIZE i size_pos) as [row Hrow].
  destruct (randint_total rand GRID_SIZE (S i) size_pos) as [col Hcol].
  rewrite Hrow. cbn [mbind option_bind]. rewrite Hcol. cbn [mbind option_bind].
  apply randint_range in Hrow, Hcol.
  assert (Hb : in_bounds GRID_SIZE (row, col)) by done.
  destruct (grid_at_in_bounds GRID_SIZE grid (row, col) Hwf Hb) as [e He].
  simpl in He. rewrite He. cbn [mbind option_bind].
  case_decide as Hd; [|apply IH].
  exists (Some (row, col)), (S (S i)). split; [done|]. intros p [= <-].
  destruct Hd as (-> & ? & ?). by split_and!.
Qed.

(** What a challenge update may do to a cell: nothing, empty a cell of
    the wumpus list, or put a wumpus, a pit or a trap on a cell that was
    empty (or had just been emptied) and is far from the agent. *)
Definition challenge_change (grid grid' : Grid) (agent_pos : Pos)
    (wumpus_positions : list Pos) (q : Pos) : Prop :=
  grid_at grid' q.1 q.2 = grid_at grid q.1 q.2 ∨
  (q ∈ wumpus_positions ∧ grid_at grid' q.1 q.2 = Some EMPTY) ∨
  ((grid_at grid q.1 q.2 = Some EMPTY ∨ q ∈ wumpus_positions) ∧ far_from agent_pos q ∧
   grid_at grid' q.1 q.2 ∈ [Some WUMPUS; Some PIT; Some TRAP]).

Lemma add_entity_spec kind grid agent_pos ws i :
  kind ∈ [PIT; TRAP] → grid_wf GRID_SIZE grid →
  ∃ grid' i', Wumpus4.add_entity GRID_SIZE rand kind grid agent_pos i = Some (grid', i') ∧
    grid_wf GRID_SIZE grid' ∧
    ∀ q, in_bounds GRID_SIZE q → challenge_change grid grid' agent_pos ws q.
Proof.
  intros Hk Hwf. unfold Wumpus4.add_entity.
  destruct (far_position_spec 100 grid agent_pos i Hwf) as (r & i' & -> & Hr).
  cbn [mbind option_bind]. destruct r as [p|].
  - destruct (Hr p eq_refl) as (Hb & He & Hfar).
    destruct (grid_set_in_bounds GRID_SIZE grid p kind Hwf Hb) as (g1 & -> & Hwf1 & Hat & Hsame).
    cbn [mbind option_bind]. exists g1, i'. split_and!; [done|done|].
    intros q Hq. destruct (decide (q = p)) as [->|Hne].
    + right. right. split_and!; [by left|done|]. rewrite Hat. set_solver.
    + left. by apply Hsame.
  - exists grid, i'. split_and!; [done|done|]. intros q Hq. by left.
Qed.

Lemma change_grid_spec grid agent_pos ws i :
  grid_wf GRID_SIZE grid → Forall (in_bounds GRID_SIZE) ws →
  ∃ grid' ws' i', Wumpus4.change_grid GRID_SIZE rand grid agent_pos ws i
                    = Some (grid', ws', i') ∧
    grid_wf GRID_SIZE grid' ∧ length ws' = length ws ∧
    Forall (in_bounds GRID_SIZE) ws' ∧
    ∀ q, in_bounds GRID_SIZE q → challenge_change grid grid' agent_pos ws q.
Proof.
  intros Hwf Hws. unfold Wumpus4.change_grid.
  destruct (choice_spec [Wumpus4.move_wumpus; Wumpus4.add_pit; Wumpus4.add_trap] i)
    as (ct & -> & _); [done|].
  cbn [mbind option_bind]. destruct ct.
  - destruct ws as [|w0 ws0] eqn:Hwseq.
    { exists grid, [], (S i). split_and!; [done..|]. intros q Hq. by left. }
    rewrite <- Hwseq in *.
    destruct (choice_spec ws (S i)) as (w & -> & Hw); [by rewrite Hwseq|].
    cbn [mbind option_bind].
    assert (Hwb : in_bounds GRID_SIZE w) by (rewrite Forall_forall in Hws; by apply Hws).
    destruct (grid_set_in_bounds GRID_SIZE grid w EMPTY Hwf Hwb)
      as (g1 & -> & Hwf1 & Hat1 & Hsame1).
    cbn [mbind option_bind].
    destruct (far_position_spec 100 g1 agent_pos (S (S i)) Hwf1) as (r & i' & -> & Hr).
    cbn [mbind option_bind]. destruct r as [p|].
    + destruct (Hr p eq_refl) as (Hb & He & Hfar).
      destruct (grid_set_in_bounds GRID_SIZE g1 p WUMPUS Hwf1 Hb)
        as (g2 & -> & Hwf2 & Hat2 & Hsame2).
      cbn [mbind option_bind].
      destruct (py_remove_spec w ws Hw) as (rest & -> & Hlen & Hsub).
      cbn [mbind option_bind]. exists g2, (rest ++ [p]), i'.
      split_and!; [done|done|rewrite length_app; simpl; lia| |].
      * apply Forall_app. split; [|by constructor].
        apply Forall_forall. intros y Hy. rewrite Forall_forall in Hws. by apply Hws, Hsub.
      * intros q Hq. destruct (decide (q = p)) as [->|Hne].
        -- right. right. split_and!; [|done|rewrite Hat2; set_solver].
           destruct (decide (p = w)) as [->|Hpw]; [by right|left].
           by rewrite <- Hsame1.
        -- unfold challenge_change. rewrite Hsame2 by done. destruct (decide (q = w)) as [->|Hqw].
           ++ right. left. by split.
           ++ left. by apply Hsame1.
    + exists g1, ws, i'. split_and!; [done..|].
      intros q Hq. destruct (decide (q = w)) as [->|Hqw].
      * right. left. by split.
      * left. by apply Hsame1.
  - destruct (add_entity_spec PIT grid agent_pos ws (S i)) as (g' & i' & -> & Hwf' & Hch);
      [set_solver|done|].
    cbn [mbind option_bind]. by exists g', ws, i'.
  - destruct (add_entity_spec TRAP grid agent_pos ws (S i)) as (g' & i' & -> & Hwf' & Hch);
      [set_solver|done|].
    cbn [mbind option_bind]. by exists g', ws, i'.
Qed.

End ChallengeFacts.

(** ** [wumpus4.py]: a game as [initialize_game] sets it up *)

Section ClearFacts.
Variable GRID_SIZE : Z.

Lemma clear_positions_spec cells : ∀ grid,
  grid_wf GRID_SIZE grid → Forall (in_bounds GRID_SIZE) cells →
  ∃ grid', Wumpus4.clear_positions cells grid = Some grid' ∧ grid_wf GRID_SIZE grid' ∧
    ∀ q, in_bounds GRID_SIZE q →
      grid_at grid' q.1 q.2 =
        if decide (q ∈ cells ∧ grid_at grid q.1 q.2 ∈ [Some AGENT; Some GOLD])
        then Some EMPTY else grid_at grid q.1 q.2.
Proof.
  induction cells as [|[r c] cells IH]; intros grid Hwf Hall; cbn [Wumpus4.clear_positions].
  { exists grid. split_and!; [done|done|]. intros q Hq. case_decide as Hd; [|done].
    by destruct Hd as [?%elem_of_nil _]. }
  apply Forall_cons in Hall as [Hb Hall].
  destruct (grid_at_in_bounds GRID_SIZE grid (r, c) Hwf Hb) as [e He]. simpl in He.
  rewrite He. cbn [mbind option_bind].
  destruct (decide (e ∈ [AGENT; GOLD])) as [Hag|Hag].
  - destruct (grid_set_in_bounds GRID_SIZE grid (r, c) EMPTY Hwf Hb)
      as (g1 & Hg1 & Hwf1 & Hat1 & Hsame1). simpl in Hg1, Hat1. rewrite Hg1.
    cbn [mbind option_bind]. destruct (IH g1 Hwf1 Hall) as (g' & -> & Hwf' & Hcell).
    exists g'. split_and!; [done|done|]. intros q Hq. rewrite (Hcell q Hq).
    destruct (decide (q = (r, c))) as [->|Hne].
    + cbn [fst snd]. rewrite Hat1, He. rewrite decide_False by set_solver.
      rewrite decide_True; [done|]. split; [left|set_solver].
    + rewrite Hsame1 by done. apply decide_ext. set_solver.
  - cbn [mbind option_bind]. destruct (IH grid Hwf Hall) as (g' & -> & Hwf' & Hcell).
    exists g'. split_and!; [done|done|]. intros q Hq. rewrite (Hcell q Hq).
    apply decide_ext. split; [set_solver|]. intros [[->|?]%elem_of_cons ?]; [|done].
    simpl in *. rewrite He in *. set_solver.
Qed.

End ClearFacts.

Section InitializeFacts.
Variable GRID_SIZE : Z.
Variable shuffle : list Pos → list Pos.
Variable rand : nat → Z.
Hypothesis shuffle_perm : ∀ l, shuffle l ≡ₚ l.

(** The teleport map pairs teleport cells of the grid, both ways. *)
Definition teleports_paired (grid : Grid) (m : gmap Pos Pos) : Prop :=
  (∀ a b, m !! a = Some b →
     b ≠ a ∧ m !! b = Some a ∧
     in_bounds GRID_SIZE a ∧ grid_at grid a.1 a.2 = Some TELEPORT ∧
     in_bounds GRID_SIZE b ∧ grid_at grid b.1 b.2 = Some TELEPORT) ∧
  (Nat.Even (length (teleport_cells GRID_SIZE grid)) →
     ∀ c, in_bounds GRID_SIZE c → grid_at grid c.1 c.2 = Some TELEPORT → is_Some (m !! c)).

Lemma initialize_teleports_paired grid :
  grid_wf GRID_SIZE grid →
  ∃ m, Wumpus4.initialize_teleports GRID_SIZE shuffle grid = Some m ∧
       teleports_paired grid m.
Proof.
  intros Hwf. unfold Wumpus4.initialize_teleports.
  destruct (collect_teleports_wf GRID_SIZE (row_major GRID_SIZE) grid [] Hwf) as [tps Htps].
  { apply Forall_forall. intros p. apply elem_of_row_major. }
  rewrite Htps. simpl. eexists. split; [done|].
  apply collect_teleports_spec in Htps. simpl in Htps.
  fold (teleport_cells GRID_SIZE grid) in Htps. subst tps.
  set (tps := teleport_cells GRID_SIZE grid). set (l := shuffle tps).
  assert (Hnd : NoDup l).
  { unfold l. rewrite (shuffle_perm tps). apply NoDup_filter, NoDup_row_major. }
  assert (Hin : ∀ x, x ∈ l ↔ x ∈ tps) by (intros x; unfold l; by rewrite (shuffle_perm tps)).
  assert (Hlen : length l = length tps) by (unfold l; by rewrite (shuffle_perm tps)).
  assert (Hlk : ∀ a b, Wumpus4.pair_up l ∅ !! a = Some b ↔ paired l a b).
  { intros a b. rewrite pair_up_lookup; [|done|by intros; apply lookup_empty].
    rewrite lookup_empty. naive_solver. }
  assert (Htp : ∀ x, x ∈ tps ↔ in_bounds GRID_SIZE x ∧ grid_at grid x.1 x.2 = Some TELEPORT).
  { intros x. unfold tps, teleport_cells. rewrite list_elem_of_filter, elem_of_row_major.
    tauto. }
  split.
  - intros a b Hab. apply Hlk in Hab. pose proof (paired_elem_of _ _ _ Hab) as [Ha Hb].
    apply Hin, Htp in Ha, Hb. split_and!; try tauto.
    + intros ->. by apply (paired_irrefl l a a).
    + apply Hlk. by apply paired_sym.
  - intros Heven c Hc Ht.
    assert (Heven' : Nat.Even (length l)) by (rewrite Hlen; exact Heven).
    destruct (paired_even l c Heven') as [b Hb]; [apply Hin, Htp; tauto|].
    exists b. by apply Hlk.
Qed.

(** The end of [initialize_game] on a well-formed grid. *)
Lemma finish_spec grid agent gold ws i :
  0 < GRID_SIZE → grid_wf GRID_SIZE grid →
  ∃ m path,
    Wumpus4.finish GRID_SIZE shuffle grid agent gold ws i
      = Return (Wumpus4.mkStart grid agent gold ws m path i) ∧
    teleports_paired grid m ∧
    (path = [] → ∀ l, ¬ Wumpus4.is_path GRID_SIZE grid agent gold l) ∧
    (path ≠ [] → Wumpus4.is_path GRID_SIZE grid agent gold path).
Proof.
  intros Hn Hwf. unfold Wumpus4.finish.
  destruct (initialize_teleports_paired grid Hwf) as (m & -> & Hm).
  destruct (calculate_path_ok GRID_SIZE grid agent gold Hwf Hn) as (p & -> & Hpost).
  exists m, p. split_and!; [done|done| |].
  - intros -> l Hl. destruct Hpost as [[_ Hno]|[Hpath _]]; [|by destruct Hpath].
    apply Hno. by eapply apath_reach.
  - intros Hne. by destruct Hpost as [[-> _]|[Hpath _]].
Qed.

End InitializeFacts.

Lemma generate_grid_corners size settings rand i P :
  Wumpus4.generate_grid size settings rand i = Some P →
  Wumpus4.p_agent P = (0, 0) ∧ Wumpus4.p_gold P = (size - 1, size - 1).
Proof.
  unfold Wumpus4.generate_grid. intros H.
  repeat match type of H with
  | (?x ≫= _) = Some _ => destruct x as [[[? ?] ?]|] eqn:?; cbn [mbind option_bind] in H; [|done]
  | (?x ≫= _) = Some _ => destruct x as [?|] eqn:?; cbn [mbind option_bind] in H; [|done]
  end.
  injection H as <-. done.
Qed.

(** What the cells of a generated level hold. *)
Lemma generated_cells size settings rand i P :
  2 <= size → Wumpus4.generate_grid size settings rand i = Some P →
  grid_wf size (Wumpus4.p_grid P) ∧
  Forall (in_bounds size) (Wumpus4.p_wumpus P) ∧
  ∀ q, in_bounds size q →
    (grid_at (Wumpus4.p_grid P) q.1 q.2 = Some AGENT ↔ q = Wumpus4.p_agent P) ∧
    (grid_at (Wumpus4.p_grid P) q.1 q.2 = Some GOLD ↔ q = Wumpus4.p_gold P) ∧
    (grid_at (Wumpus4.p_grid P) q.1 q.2 = Some WUMPUS ↔ q ∈ Wumpus4.p_wumpus P).
Proof.
  intros Hsize HP.
  destruct (generate_grid_spec size settings rand i Hsize)
    as (P' & HP' & Hwf & Hnd & Hb & _ & _ & _ & _ & _ & Ha & Hg & Hw & Hp & Ho & Htr & Htp & Hrest).
  assert (P' = P) as -> by congruence.
  split; [done|]. split.
  { unfold placements in Hb. apply Forall_cons in Hb as [_ Hb]. apply Forall_cons in Hb as [_ Hb].
    by apply Forall_app in Hb as [? _]. }
  unfold shows in *. rewrite Forall_forall in Ha, Hg, Hw, Hp, Ho, Htr, Htp.
  intros q Hq.
  assert (Hq' : q ∈ placements P ∨ grid_at (Wumpus4.p_grid P) q.1 q.2 = Some EMPTY).
  { destruct (decide (q ∈ placements P)); [by left|right; by apply Hrest]. }
  assert (Hagent := Ha (Wumpus4.p_agent P) ltac:(left)).
  assert (Hgold := Hg (Wumpus4.p_gold P) ltac:(left)).
  split_and!; (split; [|try (by intros ->); try (by apply Hw)]).
  all: intros Hk; destruct Hq' as [Hin|He]; [|congruence].
  all: unfold placements in Hin; rewrite !elem_of_cons, !elem_of_app in Hin.
  all: destruct Hin as [->|[->|[Hin|[Hin|[Hin|[Hin|Hin]]]]]]; try done; try congruence.
  all: try (apply Hw in Hin; congruence); try (apply Hp in Hin; congruence).
  all: try (apply Ho in Hin; congruence); try (apply Htr in Hin; congruence).
  all: try (apply Htp in Hin; congruence).
Qed.

(** ** [wumpusheavy.py]: the map editor keeps one agent and one gold *)

Section EditorFacts.
Variable GRID_SIZE : Z.
Hypothesis size_pos : 1 <= GRID_SIZE.

Lemma cells_wf grid : grid_wf GRID_SIZE grid → WumpusHeavy.cells grid = row_major GRID_SIZE.
Proof.
  intros [Hlen Hrows]. unfold WumpusHeavy.cells, row_major.
  destruct grid as [|row0 rows]; [simpl in Hlen; lia|].
  apply Forall_cons in Hrows as [Hrow0 _]. by rewrite Hlen, Hrow0.
Qed.

Lemma first_teleport_spec cs grid :
  grid_wf GRID_SIZE grid → Forall (in_bounds GRID_SIZE) cs →
  ∃ r, WumpusHeavy.first_teleport cs grid = Some r ∧
       ∀ f, r = Some f → in_bounds GRID_SIZE f.
Proof.
  intros Hwf. induction cs as [|[r c] cs IH]; intros Hall; simpl.
  { by exists None. }
  apply Forall_cons in Hall as [Hb Hall].
  destruct (grid_at_in_bounds GRID_SIZE grid (r, c) Hwf Hb) as [e He]. simpl in He.
  rewrite He. cbn [mbind option_bind]. case_decide; [|by apply IH].
  exists (Some (r, c)). split; [done|]. by intros f [= <-].
Qed.

Lemma erase_spec kind cs : ∀ grid,
  grid_wf GRID_SIZE grid → Forall (in_bounds GRID_SIZE) cs →
  ∃ grid', WumpusHeavy.erase kind cs grid = Some grid' ∧ grid_wf GRID_SIZE grid' ∧
    ∀ q, in_bounds GRID_SIZE q →
      grid_at grid' q.1 q.2 =
        if decide (q ∈ cs ∧ grid_at grid q.1 q.2 = Some kind)
        then Some EMPTY else grid_at grid q.1 q.2.
Proof.
  induction cs as [|[r c] cs IH]; intros grid Hwf Hall; cbn [WumpusHeavy.erase].
  { exists grid. split_and!; [done|done|]. intros q Hq. case_decide as Hd; [|done].
    by destruct Hd as [?%elem_of_nil _]. }
  apply Forall_cons in Hall as [Hb Hall].
  destruct (grid_at_in_bounds GRID_SIZE grid (r, c) Hwf Hb) as [e He]. simpl in He.
  rewrite He. cbn [mbind option_bind].
  destruct (decide (e = kind)) as [->|Hek].
  - destruct (grid_set_in_bounds GRID_SIZE grid (r, c) EMPTY Hwf Hb)
      as (g1 & Hg1 & Hwf1 & Hat1 & Hsame1). simpl in Hg1, Hat1. rewrite Hg1.
    cbn [mbind option_bind]. destruct (IH g1 Hwf1 Hall) as (g' & -> & Hwf' & Hcell).
    exists g'. split_and!; [done|done|]. intros q Hq. rewrite (Hcell q Hq).
    destruct (decide (q = (r, c))) as [->|Hne].
    + cbn [fst snd]. rewrite Hat1, He.
      destruct (decide (kind = EMPTY)) as [->|Hk].
      * by repeat case_decide.
      * rewrite decide_False by (intros [_ [= ?]]; congruence).
        rewrite decide_True; [done|]. split; [left|done].
    + rewrite Hsame1 by done. apply decide_ext. set_solver.
  - cbn [mbind option_bind]. destruct (IH grid Hwf Hall) as (g' & -> & Hwf' & Hcell).
    exists g'. split_and!; [done|done|]. intros q Hq. rewrite (Hcell q Hq).
    apply decide_ext. split; [set_solver|]. intros [[->|?]%elem_of_cons ?]; [|done].
    simpl in *. congruence.
Qed.

(** What the editor keeps true: the grid is square, an agent or a gold
    on it is where the editor says, and a teleport with a destination leads
    to another cell that is in the teleport map as well. *)
Definition editor_ok (e : WumpusHeavy.Editor) : Prop :=
  grid_wf GRID_SIZE (WumpusHeavy.grid e) ∧
  (∀ q, in_bounds GRID_SIZE q →
     grid_at (WumpusHeavy.grid e) q.1 q.2 = Some AGENT → q = WumpusHeavy.agent_pos e) ∧
  (∀ q, in_bounds GRID_SIZE q →
     grid_at (WumpusHeavy.grid e) q.1 q.2 = Some GOLD → q = WumpusHeavy.gold_pos e) ∧
  (∀ a b, WumpusHeavy.teleport_destinations e !! a = Some (Some b) →
     b ≠ a ∧ is_Some (WumpusHeavy.teleport_destinations e !! b)).

Lemma initialize_map_ok selected :
  ∃ e, WumpusHeavy.initialize_map GRID_SIZE selected = Some e ∧ editor_ok e.
Proof.
  unfold WumpusHeavy.initialize_map.
  assert (Ha : in_bounds GRID_SIZE (0, 0)) by (unfold in_bounds; simpl; lia).
  assert (Hg : in_bounds GRID_SIZE (GRID_SIZE - 1, GRID_SIZE - 1))
    by (unfold in_bounds; simpl; lia).
  destruct (grid_set_in_bounds GRID_SIZE (empty_grid GRID_SIZE) (0, 0) AGENT)
    as (g1 & Hg1 & Hwf1 & Hat1 & Hsame1); [apply empty_grid_wf; lia|done|].
  simpl in Hg1. rewrite Hg1. cbn [mbind option_bind].
  destruct (grid_set_in_bounds GRID_SIZE g1 (GRID_SIZE - 1, GRID_SIZE - 1) GOLD Hwf1 Hg)
    as (g2 & Hg2 & Hwf2 & Hat2 & Hsame2).
  simpl in Hg2. rewrite Hg2. cbn [mbind option_bind].
  eexists. split; [done|]. unfold editor_ok. simpl. split_and!; [done| | |].
  - intros q Hq. destruct (decide (q = (GRID_SIZE - 1, GRID_SIZE - 1))) as [->|Hne].
    + by rewrite Hat2.
    + rewrite Hsame2 by done. destruct (decide (q = (0, 0))) as [|Hne0]; [done|].
      rewrite Hsame1 by done. by rewrite empty_grid_at.
  - intros q Hq. destruct (decide (q = (GRID_SIZE - 1, GRID_SIZE - 1))) as [|Hne]; [done|].
    rewrite Hsame2 by done. destruct (decide (q = (0, 0))) as [->|Hne0].
    + by rewrite Hat1.
    + rewrite Hsame1 by done. by rewrite empty_grid_at.
  - intros a b. by rewrite lookup_empty.
Qed.

Lemma handle_tile_click_ok row col e :
  editor_ok e → in_bounds GRID_SIZE (row, col) →
  ∃ e', WumpusHeavy.handle_tile_click row col e = Some e' ∧ editor_ok e' ∧
    WumpusHeavy.selected_tile e' = WumpusHeavy.selected_tile e ∧
    grid_at (WumpusHeavy.grid e') row col = Some (WumpusHeavy.selected_tile e) ∧
    (WumpusHeavy.selected_tile e = AGENT → WumpusHeavy.agent_pos e' = (row, col)) ∧
    (WumpusHeavy.selected_tile e = GOLD → WumpusHeavy.gold_pos e' = (row, col)).
Proof.
  intros (Hwf & Hag & Hgo & Htp) Hb. unfold WumpusHeavy.handle_tile_click.
  rewrite (cells_wf _ Hwf).
  assert (Hcells : Forall (in_bounds GRID_SIZE) (row_major GRID_SIZE)).
  { apply Forall_forall. intros p. apply elem_of_row_major. }
  set (sel := WumpusHeavy.selected_tile e) in *.
  (* the teleport map *)
  assert (∃ dest,
    (if decide (sel = TELEPORT) then
       ft ← WumpusHeavy.first_teleport (row_major GRID_SIZE) (WumpusHeavy.grid e);
       Some match ft with
            | None => <[(row, col) := None]> (WumpusHeavy.teleport_destinations e)
            | Some first =>
                if decide (first ≠ (row, col))
                then <[(row, col) := Some first]>
                       (<[first := Some (row, col)]> (WumpusHeavy.teleport_destinations e))
                else WumpusHeavy.teleport_destinations e
            end
     else Some (WumpusHeavy.teleport_destinations e)) = Some dest ∧
    ∀ a b, dest !! a = Some (Some b) → b ≠ a ∧ is_Some (dest !! b))
    as (dest & -> & Hdest).
  { case_decide; [|by eexists].
    destruct (first_teleport_spec _ _ Hwf Hcells) as (ft & -> & _).
    cbn [mbind option_bind]. eexists. split; [done|]. destruct ft as [first|].
    - case_decide as Hne; [|done]. intros a b.
      destruct (decide (a = (row, col))) as [->|Ha].
      { rewrite lookup_insert_eq. intros [= <-]. split; [done|].
        rewrite lookup_insert_ne by done. rewrite lookup_insert_eq. by eexists. }
      rewrite lookup_insert_ne by done.
      destruct (decide (a = first)) as [->|Ha'].
      { rewrite lookup_insert_eq. intros [= <-]. split; [done|].
        rewrite lookup_insert_eq. by eexists. }
      rewrite lookup_insert_ne by done. intros Hab. destruct (Htp a b Hab) as [? Hs].
      split; [done|].
      destruct (decide (b = (row, col))) as [->|]; [rewrite lookup_insert_eq; by eexists|].
      rewrite lookup_insert_ne by done.
      destruct (decide (b = first)) as [->|]; [rewrite lookup_insert_eq; by eexists|].
      by rewrite lookup_insert_ne.
    - intros a b. destruct (decide (a = (row, col))) as [->|Ha].
      { by rewrite lookup_insert_eq. }
      rewrite lookup_insert_ne by done. intros Hab. destruct (Htp a b Hab) as [? Hs].
      split; [done|].
      destruct (decide (b = (row, col))) as [->|]; [rewrite lookup_insert_eq; by eexists|].
      by rewrite lookup_insert_ne. }
  cbn [mbind option_bind].
  (* the grid once the old agent or gold is removed *)
  assert (∃ grid1 agent gold,
    (if decide (sel = AGENT) then
       g ← WumpusHeavy.erase AGENT (row_major GRID_SIZE) (WumpusHeavy.grid e);
       Some (g, (row, col), WumpusHeavy.gold_pos e)
     else if decide (sel = GOLD) then
       g ← WumpusHeavy.erase GOLD (row_major GRID_SIZE) (WumpusHeavy.grid e);
       Some (g, WumpusHeavy.agent_pos e, (row, col))
     else Some (WumpusHeavy.grid e, WumpusHeavy.agent_pos e, WumpusHeavy.gold_pos e))
    = Some (grid1, agent, gold) ∧ grid_wf GRID_SIZE grid1 ∧
    (sel = AGENT → agent = (row, col)) ∧ (sel = GOLD → gold = (row, col)) ∧
    (∀ q, in_bounds GRID_SIZE q → q ≠ (row, col) →
          grid_at grid1 q.1 q.2 = Some AGENT → q = agent) ∧
    (∀ q, in_bounds GRID_SIZE q → q ≠ (row, col) →
          grid_at grid1 q.1 q.2 = Some GOLD → q = gold))
    as (grid1 & agent & gold & -> & Hwf1 & Hsa & Hsg & Hag1 & Hgo1).
  { destruct (decide (sel = AGENT)) as [Hs|Hs]; [|destruct (decide (sel = GOLD)) as [Hs'|Hs']].
    - destruct (erase_spec AGENT _ _ Hwf Hcells) as (g1 & -> & Hwf1 & Hc).
      cbn [mbind option_bind]. eexists _, _, _. split; [done|].
      split_and!; [done|done|congruence| |].
      + intros q Hq _. rewrite (Hc q Hq). case_decide as Hd; [done|].
        intros Hk. destruct Hd. split; [by apply elem_of_row_major|done].
      + intros q Hq _. rewrite (Hc q Hq). case_decide as Hd; [done|]. by apply Hgo.
    - destruct (erase_spec GOLD _ _ Hwf Hcells) as (g1 & -> & Hwf1 & Hc).
      cbn [mbind option_bind]. eexists _, _, _. split; [done|].
      split_and!; [done|congruence|done| |].
      + intros q Hq _. rewrite (Hc q Hq). case_decide as Hd; [done|]. by apply Hag.
      + intros q Hq _. rewrite (Hc q Hq). case_decide as Hd; [done|].
        intros Hk. destruct Hd. split; [by apply elem_of_row_major|done].
    - eexists _, _, _. split; [done|]. split_and!; [done|done|done| |].
      + intros q Hq _. by apply Hag.
      + intros q Hq _. by apply Hgo. }
  cbn [mbind option_bind].
  destruct (grid_set_in_bounds GRID_SIZE grid1 (row, col) sel Hwf1 Hb)
    as (g2 & Hg2 & Hwf2 & Hat2 & Hsame2).
  simpl in Hg2, Hat2. rewrite Hg2. cbn [mbind option_bind].
  eexists. split; [done|]. unfold editor_ok. simpl.
  split_and!; [done| | |done|done|done|done|done].
  - intros q Hq Hk. destruct (decide (q = (row, col))) as [->|Hne].
    + simpl in Hk. rewrite Hat2 in Hk. injection Hk as Hk. symmetry. by apply Hsa.
    + rewrite Hsame2 in Hk by done. by apply Hag1.
  - intros q Hq Hk. destruct (decide (q = (row, col))) as [->|Hne].
    + simpl in Hk. rewrite Hat2 in Hk. injection Hk as Hk. symmetry. by apply Hsg.
    + rewrite Hsame2 in Hk by done. by apply Hgo1.
Qed.

(** Every click of the events falls on a cell of the grid. *)
Definition click_inside (ev : WumpusHeavy.Event) : Prop :=
  match ev with
  | WumpusHeavy.Click row col => in_bounds GRID_SIZE (row, col)
  | WumpusHeavy.Select _ => True
  end.

#[global] Instance click_inside_dec ev : Decision (click_inside ev).
Proof. destruct ev; simpl; apply _. Defined.

Lemma edit_ok events : ∀ e,
  editor_ok e → Forall click_inside events →
  ∃ e', WumpusHeavy.edit events e = Some e' ∧ editor_ok e'.
Proof.
  induction events as [|[tile|row col] events IH]; intros e Hok Hall; simpl.
  - by exists e.
  - apply Forall_cons in Hall as [_ Hall]. apply IH; [|done].
    destruct Hok as (? & ? & ? & ?). by split_and!.
  - apply Forall_cons in Hall as [Hb Hall].
    destruct (handle_tile_click_ok row col e Hok Hb) as (e1 & -> & Hok1 & _).
    cbn [mbind option_bind]. by apply IH.
Qed.

End EditorFacts.

(** ** The two searches on the same grid *)

Section SearchesAgree.
Variable GRID_SIZE : Z.
Variable grid : Grid.
Hypothesis Hwf : grid_wf GRID_SIZE grid.

(** No cell holds a pit or an obstacle, the two kinds on which the
    guards of the two searches differ. *)
Definition plain : Prop :=
  Forall (λ q, grid_at grid q.1 q.2 ≠ Some PIT ∧ grid_at grid q.1 q.2 ≠ Some OBSTACLE)
    (row_major GRID_SIZE).

Hypothesis Hplain : plain.

Lemma neighbours_agree p q :
  q ∈ Wumpus3.neighbours_of p ↔ q ∈ Wumpus4.neighbours_of p.
Proof.
  unfold Wumpus3.neighbours_of, Wumpus4.neighbours_of, Wumpus3.DIRS, Wumpus4.DIRS.
  simpl. rewrite !elem_of_cons. rewrite !elem_of_nil. tauto.
Qed.

Lemma step_agree p q :
  Wumpus3.step GRID_SIZE grid p q ↔ Wumpus4.step GRID_SIZE grid p q.
Proof.
  unfold Wumpus3.step, Wumpus4.step, Wumpus3.may_enter, Wumpus4.enterable.
  rewrite neighbours_agree.
  destruct (decide (in_bounds GRID_SIZE q)) as [Hb|Hb]; [|split; intros [? ?]; [done|tauto]].
  destruct (grid_at_in_bounds GRID_SIZE grid q Hwf Hb) as [e He]. rewrite He. simpl.
  assert (Hpl : e ≠ PIT ∧ e ≠ OBSTACLE).
  { unfold plain in Hplain. rewrite Forall_forall in Hplain.
    destruct (Hplain q) as [H1 H2]; [by apply elem_of_row_major|].
    rewrite He in H1, H2. split; congruence. }
  unfold Wumpus4.valid_move.
  split; intros [Hn Hs]; (split; [done|]).
  - split; [done|]. f_equal. injection Hs as Hs. apply andb_true_iff in Hs as [_ Hw].
    apply bool_decide_eq_true in Hw. apply bool_decide_eq_true. set_solver.
  - destruct Hs as [_ Hs]. injection Hs as Hs. apply bool_decide_eq_true in Hs.
    f_equal. apply andb_true_iff. split; apply bool_decide_eq_true; [tauto|set_solver].
Qed.

Lemma chain_agree l : Wumpus3.chain GRID_SIZE grid l ↔ Wumpus4.chain GRID_SIZE grid l.
Proof.
  induction l as [|p [|q l] IH]; simpl; [tauto..|]. simpl in IH. rewrite step_agree. tauto.
Qed.

Lemma is_path_agree s t l :
  Wumpus3.is_path GRID_SIZE grid s t l ↔ Wumpus4.is_path GRID_SIZE grid s t l.
Proof. unfold Wumpus3.is_path, Wumpus4.is_path. rewrite chain_agree. tauto. Qed.

Lemma searches_agree agent_pos gold_pos :
  0 < GRID_SIZE →
  ∃ pb pa,
    Wumpus3.bfs_search GRID_SIZE grid gold_pos agent_pos = Return pb ∧
    Wumpus4.calculate_path GRID_SIZE grid agent_pos gold_pos = Return pa ∧
    (pb = [] ↔ pa = []) ∧ (length pb ≤ length pa)%nat.
Proof.
  intros Hn.
  pose proof (bfs_search_ok GRID_SIZE grid gold_pos agent_pos) as Hok.
  destruct (Wumpus3.bfs_search GRID_SIZE grid gold_pos agent_pos) as [pb| |];
    simpl in Hok; [|done|done].
  destruct (calculate_path_ok GRID_SIZE grid agent_pos gold_pos Hwf Hn)
    as (pa & Hpa & Hpost).
  exists pb, pa. split; [done|]. split; [done|].
  destruct Hok as [[-> Hno]|[Hpb Hmin]]; destruct Hpost as [[-> Hnr]|[Hp _]].
  - split; [done|]. simpl; lia.
  - apply is_path_agree in Hp. apply (is_path_walk _ _ gold_pos) in Hp. by apply Hno in Hp.
  - apply is_path_agree in Hpb. apply (apath_reach _ _ _ gold_pos) in Hpb. by destruct Hnr.
  - apply is_path_agree in Hp as Hp3. apply (is_path_walk _ _ gold_pos) in Hp3.
    apply Hmin in Hp3. split.
    + split; intros ->; [by destruct Hpb|by destruct Hp].
    + destruct pa; [by destruct Hp|]. simpl in *. lia.
Qed.

End SearchesAgree.

(** *** The first frames of a replay *)

Lemma set_clock_speed now g :
  Wumpus4.animation_speed (Wumpus4.set_clock now g) = Wumpus4.animation_speed g.
Proof. unfold Wumpus4.set_clock. by case_decide. Qed.

(** A frame with nothing queued queues the next move of the path. *)
Lemma update_queues_move acu now g p0 p1 tl :
  Wumpus4.running g = true → Wumpus4.challenge_mode g = false →
  Wumpus4.animations g = [] → Wumpus4.path g = p0 :: p1 :: tl →
  Wumpus4.game_over g = false → Wumpus4.game_won g = false →
  ∃ g', Wumpus4.update acu now g = Some g' ∧
    Wumpus4.animations g' = [Wumpus4.mkAnimation p0 p1 (Wumpus4.animation_speed g) now AGENT] ∧
    Wumpus4.animation g' = Wumpus4.animation g ∧ Wumpus4.path g' = p1 :: tl ∧
    Wumpus4.agent g' = Wumpus4.agent g ∧ Wumpus4.grid g' = Wumpus4.grid g ∧
    Wumpus4.steps_taken g' = Wumpus4.steps_taken g ∧
    Wumpus4.game_won g' = false ∧ Wumpus4.challenge_mode g' = false ∧
    Wumpus4.running g' = true.
Proof.
  intros Hrun Hc Has Hp Hover Hwon.
  destruct (same_play_clock now g)
    as (Hr1 & Hg1 & Hag1 & Hp1 & Ha1 & Has1 & Hsc1 & Hst1 & Hgc1 & Ho1 & Hw1 & Hc1).
  pose proof (set_clock_speed now g) as Hsp.
  unfold Wumpus4.update. rewrite Hrun.
  set (g0 := Wumpus4.set_clock now g) in *.
  unfold Wumpus4.challenge. rewrite Hc1, Hc. cbn [andb]. rewrite Has1, Has.
  unfold Wumpus4.next_move.
  destruct (Wumpus4.path g0) as [|q0 [|q1 tl']] eqn:Hp0; try congruence.
  assert (q0 = p0 ∧ q1 = p1 ∧ tl' = tl) as (-> & -> & ->).
  { rewrite Hp in Hp1. by injection Hp1 as -> -> ->. }
  destruct (Wumpus4.game_over g0 || Wumpus4.game_won g0) eqn:Hor.
  { rewrite Ho1, Hw1, Hover, Hwon in Hor. done. }
  eexists. split; [reflexivity|]. cbn [Wumpus4.animations Wumpus4.animation Wumpus4.path
    Wumpus4.agent Wumpus4.grid Wumpus4.steps_taken Wumpus4.game_won Wumpus4.challenge_mode
    Wumpus4.running].
  rewrite Has1, Has, Hsp. split_and!; try done; congruence.
Qed.

(** A frame that takes an unfinished animation from the queue starts it
    and changes nothing else. *)
Lemma update_starts_animation acu now g a rest :
  Wumpus4.running g = true → Wumpus4.challenge_mode g = false →
  Wumpus4.animation g = None → Wumpus4.animations g = a :: rest →
  Wumpus4.animation_done now a = false →
  ∃ g', Wumpus4.update acu now g = Some g' ∧
    Wumpus4.animation g' = Some a ∧ Wumpus4.animations g' = rest ∧
    Wumpus4.path g' = Wumpus4.path g ∧
    Wumpus4.agent g' = Wumpus4.agent g ∧ Wumpus4.grid g' = Wumpus4.grid g ∧
    Wumpus4.steps_taken g' = Wumpus4.steps_taken g ∧
    Wumpus4.game_won g' = Wumpus4.game_won g ∧ Wumpus4.challenge_mode g' = false.
Proof.
  intros Hrun Hc Ha Has Hnd.
  destruct (same_play_clock now g)
    as (Hr1 & Hg1 & Hag1 & Hp1 & Ha1 & Has1 & Hsc1 & Hst1 & Hgc1 & Ho1 & Hw1 & Hc1).
  unfold Wumpus4.update. rewrite Hrun.
  set (g0 := Wumpus4.set_clock now g) in *.
  unfold Wumpus4.challenge. rewrite Hc1, Hc. cbn [andb]. rewrite Has1, Has.
  unfold Wumpus4.process_animations. rewrite Ha1, Ha, Has1, Has. cbn [head tail].
  rewrite Hnd. eexists. split; [reflexivity|]. simpl. split_and!; try done; congruence.
Qed.

(** * The claims *)

(** ** Scenarios *)

(** A 3x3 board of [wumpus3.py] with two pits between agent and gold. *)
Definition pit_board : Grid :=
  [ [AGENT; PIT; EMPTY];
    [EMPTY; PIT; EMPTY];
    [EMPTY; EMPTY; GOLD] ].

(** The 5x5 board with nothing but the agent and the gold. *)
Definition open_board : Grid :=
  [ [AGENT; EMPTY; EMPTY; EMPTY; EMPTY];
    [EMPTY; EMPTY; EMPTY; EMPTY; EMPTY];
    [EMPTY; EMPTY; EMPTY; EMPTY; EMPTY];
    [EMPTY; EMPTY; EMPTY; EMPTY; EMPTY];
    [EMPTY; EMPTY; EMPTY; EMPTY; GOLD] ].

Lemma pit_board_wf : grid_wf 3 pit_board.
Proof. split; [reflexivity|repeat constructor]. Defined.

Lemma open_board_wf : grid_wf 5 open_board.
Proof. split; [reflexivity|repeat constructor]. Defined.

(** ** C1: breadth-first search returns a shortest path *)



(** ** C5: the trivial and the unreachable case *)

(** C5, as stated, fails: with the start equal to the goal the cell search
    of [wumpus3.py] returns the one-cell path, not the empty one. *)
Lemma bfs_start_is_goal_not_empty :
  Wumpus3.bfs_search 5 open_board (0, 0) (0, 0) ≠ Return [].
Proof. vm_compute. discriminate. Qed.

(** C5, amended.  With the start equal to the goal the cell search returns
    the path made of that one cell (the direction search of [snake3.py]
    returns no move); when the goal cannot be reached both return the empty
    list; no exception is raised in either case. *)
Theorem bfs_trivial_and_unreachable :
  (∀ GRID_SIZE grid start,
     Wumpus3.bfs_search GRID_SIZE grid start start = Return [start]) ∧
  (∀ GRID_SIZE grid start goal,
     grid_wf GRID_SIZE grid →
     (∀ l, ¬ Wumpus3.is_path GRID_SIZE grid start goal l) →
     Wumpus3.bfs_search GRID_SIZE grid goal start = Return []) ∧
  (∀ WIDTH HEIGHT GRID_SIZE start body,
     Snake3.bfs_search WIDTH HEIGHT GRID_SIZE (start :: body) start = Return []) ∧
  (∀ WIDTH HEIGHT GRID_SIZE start body food,
     (∀ path, Snake3.route WIDTH HEIGHT GRID_SIZE (start :: body) start path
              ≠ Some food) →
     Snake3.bfs_search WIDTH HEIGHT GRID_SIZE (start :: body) food = Return []).
Proof.
  split_and!.
  - intros GRID_SIZE grid [x y]. unfold Wumpus3.bfs_search, Wumpus3.bfs_fuel.
    pose proof (Z.square_nonneg GRID_SIZE).
    destruct (Z.to_nat _) as [|fuel] eqn:Hf; [lia|].
    simpl. by rewrite decide_True.
  - intros GRID_SIZE grid start goal Hwf Hno.
    pose proof (bfs_search_ok GRID_SIZE grid goal start) as Hok.
    destruct (Wumpus3.bfs_search GRID_SIZE grid goal start) as [p| |]; simpl in Hok;
      [|done|done].
    destruct Hok as [[-> _]|[Hp _]]; [done|]. by destruct (Hno p).
  - intros WIDTH HEIGHT GRID_SIZE start body.
    unfold Snake3.bfs_search, Snake3.bfs_fuel.
    replace (Z.to_nat (WIDTH * HEIGHT) + 2)%nat
      with (S (Z.to_nat (WIDTH * HEIGHT) + 1)) by lia.
    simpl. by rewrite decide_True.
  - intros WIDTH HEIGHT GRID_SIZE start body food Hno.
    assert (Hin : start ∈ start :: body) by left.
    pose proof (snake_loop_ok WIDTH HEIGHT GRID_SIZE _ food start Hin) as Hok.
    unfold Snake3.bfs_search.
    destruct (Snake3.bfs_loop _ _ _ _ _ _ _ _) as [p| |]; simpl in Hok; [|done|done].
    destruct Hok as [[Hp _]|[-> _]]; [|done]. by destruct (Hno p).
Qed.

Lemma bfs_trivial_and_unreachable_witness :
  Wumpus3.bfs_search 3 pit_board (7, 7) (0, 0) = Return [] ∧
  Snake3.bfs_search 60 60 20 [(20, 20)] (100, 100) = Return [].
Proof.
  split.
  - apply (proj1 (proj2 bfs_trivial_and_unreachable) 3 pit_board (0, 0) (7, 7)).
    + exact pit_board_wf.
    + intros l Hl. apply (is_path_target 3 pit_board (0, 0) (0, 0)) in Hl as [Hl|Hl].
      * discriminate Hl.
      * vm_compute in Hl. discriminate Hl.
  - apply (proj2 (proj2 (proj2 bfs_trivial_and_unreachable)) 60 60 20 (20, 20) []
             (100, 100)).
    intros path Hr. apply route_target in Hr as [Hr|(Hx & _)].
    + discriminate Hr.
    + simpl in Hx. lia.
    + left.
Defined.

(** ** C10: the searches terminate *)

(** C10.  Run with the fuel the model gives it, the cell search never runs
    out of fuel, and on a well-formed grid it returns the empty list or a
    path from start to goal; no cell is expanded twice.  The same holds for
    the direction search, which scans no position twice. *)
Theorem bfs_terminates :
  (∀ GRID_SIZE grid goal start,
     Wumpus3.bfs_search GRID_SIZE grid goal start ≠ Timeout) ∧
  (∀ GRID_SIZE grid goal start,
     grid_wf GRID_SIZE grid →
     ∃ p, Wumpus3.bfs_search GRID_SIZE grid goal start = Return p ∧
          (p = [] ∨ Wumpus3.is_path GRID_SIZE grid start goal p)) ∧
  (∀ GRID_SIZE grid goal start,
     NoDup (Wumpus3.expansions GRID_SIZE grid goal (Wumpus3.bfs_fuel GRID_SIZE)
              [(start, [])] ∅)) ∧
  (∀ WIDTH HEIGHT GRID_SIZE start body food,
     ∃ p, Snake3.bfs_search WIDTH HEIGHT GRID_SIZE (start :: body) food = Return p ∧
          (p = [] ∨
           Snake3.route WIDTH HEIGHT GRID_SIZE (start :: body) start p = Some food)) ∧
  (∀ WIDTH HEIGHT GRID_SIZE start body food,
     NoDup (Snake3.expansions WIDTH HEIGHT GRID_SIZE (start :: body) food
              (Snake3.bfs_fuel WIDTH HEIGHT) [(start, [])] ∅)).
Proof.
  split_and!.
  - intros GRID_SIZE grid goal start.
    pose proof (bfs_search_ok GRID_SIZE grid goal start) as Hok.
    by destruct (Wumpus3.bfs_search GRID_SIZE grid goal start).
  - intros GRID_SIZE grid goal start Hwf.
    pose proof (bfs_search_ok GRID_SIZE grid goal start) as Hok.
    destruct (Wumpus3.bfs_search GRID_SIZE grid goal start) as [p| |]; simpl in Hok;
      [|done|done].
    exists p. split; [done|]. destruct Hok as [[-> _]|[Hp _]]; auto.
  - intros GRID_SIZE grid goal start. apply expansions_fresh.
  - intros WIDTH HEIGHT GRID_SIZE start body food.
    assert (Hin : start ∈ start :: body) by left.
    pose proof (snake_loop_ok WIDTH HEIGHT GRID_SIZE _ food start Hin) as Hok.
    unfold Snake3.bfs_search.
    destruct (Snake3.bfs_loop _ _ _ _ _ _ _ _) as [p| |]; simpl in Hok; [|done|done].
    exists p. split; [done|]. destruct Hok as [[Hp _]|[-> _]]; auto.
  - intros WIDTH HEIGHT GRID_SIZE start body food.
    assert (Hin : start ∈ start :: body) by left.
    apply (snake_expansions_fresh WIDTH HEIGHT GRID_SIZE _ food start Hin).
    + csimpl. apply NoDup_singleton.
    + intros x Hx. csimpl in Hx. unfold seen. set_solver.
Qed.

Lemma bfs_terminates_witness :
  ∃ p, Wumpus3.bfs_search 3 pit_board (2, 2) (0, 0) = Return p ∧
       (p = [] ∨ Wumpus3.is_path 3 pit_board (0, 0) (2, 2) p).
Proof.
  apply (proj1 (proj2 bfs_terminates) 3 pit_board (2, 2) (0, 0)).
  exact pit_board_wf.
Defined.

(** ** C6: the 5x5 scenario *)

(** C6, as stated, fails: the path the cell search returns on the open
    5x5 board has nine cells, both ends included, not eight. *)
Lemma bfs_5x5_not_8_cells :
  ¬ ∃ p, Wumpus3.bfs_search 5 open_board (4, 4) (0, 0) = Return p ∧ length p = 8%nat.
Proof. intros (p & Hp & Hlen). vm_compute in Hp. injection Hp as <-. discriminate Hlen. Qed.

(** C6, amended.  On the open 5x5 board, from (0,0) to (4,4), the cell
    search returns a path of nine cells (eight moves) and the A* search
    returns a path of the same length. *)
Theorem bfs_astar_5x5 :
  ∃ p q, Wumpus3.bfs_search 5 open_board (4, 4) (0, 0) = Return p ∧
         Wumpus4.calculate_path 5 open_board (0, 0) (4, 4) = Return q ∧
         length p = 9%nat ∧ length q = length p.
Proof. eexists _, _. split_and!; [by vm_compute|by vm_compute|done|done]. Qed.

(** ** C2: the kinds a search does not enter *)

(** C2, as stated, fails for the cell search: on [pit_board] it keeps out
    of the cell (0,1), which holds a pit, neither an obstacle nor a
    wumpus. *)
Lemma bfs_excludes_pit :
  ¬ (Wumpus3.may_enter 3 pit_board (0, 1) = Some false ↔
     grid_at pit_board 0 1 = Some OBSTACLE ∨ grid_at pit_board 0 1 = Some WUMPUS).
Proof.
  intros [H _]. destruct H as [H|H]; [by vm_compute|vm_compute in H..]; discriminate H.
Qed.

(** C2, amended.  For a cell [q] of the grid that holds [e] and lies next
    to [p]: the A* search of [wumpus4.py] leaves [q] out of the neighbours
    of [p] exactly when [e] is [OBSTACLE] or [WUMPUS]; the cell search of
    [wumpus3.py] does not enqueue [q] from [p] exactly when [e] is [PIT] or
    [WUMPUS].  Every other kind is entered. *)
Theorem pathfinders_blocked_kinds :
  ∀ GRID_SIZE grid (p q : Pos) e,
    in_bounds GRID_SIZE q →
    grid_at grid q.1 q.2 = Some e →
    (Wumpus3.may_enter GRID_SIZE grid q = Some false ↔ e = PIT ∨ e = WUMPUS) ∧
    (¬ Wumpus4.enterable GRID_SIZE grid q ↔ e = OBSTACLE ∨ e = WUMPUS) ∧
    (∀ path queue',
       q ∈ Wumpus3.neighbours_of p →
       Wumpus3.push_neighbours GRID_SIZE grid Wumpus3.DIRS p.1 p.2 path [] = Some queue' →
       q ∈ queue'.*1 ↔ e ≠ PIT ∧ e ≠ WUMPUS) ∧
    (∀ nbrs,
       q ∈ Wumpus4.neighbours_of p →
       Wumpus4.get_neighbors GRID_SIZE grid p = Some nbrs →
       q ∈ nbrs ↔ e ≠ OBSTACLE ∧ e ≠ WUMPUS).
Proof.
  intros GRID_SIZE grid p q e Hb He.
  assert (H3 : Wumpus3.may_enter GRID_SIZE grid q =
               Some (bool_decide (e ≠ PIT) && bool_decide (e ≠ WUMPUS))).
  { unfold Wumpus3.may_enter. rewrite decide_True by done. by rewrite He. }
  assert (H4 : Wumpus4.enterable GRID_SIZE grid q ↔ e ≠ OBSTACLE ∧ e ≠ WUMPUS).
  { unfold Wumpus4.enterable. rewrite He. simpl. unfold Wumpus4.valid_move.
    split.
    - intros [_ [= Hv]]. apply bool_decide_eq_true in Hv. set_solver.
    - intros [? ?]. split; [done|]. f_equal. apply bool_decide_eq_true. set_solver. }
  split_and!.
  - rewrite H3. destruct e; simpl; split; intros H; try done; try discriminate H;
      auto; destruct H as [H|H]; discriminate H.
  - rewrite H4. destruct (decide (e = OBSTACLE)), (decide (e = WUMPUS)); tauto.
  - intros path queue' Hq Hpush. apply push_neighbours_spec in Hpush as ->.
    simpl. rewrite list_elem_of_fmap. split.
    + intros (en & -> & Hin). apply elem_of_pushed in Hin as [[_ Hen] _].
      rewrite H3 in Hen. injection Hen as Hen. apply andb_true_iff in Hen as [H1 H2].
      by apply bool_decide_eq_true in H1, H2.
    + intros [H1 H2]. exists (q, path ++ [(p.1, p.2)]). split; [done|].
      apply elem_of_pushed. simpl. split; [|done]. split; [by destruct p|].
      rewrite H3. f_equal. apply andb_true_iff. by rewrite !bool_decide_eq_true.
  - intros nbrs Hq Hn. rewrite (elem_of_get_neighbors _ _ _ _ _ Hn).
    unfold Wumpus4.step. rewrite H4. tauto.
Qed.

Lemma pathfinders_blocked_kinds_witness :
  (Wumpus3.may_enter 3 pit_board (0, 1) = Some false ↔ PIT = PIT ∨ PIT = WUMPUS) ∧
  (¬ Wumpus4.enterable 3 pit_board (0, 1) ↔ PIT = OBSTACLE ∨ PIT = WUMPUS).
Proof.
  pose proof (pathfinders_blocked_kinds 3 pit_board (0, 0) (0, 1) PIT) as H.
  destruct H as (H1 & H2 & _).
  - unfold in_bounds. simpl. lia.
  - reflexivity.
  - exact (conj H1 H2).
Defined.

(** ** C4: the score of a move *)

(** C4.  [tentative_g] adds 1 to the score of the current cell for a move
    to a cell that holds no teleport and 2 for a move onto a teleport cell,
    and a neighbour that improves gets exactly that score.  The search
    takes no teleport map: the score does not depend on the pairing. *)
Theorem astar_edge_costs :
  ∀ grid gold_pos st current neighbor e gc,
    grid_at grid neighbor.1 neighbor.2 = Some e →
    Wumpus4.g_score st !! current = Some gc →
    let cost := if decide (e = TELEPORT) then 2 else 1 in
    Wumpus4.tentative_g grid st current neighbor = Some (gc + cost) ∧
    ∃ st', Wumpus4.relax_one grid gold_pos current neighbor st = Some st' ∧
      (Wumpus4.improves st neighbor (gc + cost) = true →
       Wumpus4.g_score st' !! neighbor = Some (gc + cost) ∧
       Wumpus4.came_from st' !! neighbor = Some current) ∧
      (Wumpus4.improves st neighbor (gc + cost) = false → st' = st).
Proof.
  intros grid gold_pos st current neighbor e gc He Hg cost.
  destruct (tentative_g_cost grid st current neighbor e gc He Hg) as [Ht Hc].
  fold cost in Hc. rewrite Hc in Ht. split; [done|].
  unfold Wumpus4.relax_one. rewrite Ht. simpl.
  destruct (Wumpus4.improves st neighbor (gc + cost)) eqn:Hi.
  - eexists. split; [done|]. split; [|done]. intros _. simpl.
    by rewrite !lookup_insert_eq.
  - eexists. split; [done|]. split; [done|]. done.
Qed.

(** A column of three teleports between the agent and the gold. *)
Definition teleport_board : Grid :=
  [ [EMPTY; EMPTY; AGENT; EMPTY; EMPTY];
    [EMPTY; EMPTY; TELEPORT; EMPTY; EMPTY];
    [EMPTY; EMPTY; TELEPORT; EMPTY; EMPTY];
    [EMPTY; EMPTY; TELEPORT; EMPTY; EMPTY];
    [EMPTY; EMPTY; GOLD; EMPTY; EMPTY] ].

Lemma astar_edge_costs_witness :
  Wumpus4.tentative_g teleport_board (Wumpus4.astar_init (0, 2) (4, 2)) (0, 2) (1, 2)
    = Some (0 + 2) ∧
  Wumpus4.tentative_g teleport_board (Wumpus4.astar_init (0, 2) (4, 2)) (0, 2) (0, 3)
    = Some (0 + 1).
Proof.
  split.
  - apply (astar_edge_costs teleport_board (4, 2) (Wumpus4.astar_init (0, 2) (4, 2))
             (0, 2) (1, 2) TELEPORT 0); reflexivity.
  - apply (astar_edge_costs teleport_board (4, 2) (Wumpus4.astar_init (0, 2) (4, 2))
             (0, 2) (0, 3) EMPTY 0); reflexivity.
Defined.

(** ** C7: the teleport map is a pairing *)

(** C7.  On a well-formed grid, whatever order [random.shuffle] produces,
    [initialize_teleports] builds a map in which every entry [a ↦ b] has
    [b ≠ a], [b] a teleport cell of the grid and [b ↦ a]; every key is a
    teleport cell; with an odd number of teleport cells exactly one of
    them is missing from the map, and with an even number none is. *)
Theorem teleport_pairing :
  ∀ (shuffle : list Pos → list Pos) GRID_SIZE grid,
    (∀ l, shuffle l ≡ₚ l) →
    grid_wf GRID_SIZE grid →
    ∃ m, Wumpus4.initialize_teleports GRID_SIZE shuffle grid = Some m ∧
      (∀ a b, m !! a = Some b →
         b ≠ a ∧ grid_at grid a.1 a.2 = Some TELEPORT ∧
         grid_at grid b.1 b.2 = Some TELEPORT ∧ m !! b = Some a) ∧
      (Nat.Odd (length (teleport_cells GRID_SIZE grid)) →
         ∃ c, c ∈ teleport_cells GRID_SIZE grid ∧ m !! c = None ∧
              ∀ c', c' ∈ teleport_cells GRID_SIZE grid → m !! c' = None → c' = c) ∧
      (Nat.Even (length (teleport_cells GRID_SIZE grid)) →
         ∀ c, c ∈ teleport_cells GRID_SIZE grid → is_Some (m !! c)).
Proof.
  intros shuffle GRID_SIZE grid Hperm Hwf. unfold Wumpus4.initialize_teleports.
  destruct (collect_teleports_wf GRID_SIZE (row_major GRID_SIZE) grid [] Hwf) as [tps Htps].
  { apply Forall_forall. intros p. apply elem_of_row_major. }
  rewrite Htps. simpl. eexists. split; [done|].
  apply collect_teleports_spec in Htps. simpl in Htps.
  fold (teleport_cells GRID_SIZE grid) in Htps. subst tps.
  set (tps := teleport_cells GRID_SIZE grid). set (l := shuffle tps).
  assert (Hnd : NoDup l).
  { unfold l. rewrite (Hperm tps). apply NoDup_filter, NoDup_row_major. }
  assert (Hin : ∀ x, x ∈ l ↔ x ∈ tps) by (intros x; unfold l; by rewrite (Hperm tps)).
  assert (Hlen : length l = length tps) by (unfold l; by rewrite (Hperm tps)).
  assert (Hlk : ∀ a b, Wumpus4.pair_up l ∅ !! a = Some b ↔ paired l a b).
  { intros a b. rewrite pair_up_lookup; [|done|by intros; apply lookup_empty].
    rewrite lookup_empty. naive_solver. }
  assert (Htp : ∀ x, x ∈ tps → grid_at grid x.1 x.2 = Some TELEPORT).
  { intros x Hx. unfold tps, teleport_cells in Hx. by apply list_elem_of_filter in Hx as [? _]. }
  split_and!.
  - intros a b Hab. apply Hlk in Hab. pose proof (paired_elem_of _ _ _ Hab) as [Ha Hb].
    split_and!.
    + intros ->. by apply (paired_irrefl l a a).
    + apply Htp. by apply Hin.
    + apply Htp. by apply Hin.
    + apply Hlk. by apply paired_sym.
  - rewrite <- Hlen. intros Hodd.
    destruct (last l) as [c|] eqn:Hc.
    2:{ apply last_None in Hc. rewrite Hc in Hodd. destruct Hodd as [k Hk].
        simpl in Hk. lia. }
    exists c. split_and!.
    + apply Hin. by apply last_Some_elem_of.
    + destruct (Wumpus4.pair_up l ∅ !! c) as [b|] eqn:Hb; [|done].
      apply Hlk in Hb. by destruct (paired_last l c b).
    + intros c' Hc' Hnone. apply Hin in Hc'.
      destruct (paired_cover l c' Hc') as [[b Hb]|[_ Hl]]; [|congruence].
      apply Hlk in Hb. congruence.
  - rewrite <- Hlen. intros Heven c Hc. apply Hin in Hc.
    destruct (paired_even l c Heven Hc) as [b Hb]. exists b. by apply Hlk.
Qed.

Lemma teleport_board_wf : grid_wf 5 teleport_board.
Proof. split; [reflexivity|repeat constructor]. Defined.

Lemma teleport_pairing_witness :
  ∃ m, Wumpus4.initialize_teleports 5 reverse teleport_board = Some m ∧
    (∀ a b, m !! a = Some b →
       b ≠ a ∧ grid_at teleport_board a.1 a.2 = Some TELEPORT ∧
       grid_at teleport_board b.1 b.2 = Some TELEPORT ∧ m !! b = Some a) ∧
    (Nat.Odd (length (teleport_cells 5 teleport_board)) →
       ∃ c, c ∈ teleport_cells 5 teleport_board ∧ m !! c = None ∧
            ∀ c', c' ∈ teleport_cells 5 teleport_board → m !! c' = None → c' = c) ∧
    (Nat.Even (length (teleport_cells 5 teleport_board)) →
       ∀ c, c ∈ teleport_cells 5 teleport_board → is_Some (m !! c)).
Proof.
  apply (teleport_pairing reverse 5 teleport_board).
  - intros l. apply reverse_Permutation.
  - exact teleport_board_wf.
Defined.

Example teleport_pairing_example :
  Wumpus4.initialize_teleports 5 reverse teleport_board
  = Some {[ (3, 2) := (2, 2); (2, 2) := (3, 2) ]}.
Proof. vm_compute. reflexivity. Qed.

(** ** C8: the generators never reuse a cell *)

(** All the positions [generate_custom_grid] has given out. *)
Definition custom_placements (c : Wumpus3.Custom) : list Pos :=
  Wumpus3.c_agent c :: Wumpus3.c_gold c :: Wumpus3.c_wumpus c ++ Wumpus3.c_pits c.



(** A generator of raw numbers for the scenarios. *)
Definition sample_rand (i : nat) : Z := Z.of_nat i * 7 + 3.


(** ** C9: landing on a paired teleport *)

Lemma py_index_set {A : Type} (l : list A) (i : Z) (x : A) :
  is_Some (py_index l i) → is_Some (py_set l i x).
Proof.
  unfold py_index, py_set. intros [a Ha]. repeat case_decide; try done; try by eexists.
  all: apply lookup_lt_Some in Ha; lia.
Qed.

Lemma grid_at_set grid r c e :
  is_Some (grid_at grid r c) → is_Some (grid_set grid r c e).
Proof.
  unfold grid_at, grid_set. intros [x Hx].
  destruct (py_index grid r) as [row|] eqn:Hrow; [|done]. simpl in *.
  destruct (py_index_set row c e) as [row' ->]; [by eexists|]. simpl.
  apply py_index_set. by eexists.
Qed.

(** The animation a frame works on and the animations left pending: the
    running one, or else the first of the list. *)
Definition current (g : Wumpus4.Game) :
    option (Wumpus4.Animation * list Wumpus4.Animation) :=
  match Wumpus4.animation g with
  | Some a => Some (a, Wumpus4.animations g)
  | None =>
      match Wumpus4.animations g with
      | a :: rest => Some (a, rest)
      | [] => None
      end
  end.

(** The agent after each frame of a replay. *)
Fixpoint replay (times : list Z) (g : Wumpus4.Game) : list (option Pos) :=
  match times with
  | [] => []
  | t :: times' =>
      match Wumpus4.update (λ g', g') t g with
      | Some g' => Wumpus4.agent g' :: replay times' g'
      | None => []
      end
  end.

(** The cells a replay stops at: repeated frames on a cell count once. *)
Fixpoint stops (l : list (option Pos)) : list (option Pos) :=
  match l with
  | p :: l' =>
      match l' with
      | q :: _ => if decide (p = q) then stops l' else p :: stops l'
      | [] => [p]
      end
  | [] => []
  end.

(** The scenario of the specification: teleports at (1,1) and (3,3), the
    path running along row 1 through (1,1). *)
Definition teleport_game : Wumpus4.Game :=
  Wumpus4.mkGame true
    [ [EMPTY; EMPTY; EMPTY; EMPTY; EMPTY];
      [AGENT; TELEPORT; EMPTY; GOLD; EMPTY];
      [EMPTY; EMPTY; EMPTY; EMPTY; EMPTY];
      [EMPTY; EMPTY; EMPTY; TELEPORT; EMPTY];
      [EMPTY; EMPTY; EMPTY; EMPTY; EMPTY] ]
    (Some (1, 0)) [(1, 0); (1, 1); (1, 2); (1, 3)] None []
    {[ (1, 1) := (3, 3); (3, 3) := (1, 1) ]}
    300 0 0 0 false false 1000 0 false 10000 0.

(** C9, as stated, fails in its last part: after the arrival at the
    destination (3,3) the agent is sent back to the teleport cell (1,1) and
    the replay goes on with the move (1,1) → (1,2) of the old path, which
    does not start at the destination. *)
Lemma teleport_replay_resumes_old_path :
  stops (replay ((λ i, 1000 + 100 * i) <$> seqZ 0 17) teleport_game)
    = [Some (1, 0); Some (1, 1); Some (3, 3); Some (1, 1); Some (1, 2)] ∧
  (1, 2) ∈ Wumpus4.neighbours_of (1, 1) ∧
  (1, 2) ∉ Wumpus4.neighbours_of (3, 3).
Proof.
  split_and!.
  - vm_compute. reflexivity.
  - vm_compute. set_solver.
  - vm_compute. set_solver.
Qed.

(** C9, amended.  When the frame completes an [AGENT] animation that ends
    on a cell [T] holding a teleport paired with [dest], [update] leaves the
    agent on [T] and puts the teleport animation and exactly one move
    [T → dest] in front of the pending animations, which stay behind them;
    the path is not touched.  Two later frames, the first once the teleport
    animation is over and the second once the move is over, leave the agent
    still on [T] and then on [dest]; the animations that were pending
    before the landing are still pending after it. *)
Theorem teleport_landing_two_results :
  (∀ (apply_challenge_update : Wumpus4.Game → Wumpus4.Game) now g a rest old grid1 dest,
     Wumpus4.running g = true →
     let g1 := Wumpus4.challenge apply_challenge_update now (Wumpus4.set_clock now g) in
     Wumpus4.animations g1 ≠ [] →
     current g1 = Some (a, rest) →
     Wumpus4.animation_done now a = true →
     Wumpus4.entity_type a = AGENT →
     Wumpus4.agent g1 = Some old →
     grid_set (Wumpus4.grid g1) old.1 old.2 TRAIL = Some grid1 →
     grid_at grid1 (Wumpus4.end_pos a).1 (Wumpus4.end_pos a).2 = Some TELEPORT →
     Wumpus4.teleport_destinations g1 !! Wumpus4.end_pos a = Some dest →
     ∃ g', Wumpus4.update apply_challenge_update now g = Some g' ∧
       Wumpus4.agent g' = Some (Wumpus4.end_pos a) ∧
       grid_set grid1 (Wumpus4.end_pos a).1 (Wumpus4.end_pos a).2 AGENT
         = Some (Wumpus4.grid g') ∧
       Wumpus4.animation g' = None ∧
       Wumpus4.animations g' =
         Wumpus4.mkAnimation (Wumpus4.end_pos a) (Wumpus4.end_pos a) 500 now TELEPORT ::
         Wumpus4.mkAnimation (Wumpus4.end_pos a) dest (Wumpus4.animation_speed g1) now
           AGENT :: rest ∧
       Wumpus4.path g' = Wumpus4.path g1 ∧
       Wumpus4.teleport_destinations g' = Wumpus4.teleport_destinations g1) ∧
  (∀ (apply_challenge_update : Wumpus4.Game → Wumpus4.Game) n g' T dest rest now t1 t2,
     Wumpus4.running g' = true → Wumpus4.challenge_mode g' = false →
     grid_wf n (Wumpus4.grid g') → in_bounds n T → in_bounds n dest → T ≠ dest →
     Wumpus4.agent g' = Some T → Wumpus4.animation g' = None →
     Wumpus4.animations g' =
       Wumpus4.mkAnimation T T 500 now TELEPORT ::
       Wumpus4.mkAnimation T dest (Wumpus4.animation_speed g') now AGENT :: rest →
     t1 - now >= 500 → t2 - now >= Wumpus4.animation_speed g' →
     ∃ ga gb,
       Wumpus4.update apply_challenge_update t1 g' = Some ga ∧
       Wumpus4.agent ga = Some T ∧ Wumpus4.animation ga = None ∧
       Wumpus4.animations ga =
         Wumpus4.mkAnimation T dest (Wumpus4.animation_speed g') now AGENT :: rest ∧
       Wumpus4.update apply_challenge_update t2 ga = Some gb ∧
       Wumpus4.agent gb = Some dest ∧
       grid_at (Wumpus4.grid gb) T.1 T.2 = Some TRAIL ∧
       grid_at (Wumpus4.grid gb) dest.1 dest.2 = Some AGENT ∧
       Wumpus4.path gb = Wumpus4.path g' ∧
       ∃ extra, Wumpus4.animations gb = extra ++ rest).
Proof.
  split.
  - intros f now g a rest old grid1 dest Hrun g1 Hne Hcur Hdone Hent Hag Hg1 Ht Hd.
    unfold Wumpus4.update. rewrite Hrun. fold g1.
    destruct (Wumpus4.animations g1) as [|a0 anims] eqn:Han; [done|].
    unfold Wumpus4.process_animations.
    assert (Hpick : match Wumpus4.animation g1 with
                    | Some a' => (Some a', Wumpus4.animations g1)
                    | None => (head (Wumpus4.animations g1), tail (Wumpus4.animations g1))
                    end = (Some a, rest)).
    { unfold current in Hcur. destruct (Wumpus4.animation g1); [by injection Hcur as -> ->|].
      rewrite Han in *. simpl. by injection Hcur as -> ->. }
    rewrite Hpick, Hdone, decide_True by done.
    unfold Wumpus4.arrive. rewrite Hag. simpl. rewrite Hg1. simpl. rewrite Ht. simpl.
    destruct (grid_at_set grid1 (Wumpus4.end_pos a).1 (Wumpus4.end_pos a).2 AGENT)
      as [grid2 Hg2]; [by eexists|].
    rewrite Hg2. simpl. rewrite Hd. eexists. split; [done|]. simpl.
    split_and!; done.
  - intros f n g' T dest rest now t1 t2.
    destruct g' as [run gr ag pa an ans td sp sc st gc go gw gs ge cm ci cn]. simpl.
    intros -> -> Hwf HT Hd Hne -> -> -> Ht1 Ht2.
    destruct (grid_set_in_bounds n gr T TRAIL Hwf HT) as (gr1 & Hgr1 & Hwf1 & HT1 & Hs1).
    destruct (grid_at_in_bounds n gr1 dest Hwf1 Hd) as [e He].
    destruct (grid_set_in_bounds n gr1 dest AGENT Hwf1 Hd)
      as (gr2 & Hgr2 & Hwf2 & Hd2 & Hs2).
    assert (HT2 : grid_at gr2 T.1 T.2 = Some TRAIL) by (rewrite Hs2; done).
    assert (Hdone1 : bool_decide (t1 - now >= 500) = true)
      by by apply bool_decide_eq_true_2.
    assert (Hdone2 : bool_decide (t2 - now >= sp) = true)
      by by apply bool_decide_eq_true_2.
    unfold Wumpus4.update, Wumpus4.set_clock, Wumpus4.challenge,
      Wumpus4.process_animations, Wumpus4.animation_done. simpl.
    destruct (decide (gs > 0)) as [Hgs|Hgs]; simpl; rewrite Hdone1; simpl.
    all: eexists _, _; split; [reflexivity|]; simpl.
    all: repeat (split; [done|]).
    all: destruct (decide (gs > 0)); try done; simpl.
    all: rewrite Hdone2; simpl; unfold Wumpus4.arrive; simpl.
    all: rewrite Hgr1; simpl; rewrite He; simpl; rewrite Hgr2; simpl.
    all: split; [reflexivity|].
    all: destruct e; simpl; try (destruct (td !! dest)); simpl.
    all: split_and!; try done.
    all: first [by exists []|by eexists [_]|by eexists [_; _]].
Qed.

(** The scenario at the frame that completes the move onto (1,1), and
    right after it. *)
Definition landing_game : Wumpus4.Game :=
  Wumpus4.mkGame true
    [ [EMPTY; EMPTY; EMPTY; EMPTY; EMPTY];
      [AGENT; TELEPORT; EMPTY; GOLD; EMPTY];
      [EMPTY; EMPTY; EMPTY; EMPTY; EMPTY];
      [EMPTY; EMPTY; EMPTY; TELEPORT; EMPTY];
      [EMPTY; EMPTY; EMPTY; EMPTY; EMPTY] ]
    (Some (1, 0)) [(1, 2); (1, 3)]
    (Some (Wumpus4.mkAnimation (1, 0) (1, 1) 300 1000 AGENT))
    [Wumpus4.mkAnimation (1, 1) (1, 2) 300 1200 AGENT]
    {[ (1, 1) := (3, 3); (3, 3) := (1, 1) ]}
    300 0 0 0 false false 1000 0 false 10000 0.

Definition landed_game : Wumpus4.Game :=
  Wumpus4.mkGame true
    [ [EMPTY; EMPTY; EMPTY; EMPTY; EMPTY];
      [TRAIL; AGENT; EMPTY; GOLD; EMPTY];
      [EMPTY; EMPTY; EMPTY; EMPTY; EMPTY];
      [EMPTY; EMPTY; EMPTY; TELEPORT; EMPTY];
      [EMPTY; EMPTY; EMPTY; EMPTY; EMPTY] ]
    (Some (1, 1)) [(1, 2); (1, 3)] None
    [Wumpus4.mkAnimation (1, 1) (1, 1) 500 1300 TELEPORT;
     Wumpus4.mkAnimation (1, 1) (3, 3) 300 1300 AGENT;
     Wumpus4.mkAnimation (1, 1) (1, 2) 300 1200 AGENT]
    {[ (1, 1) := (3, 3); (3, 3) := (1, 1) ]}
    300 0 1 0 false false 1000 300 false 10000 0.

Lemma teleport_landing_two_results_witness :
  (∃ g', Wumpus4.update (λ g, g) 1300 landing_game = Some g' ∧
         Wumpus4.agent g' = Some (1, 1) ∧
         Wumpus4.animations g' =
           [Wumpus4.mkAnimation (1, 1) (1, 1) 500 1300 TELEPORT;
            Wumpus4.mkAnimation (1, 1) (3, 3) 300 1300 AGENT;
            Wumpus4.mkAnimation (1, 1) (1, 2) 300 1200 AGENT]) ∧
  (∃ ga gb, Wumpus4.update (λ g, g) 1800 landed_game = Some ga ∧
            Wumpus4.agent ga = Some (1, 1) ∧
            Wumpus4.update (λ g, g) 1900 ga = Some gb ∧
            Wumpus4.agent gb = Some (3, 3)).
Proof.
  split.
  - destruct (proj1 teleport_landing_two_results (λ g, g) 1300 landing_game
                (Wumpus4.mkAnimation (1, 0) (1, 1) 300 1000 AGENT)
                [Wumpus4.mkAnimation (1, 1) (1, 2) 300 1200 AGENT]
                (1, 0)
                [ [EMPTY; EMPTY; EMPTY; EMPTY; EMPTY];
                  [TRAIL; TELEPORT; EMPTY; GOLD; EMPTY];
                  [EMPTY; EMPTY; EMPTY; EMPTY; EMPTY];
                  [EMPTY; EMPTY; EMPTY; TELEPORT; EMPTY];
                  [EMPTY; EMPTY; EMPTY; EMPTY; EMPTY] ]
                (3, 3))
      as (g' & Hu & Hag & _ & _ & Han & _); try reflexivity.
    + discriminate.
    + exists g'. split_and!; [exact Hu|exact Hag|exact Han].
  - destruct (proj2 teleport_landing_two_results (λ g, g) 5 landed_game (1, 1) (3, 3)
                [Wumpus4.mkAnimation (1, 1) (1, 2) 300 1200 AGENT] 1300 1800 1900)
      as (ga & gb & Hua & Haa & _ & _ & Hub & Hab & _); try reflexivity.
    + split; [reflexivity|repeat constructor].
    + unfold in_bounds. simpl. lia.
    + unfold in_bounds. simpl. lia.
    + discriminate.
    + lia.
    + simpl. lia.
    + exists ga, gb. split_and!; [exact Hua|exact Haa|exact Hub|exact Hab].
Defined.

(** * Further properties *)

(** ** The A* search of [wumpus4.py] *)

(** X1. [calculate_path] always returns: on a well-formed grid the search
    stops within its bound without raising; it answers the empty list exactly
    when no sequence of moves through cells free of obstacles and wumpuses
    leads from the agent to the gold, and otherwise a list of cells that
    starts at the agent, ends at the gold and moves one cell at a time,
    never into an obstacle or a wumpus. *)
Theorem astar_finds_path_iff_reachable (GRID_SIZE : Z) (grid : Grid) (agent_pos gold_pos : Pos) :
  grid_wf GRID_SIZE grid → 0 < GRID_SIZE →
  ∃ path, Wumpus4.calculate_path GRID_SIZE grid agent_pos gold_pos = Return path ∧
    (path = [] → ∀ l, ¬ Wumpus4.is_path GRID_SIZE grid agent_pos gold_pos l) ∧
    (path ≠ [] → Wumpus4.is_path GRID_SIZE grid agent_pos gold_pos path).
Proof.
  intros Hwf Hn.
  destruct (calculate_path_ok GRID_SIZE grid agent_pos gold_pos Hwf Hn)
    as (path & Hr & [[-> Hno]|[Hp _]]).
  - exists []. split_and!; [done| |done]. intros _ l Hl. apply Hno. by eapply apath_reach.
  - exists path. split_and!; [done| |done]. intros ->. by destruct Hp.
Qed.

Lemma astar_finds_path_iff_reachable_witness :
  ∃ path, Wumpus4.calculate_path 5 teleport_board (0, 2) (4, 2) = Return path ∧
    (path = [] → ∀ l, ¬ Wumpus4.is_path 5 teleport_board (0, 2) (4, 2) l) ∧
    (path ≠ [] → Wumpus4.is_path 5 teleport_board (0, 2) (4, 2) path).
Proof.
  apply astar_finds_path_iff_reachable; [split; [reflexivity|repeat constructor]|lia].
Defined.

(** X2. The path [calculate_path] returns never visits a cell twice: the
    scores strictly fall along the [came_from] links it follows back from
    the gold. *)
Theorem astar_path_visits_no_cell_twice (GRID_SIZE : Z) (grid : Grid)
    (agent_pos gold_pos : Pos) :
  grid_wf GRID_SIZE grid → 0 < GRID_SIZE →
  ∃ path, Wumpus4.calculate_path GRID_SIZE grid agent_pos gold_pos = Return path ∧
          NoDup path.
Proof.
  intros Hwf Hn.
  destruct (calculate_path_ok GRID_SIZE grid agent_pos gold_pos Hwf Hn)
    as (path & Hr & [[-> _]|[_ Hnd]]).
  - exists []. split; [done|constructor].
  - by exists path.
Qed.

Lemma astar_path_visits_no_cell_twice_witness :
  ∃ path, Wumpus4.calculate_path 5 open_board (0, 0) (4, 4) = Return path ∧ NoDup path.
Proof.
  apply astar_path_visits_no_cell_twice; [split; [reflexivity|repeat constructor]|lia].
Defined.

(** X3. The Manhattan distance that [heuristic] computes never exceeds
    the number of moves of a path the search may take between the two
    cells, and hence never its score, in which a move costs 1, or 2 onto a
    teleport. *)
Theorem heuristic_admissible (GRID_SIZE : Z) (grid : Grid) (s t : Pos) (l : list Pos) :
  Wumpus4.is_path GRID_SIZE grid s t l →
  Wumpus4.heuristic s t <= Z.of_nat (length l) - 1 ∧
  Z.of_nat (length l) - 1 <= Wumpus4.path_cost grid l.
Proof. apply heuristic_chain. Qed.

Lemma heuristic_admissible_witness :
  Wumpus4.heuristic (0, 2) (4, 2)
    <= Z.of_nat (length [(0, 2); (1, 2); (2, 2); (3, 2); (4, 2)]) - 1 ∧
  Z.of_nat (length [(0, 2); (1, 2); (2, 2); (3, 2); (4, 2)]) - 1
    <= Wumpus4.path_cost teleport_board [(0, 2); (1, 2); (2, 2); (3, 2); (4, 2)].
Proof.
  apply (heuristic_admissible 5 teleport_board (0, 2) (4, 2)).
  apply (bool_decide_unpack _). vm_compute. exact I.
Defined.

(** ** The snake of [snake3.py] *)

(** A snake of two cells heading right, with the food three moves away. *)
Definition sample_snake : Snake3.Game :=
  Snake3.mkGame [(20, 20); (0, 20)] (60, 40) Snake3.RIGHT true false 0 0.

(** X4. [move_snake] keeps the snake well formed: when its cells were
    pairwise distinct and inside the window they still are after the move,
    the food stays inside the window, the snake never shrinks and grows by
    at most one cell, and it grows exactly when its head moves onto the
    food. *)
Theorem move_snake_keeps_snake_valid (WIDTH HEIGHT GRID_SIZE : Z) (rand : nat → Z)
    (g g' : Snake3.Game) :
  0 < GRID_SIZE →
  NoDup (Snake3.snake g) →
  Forall (Snake3.in_window WIDTH HEIGHT) (Snake3.snake g) →
  Snake3.in_window WIDTH HEIGHT (Snake3.food g) →
  Snake3.move_snake WIDTH HEIGHT GRID_SIZE rand g = Some g' →
  NoDup (Snake3.snake g') ∧
  Forall (Snake3.in_window WIDTH HEIGHT) (Snake3.snake g') ∧
  Snake3.in_window WIDTH HEIGHT (Snake3.food g') ∧
  (length (Snake3.snake g) ≤ length (Snake3.snake g') ≤ S (length (Snake3.snake g)))%nat ∧
  (length (Snake3.snake g') = S (length (Snake3.snake g)) ↔
     ∃ h b, Snake3.snake g = h :: b ∧
            Snake3.target GRID_SIZE h (Snake3.direction g) = Snake3.food g ∧
            Snake3.food g ∉ Snake3.snake g).
Proof. apply move_snake_valid. Qed.

Lemma move_snake_keeps_snake_valid_witness :
  let g' := Snake3.mkGame [(40, 20); (20, 20)] (60, 40) Snake3.RIGHT true false 1 0 in
  NoDup (Snake3.snake g') ∧
  Forall (Snake3.in_window 80 80) (Snake3.snake g') ∧
  Snake3.in_window 80 80 (Snake3.food g') ∧
  (length (Snake3.snake sample_snake) ≤ length (Snake3.snake g')
     ≤ S (length (Snake3.snake sample_snake)))%nat ∧
  (length (Snake3.snake g') = S (length (Snake3.snake sample_snake)) ↔
     ∃ h b, Snake3.snake sample_snake = h :: b ∧
            Snake3.target 20 h (Snake3.direction sample_snake) = Snake3.food sample_snake ∧
            Snake3.food sample_snake ∉ Snake3.snake sample_snake).
Proof.
  apply (move_snake_keeps_snake_valid 80 80 20 sample_rand sample_snake).
  - lia.
  - apply (bool_decide_unpack _). vm_compute. exact I.
  - apply (bool_decide_unpack _). vm_compute. exact I.
  - apply (bool_decide_unpack _). vm_compute. exact I.
  - reflexivity.
Defined.

(** X5. While a route of free positions leads from the head to the food,
    the game loop (search, then [move_snake]) keeps the game running and
    makes the snake eat the food after at most as many rounds as the route
    has moves: the snake is then one cell longer and its head is where the
    food was. *)
Theorem snake_reaches_food (WIDTH HEIGHT GRID_SIZE : Z) (rand : nat → Z)
    (g : Snake3.Game) (h : Pos) (b : list Pos) (path : list Snake3.Direction) :
  0 < GRID_SIZE <= WIDTH → GRID_SIZE <= HEIGHT →
  Snake3.running g = true → Snake3.paused g = false →
  Snake3.snake g = h :: b → Snake3.food g ≠ h →
  Snake3.route WIDTH HEIGHT GRID_SIZE (h :: b) h path = Some (Snake3.food g) →
  ∃ k g', (1 ≤ k ≤ length path)%nat ∧
    Snake3.ticks WIDTH HEIGHT GRID_SIZE rand k g = Return g' ∧
    Snake3.running g' = true ∧
    head (Snake3.snake g') = Some (Snake3.food g) ∧
    length (Snake3.snake g') = S (length (Snake3.snake g)).
Proof.
  intros HG HH Hrun Hp Hs Hf Hr.
  by apply (snake_reaches_food_aux WIDTH HEIGHT GRID_SIZE rand (length path) g h b path).
Qed.

Lemma snake_reaches_food_witness :
  ∃ k g', (1 ≤ k ≤ 3)%nat ∧
    Snake3.ticks 80 80 20 sample_rand k sample_snake = Return g' ∧
    Snake3.running g' = true ∧
    head (Snake3.snake g') = Some (60, 40) ∧
    length (Snake3.snake g') = 3%nat.
Proof.
  apply (snake_reaches_food 80 80 20 sample_rand sample_snake (20, 20) [(0, 20)]
           [Snake3.RIGHT; Snake3.RIGHT; Snake3.DOWN]);
    try reflexivity; try lia; try discriminate.
Defined.

(** X6. A game that starts with a snake of one cell always gets its
    first food: when head and food lie in the window on multiples of
    [GRID_SIZE], the snake eats the food within the Manhattan distance
    counted in steps of [GRID_SIZE]. *)
Theorem snake_eats_first_food (WIDTH HEIGHT GRID_SIZE : Z) (rand : nat → Z)
    (g : Snake3.Game) (h : Pos) :
  0 < GRID_SIZE <= WIDTH → GRID_SIZE <= HEIGHT →
  Snake3.running g = true → Snake3.paused g = false →
  Snake3.snake g = [h] → Snake3.food g ≠ h →
  Snake3.in_window WIDTH HEIGHT h → Snake3.in_window WIDTH HEIGHT (Snake3.food g) →
  h.1 `mod` GRID_SIZE = 0 → h.2 `mod` GRID_SIZE = 0 →
  (Snake3.food g).1 `mod` GRID_SIZE = 0 → (Snake3.food g).2 `mod` GRID_SIZE = 0 →
  ∃ k g', (1 ≤ k)%nat ∧
    Z.of_nat k * GRID_SIZE
      <= Z.abs ((Snake3.food g).1 - h.1) + Z.abs ((Snake3.food g).2 - h.2) ∧
    Snake3.ticks WIDTH HEIGHT GRID_SIZE rand k g = Return g' ∧
    Snake3.running g' = true ∧
    head (Snake3.snake g') = Some (Snake3.food g) ∧
    length (Snake3.snake g') = 2%nat.
Proof.
  intros HG HH Hrun Hp Hs Hf Hhw Hfw Hh1 Hh2 Hf1 Hf2.
  destruct (open_route WIDTH HEIGHT GRID_SIZE h (Snake3.food g)) as (path & Hr & Hlen);
    [lia|done|done| |  |].
  { apply Z.mod_divide; [lia|]. rewrite Zminus_mod, Hh1, Hf1. by rewrite Z.mod_0_l by lia. }
  { apply Z.mod_divide; [lia|]. rewrite Zminus_mod, Hh2, Hf2. by rewrite Z.mod_0_l by lia. }
  destruct (snake_reaches_food_aux WIDTH HEIGHT GRID_SIZE rand (length path) g h [] path)
    as (k & g' & Hk & Ht & Hrun' & Hhd & Hl); try done.
  exists k, g'. split_and!; [lia|nia|done|done|done|].
  rewrite Hl, Hs. done.
Qed.

Lemma snake_eats_first_food_witness :
  let g := Snake3.mkGame [(200, 200)] (60, 340) Snake3.RIGHT true false 0 0 in
  ∃ k g', (1 ≤ k)%nat ∧
    Z.of_nat k * 20 <= Z.abs (60 - 200) + Z.abs (340 - 200) ∧
    Snake3.ticks 400 400 20 sample_rand k g = Return g' ∧
    Snake3.running g' = true ∧
    head (Snake3.snake g') = Some (60, 340) ∧
    length (Snake3.snake g') = 2%nat.
Proof.
  apply (snake_eats_first_food 400 400 20 sample_rand
           (Snake3.mkGame [(200, 200)] (60, 340) Snake3.RIGHT true false 0 0) (200, 200));
    try reflexivity; try lia; try discriminate; unfold Snake3.in_window; simpl; lia.
Defined.

(** ** The grids and the animation of [wumpus3.py] *)

(** A generator that plays back the given numbers. *)
Definition scripted (l : list Z) (i : nat) : Z := default 0 (l !! i).

(** X7. [generate_random_grid] never raises on a grid of positive size,
    and a grid it returns holds the agent in the top-left corner, the gold
    in the bottom-right corner, one wumpus and exactly nine pits, all on
    different cells inside the grid, and nothing else. *)
Theorem random_grid_layout (GRID_SIZE : Z) (rand : nat → Z) (fuel i : nat) :
  1 <= GRID_SIZE →
  Wumpus3.generate_random_grid GRID_SIZE rand fuel i ≠ Raise ∧
  ∀ R, Wumpus3.generate_random_grid GRID_SIZE rand fuel i = Return R →
    Wumpus3.r_agent R = (0, 0) ∧ Wumpus3.r_gold R = (GRID_SIZE - 1, GRID_SIZE - 1) ∧
    Wumpus3.r_agent R ≠ Wumpus3.r_gold R ∧
    in_bounds GRID_SIZE (Wumpus3.r_wumpus R) ∧
    Wumpus3.r_wumpus R ≠ Wumpus3.r_agent R ∧ Wumpus3.r_wumpus R ≠ Wumpus3.r_gold R ∧
    size (Wumpus3.r_pits R) = 9%nat ∧
    (∀ p, p ∈ Wumpus3.r_pits R →
       in_bounds GRID_SIZE p ∧ p ≠ Wumpus3.r_agent R ∧ p ≠ Wumpus3.r_gold R ∧
       p ≠ Wumpus3.r_wumpus R) ∧
    grid_wf GRID_SIZE (Wumpus3.r_grid R) ∧
    ∀ q, in_bounds GRID_SIZE q →
      grid_at (Wumpus3.r_grid R) q.1 q.2 = Some (random_cell R q).
Proof. apply generate_random_grid_spec. Qed.

Lemma random_grid_layout_witness :
  let rand := scripted [1; 1; 0; 1; 0; 2; 0; 3; 0; 4; 0; 5; 0; 6; 0; 7; 0; 8; 0; 9] in
  (∃ R, Wumpus3.generate_random_grid 10 rand 10 0 = Return R) ∧
  Wumpus3.generate_random_grid 10 rand 10 0 ≠ Raise ∧
  ∀ R, Wumpus3.generate_random_grid 10 rand 10 0 = Return R →
    Wumpus3.r_agent R = (0, 0) ∧ Wumpus3.r_gold R = (10 - 1, 10 - 1) ∧
    Wumpus3.r_agent R ≠ Wumpus3.r_gold R ∧
    in_bounds 10 (Wumpus3.r_wumpus R) ∧
    Wumpus3.r_wumpus R ≠ Wumpus3.r_agent R ∧ Wumpus3.r_wumpus R ≠ Wumpus3.r_gold R ∧
    size (Wumpus3.r_pits R) = 9%nat ∧
    (∀ p, p ∈ Wumpus3.r_pits R →
       in_bounds 10 p ∧ p ≠ Wumpus3.r_agent R ∧ p ≠ Wumpus3.r_gold R ∧
       p ≠ Wumpus3.r_wumpus R) ∧
    grid_wf 10 (Wumpus3.r_grid R) ∧
    ∀ q, in_bounds 10 q → grid_at (Wumpus3.r_grid R) q.1 q.2 = Some (random_cell R q).
Proof.
  intros rand. split.
  - eexists. vm_compute. reflexivity.
  - apply (random_grid_layout 10 rand 10 0). lia.
Defined.

(** X8. The game of [main]: on a well-formed grid whose only agent is on
    the start cell, the search followed by [move_agent] raises nothing and
    draws one grid for every cell of the path; each of these grids shows the
    agent on the cell of the path it belongs to and nowhere else, leaves the
    cells off the path as they were, and the last one shows the agent on the
    gold's cell. *)
Theorem play_shows_one_agent (GRID_SIZE : Z) (grid : Grid) (agent_pos gold_pos : Pos) :
  grid_wf GRID_SIZE grid → in_bounds GRID_SIZE agent_pos →
  Forall (λ q, grid_at grid q.1 q.2 = Some AGENT → q = agent_pos) (row_major GRID_SIZE) →
  ∃ path frames,
    Wumpus3.play GRID_SIZE grid agent_pos gold_pos = Return (path, frames) ∧
    length frames = length path ∧
    (∀ i frame, frames !! i = Some frame →
       ∃ p, path !! i = Some p ∧ grid_wf GRID_SIZE frame ∧
         (∀ q, in_bounds GRID_SIZE q → grid_at frame q.1 q.2 = Some AGENT ↔ q = p) ∧
         (∀ q, in_bounds GRID_SIZE q → q ∉ path →
               grid_at frame q.1 q.2 = grid_at grid q.1 q.2)) ∧
    (∀ frame, last frames = Some frame →
       grid_at frame gold_pos.1 gold_pos.2 = Some AGENT).
Proof.
  intros Hwf Ha Hsole'.
  assert (Hsole : ∀ q, in_bounds GRID_SIZE q → grid_at grid q.1 q.2 = Some AGENT →
                       q = agent_pos).
  { intros q Hq. rewrite Forall_forall in Hsole'. by apply Hsole', elem_of_row_major. }
  clear Hsole'. unfold Wumpus3.play.
  pose proof (bfs_search_ok GRID_SIZE grid gold_pos agent_pos) as Hok.
  destruct (Wumpus3.bfs_search GRID_SIZE grid gold_pos agent_pos) as [path| |];
    simpl in Hok; [|done|done].
  destruct Hok as [[-> _]|[Hp _]].
  { exists [], []. split_and!; [done|done| |done]. intros i frame Hf.
    by rewrite lookup_nil in Hf. }
  assert (Hall : Forall (in_bounds GRID_SIZE) path).
  { destruct Hp as (Hh & _ & Hc). apply chain_in_bounds with grid; [done|].
    intros p Hp. congruence. }
  destruct (move_agent_loop_spec GRID_SIZE path grid None Hwf Hall)
    as (frames & Hm & Hlen & Hfr).
  { intros q Hq Hag. destruct Hp as (-> & _). f_equal. symmetry. by apply Hsole. }
  unfold Wumpus3.move_agent. rewrite Hm.
  exists path, frames.
  assert (Hfr' : ∀ i frame, frames !! i = Some frame →
     ∃ p, path !! i = Some p ∧ grid_wf GRID_SIZE frame ∧
       (∀ q, in_bounds GRID_SIZE q → grid_at frame q.1 q.2 = Some AGENT ↔ q = p) ∧
       (∀ q, in_bounds GRID_SIZE q → q ∉ path →
             grid_at frame q.1 q.2 = grid_at grid q.1 q.2)).
  { intros i frame Hf.
    destruct (lookup_lt_is_Some_2 path i) as [p Hpi].
    { rewrite <- Hlen. by eapply lookup_lt_Some. }
    destruct (Hfr i frame p Hf Hpi) as (Hwff & Hs & Hsame).
    exists p. split_and!; [done|done|done|]. intros q Hq Hn. by apply Hsame. }
  split_and!; [destruct path; [by destruct Hp|done]|done|done|].
  intros frame Hl. rewrite last_lookup in Hl.
  destruct (Hfr' _ _ Hl) as (p & Hpi & _ & Hs & _).
  assert (p = gold_pos) as ->.
  { destruct Hp as (_ & Hlast & _). rewrite last_lookup in Hlast.
    rewrite Hlen in Hpi. congruence. }
  apply Hs; [|done]. rewrite Forall_forall in Hall. apply Hall.
  by eapply list_elem_of_lookup_2.
Qed.

Lemma play_shows_one_agent_witness :
  ∃ path frames,
    Wumpus3.play 3 pit_board (0, 0) (2, 2) = Return (path, frames) ∧
    length frames = length path ∧
    (∀ i frame, frames !! i = Some frame →
       ∃ p, path !! i = Some p ∧ grid_wf 3 frame ∧
         (∀ q, in_bounds 3 q → grid_at frame q.1 q.2 = Some AGENT ↔ q = p) ∧
         (∀ q, in_bounds 3 q → q ∉ path →
               grid_at frame q.1 q.2 = grid_at pit_board q.1 q.2)) ∧
    (∀ frame, last frames = Some frame → grid_at frame 2 2 = Some AGENT).
Proof.
  apply (play_shows_one_agent 3 pit_board (0, 0) (2, 2)).
  - split; [reflexivity|repeat constructor].
  - unfold in_bounds. simpl. lia.
  - apply (bool_decide_unpack _). vm_compute. exact I.
Defined.

(** ** The replay driver of [wumpus4.py] over many frames *)

(** The last move of a path is being animated and nothing else is
    queued. *)
Definition stalled_game : Wumpus4.Game :=
  Wumpus4.mkGame true
    [ [EMPTY; EMPTY; EMPTY; EMPTY; EMPTY];
      [TRAIL; TRAIL; AGENT; GOLD; EMPTY];
      [EMPTY; EMPTY; EMPTY; EMPTY; EMPTY];
      [EMPTY; EMPTY; EMPTY; EMPTY; EMPTY];
      [EMPTY; EMPTY; EMPTY; EMPTY; EMPTY] ]
    (Some (1, 2)) [(1, 3)]
    (Some (Wumpus4.mkAnimation (1, 2) (1, 3) 300 1900 AGENT)) []
    ∅ 300 0 2 0 false false 1000 900 false 10000 0.

(** X9. [update] looks at the running animation only while further
    animations are queued.  So once the last move of the path is running
    (nothing is queued and at most one cell of the path is left) no later
    frame completes it, however late: outside the challenge mode every frame
    leaves the grid, the agent, the path, the animation, the score and the
    flags [game_won] and [game_over] as they are. *)
Theorem update_never_completes_last_move
    (apply_challenge_update : Wumpus4.Game → Wumpus4.Game) (times : list Z)
    (g : Wumpus4.Game) (a : Wumpus4.Animation) :
  Wumpus4.challenge_mode g = false →
  Wumpus4.animation g = Some a → Wumpus4.animations g = [] →
  (length (Wumpus4.path g) ≤ 1)%nat →
  ∃ g', run_frames apply_challenge_update times g = Some g' ∧ same_play g g'.
Proof. apply run_frames_stalled. Qed.

Lemma update_never_completes_last_move_witness :
  ∃ g', run_frames (λ g, g) [2000; 3000; 100000] stalled_game = Some g' ∧
        same_play stalled_game g'.
Proof.
  apply (update_never_completes_last_move (λ g, g) [2000; 3000; 100000] stalled_game
           (Wumpus4.mkAnimation (1, 2) (1, 3) 300 1900 AGENT));
    try reflexivity; simpl; lia.
Defined.



(** ** The challenge mode and the set-up of a game in [wumpus4.py] *)

(** X11. [apply_challenge_update] never raises on a well-formed grid.  It
    changes a cell only to empty a cell of the wumpus list or to put a
    wumpus, a pit or a trap on a cell that was empty (or was the wumpus cell
    just emptied) and lies more than two rows and more than two columns away
    from the agent; the wumpus list keeps its length and stays inside the
    grid; and the path it stores afterwards is a path of the changed grid
    from the agent to the gold, or empty when there is none. *)
Theorem challenge_update_keeps_game_sound (GRID_SIZE : Z) (rand : nat → Z) (grid : Grid)
    (agent_pos gold_pos : Pos) (wumpus_positions path : list Pos) (i : nat) :
  1 <= GRID_SIZE → grid_wf GRID_SIZE grid →
  Forall (in_bounds GRID_SIZE) wumpus_positions →
  ∃ ch, Wumpus4.apply_challenge_update GRID_SIZE rand grid agent_pos gold_pos
          wumpus_positions path i = Return ch ∧
    grid_wf GRID_SIZE (Wumpus4.ch_grid ch) ∧
    length (Wumpus4.ch_wumpus ch) = length wumpus_positions ∧
    Forall (in_bounds GRID_SIZE) (Wumpus4.ch_wumpus ch) ∧
    (∀ q, in_bounds GRID_SIZE q →
       challenge_change grid (Wumpus4.ch_grid ch) agent_pos wumpus_positions q) ∧
    (Wumpus4.ch_path ch = [] →
       ∀ l, ¬ Wumpus4.is_path GRID_SIZE (Wumpus4.ch_grid ch) agent_pos gold_pos l) ∧
    (Wumpus4.ch_path ch ≠ [] →
       Wumpus4.is_path GRID_SIZE (Wumpus4.ch_grid ch) agent_pos gold_pos
         (Wumpus4.ch_path ch)).
Proof.
  intros Hn Hwf Hws. unfold Wumpus4.apply_challenge_update.
  destruct (change_grid_spec GRID_SIZE rand Hn grid agent_pos wumpus_positions i Hwf Hws)
    as (grid' & ws' & i' & -> & Hwf' & Hlen & Hws' & Hch).
  destruct (calculate_path_ok GRID_SIZE grid' agent_pos gold_pos Hwf' ltac:(lia))
    as (p & Hp & Hpost).
  assert (Hg : grid' ≠ []).
  { intros ->. destruct Hwf' as [Hl _]. simpl in Hl. lia. }
  assert (Hm : ∀ (g' : Grid) (r0 r : outcome Wumpus4.Challenged),
             g' ≠ [] → match g' with [] => r0 | _ => r end = r).
  { by intros [|]. }
  rewrite Hm by done.
  rewrite Hp. eexists. split; [done|]. simpl.
  split_and!; [done..| |].
  - intros -> l Hl. destruct Hpost as [[_ Hno]|[Hpath _]]; [|by destruct Hpath].
    apply Hno. by eapply apath_reach.
  - intros Hne. by destruct Hpost as [[-> _]|[Hpath _]].
Qed.

Lemma challenge_update_keeps_game_sound_witness :
  ∃ ch, Wumpus4.apply_challenge_update 5 sample_rand open_board (0, 0) (4, 4)
          [] [] 0 = Return ch ∧
    grid_wf 5 (Wumpus4.ch_grid ch) ∧
    length (Wumpus4.ch_wumpus ch) = length (@nil Pos) ∧
    Forall (in_bounds 5) (Wumpus4.ch_wumpus ch) ∧
    (∀ q, in_bounds 5 q →
       challenge_change open_board (Wumpus4.ch_grid ch) (0, 0) [] q) ∧
    (Wumpus4.ch_path ch = [] →
       ∀ l, ¬ Wumpus4.is_path 5 (Wumpus4.ch_grid ch) (0, 0) (4, 4) l) ∧
    (Wumpus4.ch_path ch ≠ [] →
       Wumpus4.is_path 5 (Wumpus4.ch_grid ch) (0, 0) (4, 4) (Wumpus4.ch_path ch)).
Proof.
  apply (challenge_update_keeps_game_sound 5 sample_rand open_board (0, 0) (4, 4) [] [] 0).
  - lia.
  - exact open_board_wf.
  - constructor.
Defined.

(** X12. Starting a level ([initialize_game] with a level selected) never
    raises on a grid of size two or more: the generated grid is square,
    shows the agent in the top-left corner and nowhere else, the gold in the
    bottom-right corner and nowhere else, a wumpus exactly on the cells of
    [wumpus_positions]; every entry of the teleport map leads from a teleport
    cell to a different teleport cell and back, and with an even number of
    teleports each of them has an entry; and the stored path is a path of
    that grid from the agent to the gold, or empty when there is none. *)
Theorem initialize_level_sets_up_sound_game (GRID_SIZE : Z)
    (shuffle : list Pos → list Pos) (rand : nat → Z) (settings : Wumpus4.Settings)
    (i : nat) :
  2 <= GRID_SIZE → (∀ l, shuffle l ≡ₚ l) →
  ∃ S, Wumpus4.initialize_level GRID_SIZE shuffle rand settings i = Return S ∧
    Wumpus4.s_agent S = (0, 0) ∧
    Wumpus4.s_gold S = (GRID_SIZE - 1, GRID_SIZE - 1) ∧
    grid_wf GRID_SIZE (Wumpus4.s_grid S) ∧
    (∀ q, in_bounds GRID_SIZE q →
       (grid_at (Wumpus4.s_grid S) q.1 q.2 = Some AGENT ↔ q = Wumpus4.s_agent S) ∧
       (grid_at (Wumpus4.s_grid S) q.1 q.2 = Some GOLD ↔ q = Wumpus4.s_gold S) ∧
       (grid_at (Wumpus4.s_grid S) q.1 q.2 = Some WUMPUS ↔ q ∈ Wumpus4.s_wumpus S)) ∧
    teleports_paired GRID_SIZE (Wumpus4.s_grid S) (Wumpus4.s_teleports S) ∧
    (Wumpus4.s_path S = [] →
       ∀ l, ¬ Wumpus4.is_path GRID_SIZE (Wumpus4.s_grid S) (Wumpus4.s_agent S)
              (Wumpus4.s_gold S) l) ∧
    (Wumpus4.s_path S ≠ [] →
       Wumpus4.is_path GRID_SIZE (Wumpus4.s_grid S) (Wumpus4.s_agent S)
         (Wumpus4.s_gold S) (Wumpus4.s_path S)).
Proof.
  intros Hsize Hperm. unfold Wumpus4.initialize_level.
  destruct (generate_grid_spec GRID_SIZE settings rand i Hsize) as (P & HP & _).
  rewrite HP.
  destruct (generated_cells GRID_SIZE settings rand i P Hsize HP) as (Hwf & _ & Hcells).
  destruct (generate_grid_corners GRID_SIZE settings rand i P HP) as [Ha Hg].
  destruct (finish_spec GRID_SIZE shuffle Hperm (Wumpus4.p_grid P) (Wumpus4.p_agent P)
              (Wumpus4.p_gold P) (Wumpus4.p_wumpus P) (Wumpus4.p_rng P) ltac:(lia) Hwf)
    as (m & path & -> & Hm & Hp1 & Hp2).
  eexists. split; [done|]. simpl. by split_and!.
Qed.

Lemma initialize_level_sets_up_sound_game_witness :
  ∃ S, Wumpus4.initialize_level 10 reverse sample_rand Wumpus4.Expert 0 = Return S ∧
    Wumpus4.s_agent S = (0, 0) ∧
    Wumpus4.s_gold S = (10 - 1, 10 - 1) ∧
    grid_wf 10 (Wumpus4.s_grid S) ∧
    (∀ q, in_bounds 10 q →
       (grid_at (Wumpus4.s_grid S) q.1 q.2 = Some AGENT ↔ q = Wumpus4.s_agent S) ∧
       (grid_at (Wumpus4.s_grid S) q.1 q.2 = Some GOLD ↔ q = Wumpus4.s_gold S) ∧
       (grid_at (Wumpus4.s_grid S) q.1 q.2 = Some WUMPUS ↔ q ∈ Wumpus4.s_wumpus S)) ∧
    teleports_paired 10 (Wumpus4.s_grid S) (Wumpus4.s_teleports S) ∧
    (Wumpus4.s_path S = [] →
       ∀ l, ¬ Wumpus4.is_path 10 (Wumpus4.s_grid S) (Wumpus4.s_agent S)
              (Wumpus4.s_gold S) l) ∧
    (Wumpus4.s_path S ≠ [] →
       Wumpus4.is_path 10 (Wumpus4.s_grid S) (Wumpus4.s_agent S)
         (Wumpus4.s_gold S) (Wumpus4.s_path S)).
Proof.
  apply (initialize_level_sets_up_sound_game 10 reverse sample_rand Wumpus4.Expert 0).
  - lia.
  - intros l. apply reverse_Permutation.
Defined.



(** ** The map editor of [wumpusheavy.py] *)

(** X14. However the user selects tiles and clicks on cells of the map,
    the editor raises nothing and keeps at most one agent and one gold on the
    grid, on the cells it records as [agent_pos] and [gold_pos]; and a
    teleport that has a destination never leads to itself but to a cell that
    is in the teleport map as well. *)
Theorem editor_keeps_one_agent_one_gold (GRID_SIZE : Z) (selected : Entity)
    (events : list WumpusHeavy.Event) :
  1 <= GRID_SIZE → Forall (click_inside GRID_SIZE) events →
  ∃ e0 e, WumpusHeavy.initialize_map GRID_SIZE selected = Some e0 ∧
    WumpusHeavy.edit events e0 = Some e ∧
    grid_wf GRID_SIZE (WumpusHeavy.grid e) ∧
    (∀ q, in_bounds GRID_SIZE q →
       grid_at (WumpusHeavy.grid e) q.1 q.2 = Some AGENT → q = WumpusHeavy.agent_pos e) ∧
    (∀ q, in_bounds GRID_SIZE q →
       grid_at (WumpusHeavy.grid e) q.1 q.2 = Some GOLD → q = WumpusHeavy.gold_pos e) ∧
    (∀ a b, WumpusHeavy.teleport_destinations e !! a = Some (Some b) →
       b ≠ a ∧ is_Some (WumpusHeavy.teleport_destinations e !! b)).
Proof.
  intros Hn Hall.
  destruct (initialize_map_ok GRID_SIZE Hn selected) as (e0 & He0 & Hok0).
  destruct (edit_ok GRID_SIZE Hn events e0 Hok0 Hall) as (e & He & Hok).
  exists e0, e. split; [done|]. split; [done|]. exact Hok.
Qed.

Lemma editor_keeps_one_agent_one_gold_witness :
  let events := [WumpusHeavy.Select AGENT; WumpusHeavy.Click 2 2;
                 WumpusHeavy.Select TELEPORT; WumpusHeavy.Click 1 1;
                 WumpusHeavy.Click 3 3; WumpusHeavy.Select GOLD;
                 WumpusHeavy.Click 0 4] in
  ∃ e0 e, WumpusHeavy.initialize_map 5 EMPTY = Some e0 ∧
    WumpusHeavy.edit events e0 = Some e ∧
    grid_wf 5 (WumpusHeavy.grid e) ∧
    (∀ q, in_bounds 5 q →
       grid_at (WumpusHeavy.grid e) q.1 q.2 = Some AGENT → q = WumpusHeavy.agent_pos e) ∧
    (∀ q, in_bounds 5 q →
       grid_at (WumpusHeavy.grid e) q.1 q.2 = Some GOLD → q = WumpusHeavy.gold_pos e) ∧
    (∀ a b, WumpusHeavy.teleport_destinations e !! a = Some (Some b) →
       b ≠ a ∧ is_Some (WumpusHeavy.teleport_destinations e !! b)).
Proof.
  intros events. apply (editor_keeps_one_agent_one_gold 5 EMPTY events).
  - lia.
  - apply (bool_decide_unpack _). vm_compute. exact I.
Defined.

(** ** The two searches side by side *)

(** A 10x10 grid with wumpuses as walls. *)
Definition maze_board : Grid :=
  let W := WUMPUS in let e := EMPTY in
  [ [e; e; e; e; e; e; e; W; W; e];
    [W; e; e; W; W; W; e; e; e; W];
    [W; e; e; e; e; e; e; e; e; e];
    [e; W; e; e; e; W; W; e; e; e];
    [e; e; W; e; W; W; e; e; e; e];
    [e; e; W; e; e; e; e; e; W; e];
    [e; W; e; W; e; e; e; W; e; e];
    [e; e; e; e; e; W; W; e; W; e];
    [e; e; W; W; e; e; e; e; W; e];
    [W; e; W; e; W; e; W; e; e; e] ].

(** X15. On a well-formed grid without pits and obstacles (the kinds on
    which their guards differ) the search of [wumpus3.py] and the A* search
    of [wumpus4.py] both return, find a path for the same pairs of cells, and
    the A* path never has fewer cells than the breadth-first one.  It can
    have more, even without teleports: the open set keeps the priority an
    entry had when it was added, so a cell whose score improves later is
    still taken in the old order; and with teleports the path returned can
    score more than another path. *)
Theorem astar_agrees_with_bfs_but_is_not_optimal :
  (∀ GRID_SIZE grid agent_pos gold_pos,
     grid_wf GRID_SIZE grid → 0 < GRID_SIZE → plain GRID_SIZE grid →
     ∃ pb pa,
       Wumpus3.bfs_search GRID_SIZE grid gold_pos agent_pos = Return pb ∧
       Wumpus4.calculate_path GRID_SIZE grid agent_pos gold_pos = Return pa ∧
       (pb = [] ↔ pa = []) ∧ (length pb ≤ length pa)%nat) ∧
  (∃ pb pa,
     plain 10 maze_board ∧
     Wumpus3.bfs_search 10 maze_board (8, 7) (0, 4) = Return pb ∧
     Wumpus4.calculate_path 10 maze_board (0, 4) (8, 7) = Return pa ∧
     (length pb < length pa)%nat) ∧
  (∃ pa l,
     Wumpus4.calculate_path 5 teleport_board (0, 2) (4, 2) = Return pa ∧
     Wumpus4.is_path 5 teleport_board (0, 2) (4, 2) l ∧
     Wumpus4.path_cost teleport_board l < Wumpus4.path_cost teleport_board pa).
Proof.
  split_and!.
  - intros GRID_SIZE grid agent_pos gold_pos Hwf Hn Hplain. by apply searches_agree.
  - eexists _, _. split_and!.
    + apply (bool_decide_unpack _). vm_compute. exact I.
    + vm_compute. reflexivity.
    + vm_compute. reflexivity.
    + simpl. lia.
  - exists [(0, 2); (1, 2); (2, 2); (3, 2); (4, 2)],
           [(0, 2); (0, 3); (1, 3); (2, 3); (3, 3); (4, 3); (4, 2)].
    split_and!.
    + vm_compute. reflexivity.
    + apply (bool_decide_unpack _). vm_compute. exact I.
    + vm_compute. reflexivity.
Qed.

Lemma astar_agrees_with_bfs_but_is_not_optimal_witness :
  ∃ pb pa,
    Wumpus3.bfs_search 5 open_board (4, 4) (0, 0) = Return pb ∧
    Wumpus4.calculate_path 5 open_board (0, 0) (4, 4) = Return pa ∧
    (pb = [] ↔ pa = []) ∧ (length pb ≤ length pa)%nat.
Proof.
  apply (proj1 astar_agrees_with_bfs_but_is_not_optimal 5 open_board (0, 0) (4, 4)).
  - exact open_board_wf.
  - lia.
  - apply (bool_decide_unpack _). vm_compute. exact I.
Defined.

(** ** A replay that cannot be won *)

(** A game just set up, with the gold next to the agent. *)
Definition fresh_game : Wumpus4.Game :=
  Wumpus4.mkGame true
    [ [EMPTY; EMPTY; EMPTY; EMPTY; EMPTY];
      [EMPTY; EMPTY; AGENT; GOLD; EMPTY];
      [EMPTY; EMPTY; EMPTY; EMPTY; EMPTY];
      [EMPTY; EMPTY; EMPTY; EMPTY; EMPTY];
      [EMPTY; EMPTY; EMPTY; EMPTY; EMPTY] ]
    (Some (1, 2)) [(1, 2); (1, 3)] None [] ∅ 300 0 0 0 false false 1000 0 false 10000 0.

(** X16. A game whose path has two cells (the gold is next to the
    agent) is never won by the replay when its second frame comes less than
    [animation_speed] after the first: the first frame queues the move, the
    second starts it, and from then on no frame looks at it again, so the
    agent stays where it is, no step is counted and [game_won] stays
    false. *)
Theorem adjacent_gold_is_never_reached
    (apply_challenge_update : Wumpus4.Game → Wumpus4.Game) (g : Wumpus4.Game)
    (p0 p1 : Pos) (t1 t2 : Z) (times : list Z) :
  Wumpus4.running g = true → Wumpus4.challenge_mode g = false →
  Wumpus4.animation g = None → Wumpus4.animations g = [] →
  Wumpus4.path g = [p0; p1] →
  Wumpus4.game_over g = false → Wumpus4.game_won g = false →
  t2 - t1 < Wumpus4.animation_speed g →
  ∃ g', run_frames apply_challenge_update (t1 :: t2 :: times) g = Some g' ∧
    Wumpus4.agent g' = Wumpus4.agent g ∧ Wumpus4.grid g' = Wumpus4.grid g ∧
    Wumpus4.steps_taken g' = Wumpus4.steps_taken g ∧
    Wumpus4.game_won g' = false ∧ Wumpus4.path g' = [p1].
Proof.
  intros Hrun Hc Ha Has Hp Hover Hwon Hlt.
  destruct (update_queues_move apply_challenge_update t1 g p0 p1 [] Hrun Hc Has Hp Hover Hwon)
    as (ga & H1 & Hasa & Haa & Hpa & Haga & Hga & Hsta & Hwa & Hca & Hra).
  destruct (update_starts_animation apply_challenge_update t2 ga _ [] Hra Hca
              ltac:(congruence) Hasa)
    as (gb & H2 & Hab & Hasb & Hpb & Hagb & Hgb & Hstb & Hwb & Hcb).
  { unfold Wumpus4.animation_done. cbn [Wumpus4.start_time Wumpus4.duration].
    apply bool_decide_eq_false_2. lia. }
  destruct (run_frames_stalled apply_challenge_update times gb _ Hcb Hab Hasb)
    as (g' & Hr & Hs).
  { rewrite Hpb, Hpa. simpl. lia. }
  exists g'. split.
  { cbn [run_frames]. rewrite H1. cbn [mbind option_bind]. rewrite H2.
    cbn [mbind option_bind]. exact Hr. }
  destruct Hs as (_ & Hgs & Hags & Hps & _ & _ & _ & Hsts & _ & _ & Hws & _).
  split_and!; congruence.
Qed.

Lemma adjacent_gold_is_never_reached_witness :
  ∃ g', run_frames (λ g, g) [1000; 1016; 1032; 5000; 60000] fresh_game = Some g' ∧
    Wumpus4.agent g' = Wumpus4.agent fresh_game ∧
    Wumpus4.grid g' = Wumpus4.grid fresh_game ∧
    Wumpus4.steps_taken g' = Wumpus4.steps_taken fresh_game ∧
    Wumpus4.game_won g' = false ∧ Wumpus4.path g' = [(1, 3)].
Proof.
  apply (adjacent_gold_is_never_reached (λ g, g) fresh_game (1, 2) (1, 3) 1000 1016
           [1032; 5000; 60000]); try reflexivity.
Defined.
